(** * LangCheck: model configuration manager and full-width augmenter

    A shallow embedding of
      - [src/langcheck/metrics/model_manager/_model_management.py]
        ([ModelManager]: configuration store, validator, memoised
        [fetch_model], validate-then-commit-or-rollback setter), and
      - [src/langcheck/augment/en/_to_full_width.py] ([to_full_width]).

    Python dictionaries are insertion-ordered, so they are association
    lists here.  The configuration is a tree of mutable nodes (OmegaConf
    [DictConfig]s: language -> metric -> attribute -> value); the code
    copies it with [deepcopy] and then mutates either the copy or the
    original in place, so the nodes live in an explicit heap and every
    operation threads that heap.  The model hub and the three model loaders
    are outside the repository's control and are oracles of a [world]. *)

From Stdlib Require Import QArith.
From stdpp Require Import base list strings.

Local Open Scope string_scope.
Local Open Scope list_scope.
Local Open Scope nat_scope.

(** ** Python dictionaries *)

Module Dict.

(** [d.get(k)]; [k in d] is [mem k d]. *)
Fixpoint get {V} (k : string) (d : list (string * V)) : option V :=
  match d with
  | [] => None
  | (k', v) :: d' => if String.eqb k k' then Some v else get k d'
  end.

(** [d[k] = v]: an existing key keeps its position, a new one goes last. *)
Fixpoint set {V} (k : string) (v : V) (d : list (string * V)) : list (string * V) :=
  match d with
  | [] => [(k, v)]
  | (k', v') :: d' =>
      if String.eqb k k' then (k, v) :: d' else (k', v') :: set k v d'
  end.

(** What is left of [d] after [d.pop(k)] or [d.pop(k, None)]. *)
Fixpoint remove {V} (k : string) (d : list (string * V)) : list (string * V) :=
  match d with
  | [] => []
  | (k', v) :: d' =>
      if String.eqb k k' then d' else (k', v) :: remove k d'
  end.

Definition mem {V} (k : string) (d : list (string * V)) : bool :=
  match get k d with Some _ => true | None => false end.

End Dict.

(** [x in xs] for a list (or a [dict_keys] view) of strings. *)
Definition str_in (x : string) (xs : list string) : bool := bool_decide (x ∈ xs).

(** Truthiness of an optional string: [None] and [''] are false. *)
Definition truthy_str (o : option string) : bool :=
  match o with
  | Some s => negb (String.eqb s "")
  | None => false
  end.

(** ** Exceptions and results *)

Inductive exn :=
| KeyError (msg : string)
| ValueError (msg : string)
| TypeError (msg : string)
| AttributeError (msg : string)
| RequestException   (* [requests.get]: no connection, or the timeout expired *)
| LoaderError.       (* anything raised inside a model loader *)

Inductive result (A : Type) :=
| Ok (a : A)
| Raise (e : exn).
Arguments Ok {A} a.
Arguments Raise {A} e.

(** The value of a function that falls off its end. *)
Inductive NoneType := PyNone.

Definition truthy_None (v : NoneType) : bool := false.

(** [except (ValueError, KeyError)] *)
Definition is_ValueError_or_KeyError (e : exn) : bool :=
  match e with
  | KeyError _ | ValueError _ => true
  | _ => false
  end.

(** ** Module constants *)

Inductive loader :=
| load_sentence_transformers
| load_auto_model_for_text_classification
| load_auto_model_for_seq2seq.

Definition LOADER_MAP : list (string * loader) :=
  [ ("load_sentence_transformers", load_sentence_transformers);
    ("load_auto_model_for_text_classification", load_auto_model_for_text_classification);
    ("load_auto_model_for_seq2seq", load_auto_model_for_seq2seq) ].

Definition VALID_LOADER_FUNCTION : list string := LOADER_MAP.*1.

Definition VALID_METRICS : list string :=
  [ "semantic_similarity"; "sentiment"; "toxicity"; "factual_consistency" ].

Definition VALID_LANGUAGE : list string := [ "zh" ].

(** ** The heap of configuration nodes *)

Abbreviation loc := nat (only parsing).

(** attribute -> value *)
Abbreviation setting := (list (string * string)) (only parsing).

(** key -> child node *)
Abbreviation node := (list (string * nat)) (only parsing).

(** language -> metric -> attribute -> value, as a value *)
Abbreviation tree := (list (string * list (string * list (string * string)))) (only parsing).

Record heap := Heap {
  settings : list setting;   (* metric nodes *)
  langs : list node;         (* language nodes: metric -> metric node *)
  roots : list node          (* top-level configurations: language -> language node *)
}.

Definition get_setting (h : heap) (l : loc) : setting := default [] (settings h !! l).
Definition get_lang (h : heap) (l : loc) : node := default [] (langs h !! l).
Definition get_root (h : heap) (l : loc) : node := default [] (roots h !! l).

Definition put_setting (h : heap) (l : loc) (d : setting) : heap :=
  Heap (<[l := d]> (settings h)) (langs h) (roots h).
Definition put_lang (h : heap) (l : loc) (n : node) : heap :=
  Heap (settings h) (<[l := n]> (langs h)) (roots h).
Definition put_root (h : heap) (l : loc) (n : node) : heap :=
  Heap (settings h) (langs h) (<[l := n]> (roots h)).

Definition new_setting (h : heap) (d : setting) : heap * loc :=
  (Heap (settings h ++ [d]) (langs h) (roots h), length (settings h)).
Definition new_lang (h : heap) (n : node) : heap * loc :=
  (Heap (settings h) (langs h ++ [n]) (roots h), length (langs h)).
Definition new_root (h : heap) (n : node) : heap * loc :=
  (Heap (settings h) (langs h) (roots h ++ [n]), length (roots h)).

(** The value of a node: what a reader of the configuration sees. *)
Definition snap_lang (h : heap) (n : node) : list (string * setting) :=
  prod_map id (get_setting h) <$> n.
Definition snap_root (h : heap) (n : node) : tree :=
  prod_map id (λ l, snap_lang h (get_lang h l)) <$> n.
Definition snap (h : heap) (r : loc) : tree := snap_root h (get_root h r).

(** [deepcopy]: fresh nodes holding the same value. *)
Definition deepcopy_setting (h : heap) (l : loc) : heap * loc :=
  new_setting h (get_setting h l).

Fixpoint alloc_settings (h : heap) (items : list (string * setting)) : heap * node :=
  match items with
  | [] => (h, [])
  | (k, d) :: rest =>
      let '(h1, l) := new_setting h d in
      let '(h2, n) := alloc_settings h1 rest in
      (h2, (k, l) :: n)
  end.

Fixpoint alloc_langs (h : heap) (t : tree) : heap * node :=
  match t with
  | [] => (h, [])
  | (k, items) :: rest =>
      let '(h1, n) := alloc_settings h items in
      let '(h2, l) := new_lang h1 n in
      let '(h3, m) := alloc_langs h2 rest in
      (h3, (k, l) :: m)
  end.

Definition deepcopy (h : heap) (r : loc) : heap * loc :=
  let '(h1, n) := alloc_langs h (snap h r) in
  new_root h1 n.

(** [model_setting.pop(k, None)] on the node at [l]. *)
Definition pop (h : heap) (l : loc) (k : string) : option string * heap :=
  (Dict.get k (get_setting h l), put_setting h l (Dict.remove k (get_setting h l))).

(** ** The outside world *)

Inductive http_reply :=
| Response (status_code : Z)
| ConnectionFailed.

Record world := World {
  http_get : string → http_reply;          (* [requests.get(url, timeout=(1.0, 1.0))] *)
  loader_returns : loader → setting → bool (* does [loader( **kwargs )] return a model? *)
}.

Definition model_url (model_name : string) (revision : option string) : string :=
  match revision with
  | None => "https://huggingface.co/api/models/" +:+ model_name
  | Some r => "https://huggingface.co/api/models/" +:+ model_name +:+ "/revision/" +:+ r
  end.

Definition check_model_availability (w : world) (model_name : string)
    (revision : option string) : result bool :=
  match http_get w (model_url model_name revision) with
  | Response status_code => Ok (Z.eqb status_code 200)
  | ConnectionFailed => Raise RequestException
  end.

(** ** ModelManager *)

(** A loaded model is identified with the loader invocation that created
    it: its index in the log of invocations. *)
Abbreviation inst := nat (only parsing).

Record state := State {
  heap_of : heap;
  self_config : loc;                         (* [self.config] *)
  cache : list (string * string * inst);     (* [lru_cache] of [fetch_model], most recent first *)
  calls : list (loader * setting)            (* loader invocations so far *)
}.

Definition with_heap (s : state) (h : heap) : state :=
  State h (self_config s) (cache s) (calls s).
Definition with_config (s : state) (r : loc) : state :=
  State (heap_of s) r (cache s) (calls s).
Definition with_cache (s : state) (c : list (string * string * inst)) : state :=
  State (heap_of s) (self_config s) c (calls s).

Definition opt_str (o : option string) : string :=
  match o with Some s => s | None => "None" end.

(** One iteration of the inner loop of [validate_config], after the
    [continue] tests. *)
Definition validate_setting (w : world) (lang metric_name : string)
    (model_setting : loc) (h : heap) : result NoneType * heap :=
  if negb (Dict.mem "model_name" (get_setting h model_setting)) then
    (Raise (KeyError (lang +:+ " metrics " +:+ metric_name +:+ " need a model, but found None!")), h)
  else if negb (Dict.mem "loader_func" (get_setting h model_setting)) then
    (Raise (KeyError ("Metrics " +:+ metric_name +:+ " need a loader, but found None!")), h)
  else
    match pop h model_setting "model_name" with
    | (None, h1) => (Raise (KeyError "model_name"), h)
    | (Some model_name, h1) =>
        let '(revision, h2) := pop h1 model_setting "revision" in
        let '(loader_func, h3) := pop h2 model_setting "loader_func" in
        if negb (match loader_func with
                 | Some f => str_in f VALID_LOADER_FUNCTION
                 | None => false
                 end) then
          (Raise (ValueError "loader type should in dict_keys(['load_sentence_transformers', 'load_auto_model_for_text_classification', 'load_auto_model_for_seq2seq'])"), h3)
        else
          match check_model_availability w model_name revision with
          | Raise e => (Raise e, h3)
          | Ok false =>
              (Raise (ValueError ("Cannot find " +:+ model_name +:+ " with " +:+
                                  opt_str revision +:+ " and Huggingface Hub")), h3)
          | Ok true => (Ok PyNone, h3)
          end
    end.

Fixpoint validate_metrics (w : world) (metric lang : string) (items : node)
    (h : heap) : result NoneType * heap :=
  match items with
  | [] => (Ok PyNone, h)
  | (metric_name, model_setting) :: rest =>
      if negb (String.eqb metric "all") && negb (String.eqb metric_name metric) then
        validate_metrics w metric lang rest h
      else
        match validate_setting w lang metric_name model_setting h with
        | (Ok _, h') => validate_metrics w metric lang rest h'
        | (Raise e, h') => (Raise e, h')
        end
  end.

Fixpoint validate_langs (w : world) (language metric : string) (items : node)
    (h : heap) : result NoneType * heap :=
  match items with
  | [] => (Ok PyNone, h)
  | (lang, lang_setting) :: rest =>
      if negb (String.eqb language "all") && negb (String.eqb lang language) then
        validate_langs w language metric rest h
      else
        match validate_metrics w metric lang (get_lang h lang_setting) h with
        | (Ok _, h') => validate_langs w language metric rest h'
        | (Raise e, h') => (Raise e, h')
        end
  end.

Definition validate_config (w : world) (config : loc) (language metric : string)
    (h : heap) : result NoneType * heap :=
  let '(h1, config) := deepcopy h config in
  validate_langs w language metric (get_root h1 config) h1.

(** [if self.config.get(language) is None: self.config[language] = {}] *)
Definition ensure_language (h : heap) (config : loc) (language : string) : heap :=
  match Dict.get language (get_root h config) with
  | None =>
      let '(h', l) := new_lang h [] in
      put_root h' config (Dict.set language l (get_root h' config))
  | Some _ => h
  end.

(** [if self.config.get(language).get(metric) is None:
       self.config[language][metric] = {}] *)
Definition ensure_metric (h : heap) (lang_setting : loc) (metric : string) : heap :=
  match Dict.get metric (get_lang h lang_setting) with
  | None =>
      let '(h', l) := new_setting h [] in
      put_lang h' lang_setting (Dict.set metric l (get_lang h' lang_setting))
  | Some _ => h
  end.

(** [detail_config[k] = v] *)
Definition assign (h : heap) (detail_config : loc) (k v : string) : heap :=
  put_setting h detail_config (Dict.set k v (get_setting h detail_config)).

(** The assignments to [detail_config], from [# set metric attribute] to
    the validation. *)
Definition assign_attributes (h : heap) (detail_config : loc)
    (model_name loader_func : string) (kwargs : setting) : heap :=
  let h := assign h detail_config "loader_func" loader_func in
  let h := assign h detail_config "model_name" model_name in
  let tokenizer_name := Dict.get "tokenizer_name" kwargs in
  let h :=
    if truthy_str tokenizer_name then
      assign h detail_config "tokenizer_name" (opt_str tokenizer_name)
    else h in
  let revision := Dict.get "model_revision" kwargs in
  if truthy_str revision then
    assign h detail_config "revision" (opt_str revision)
  else h.

(** The body of the [try] in [__set_model_for_metric]. *)
Definition set_model_try (w : world) (language metric model_name loader_func : string)
    (kwargs : setting) (s : state) : result NoneType * state :=
  if negb (str_in language VALID_LANGUAGE) then
    (Raise (KeyError "Language {language} not supported yet"), s)
  else if negb (str_in metric VALID_METRICS) then
    (Raise (KeyError "Language {language} not supported {metric} yet"), s)
  else
    let h := ensure_language (heap_of s) (self_config s) language in
    match Dict.get language (get_root h (self_config s)) with
    | None =>
        (Raise (AttributeError "'NoneType' object has no attribute 'get'"), with_heap s h)
    | Some lang_setting =>
        let h := ensure_metric h lang_setting metric in
        match Dict.get metric (get_lang h lang_setting) with
        | None => (Raise (KeyError metric), with_heap s h)
        | Some detail_config =>
            let h := assign_attributes h detail_config model_name loader_func kwargs in
            match validate_config w (self_config s) language metric h with
            | (Raise e, h') => (Raise e, with_heap s h')
            | (Ok v, h') =>
                if truthy_None v then (Ok PyNone, with_cache (with_heap s h') [])
                else (Ok PyNone, with_heap s h')
            end
        end
    end.

Definition set_model_for_metric (w : world) (language metric model_name loader_func : string)
    (kwargs : setting) (s : state) : result NoneType * state :=
  let '(h0, config_copy) := deepcopy (heap_of s) (self_config s) in
  match set_model_try w language metric model_name loader_func kwargs (with_heap s h0) with
  | (Ok v, s') => (Ok v, s')
  | (Raise err, s') =>
      if is_ValueError_or_KeyError err then (Raise err, with_config s' config_copy)
      else (Raise err, s')
  end.

(** The keyword arguments that end up in [**kwargs]. *)
Definition kwargs_of (metric_conf : setting) : setting :=
  Dict.remove "loader_func" (Dict.remove "model_name" metric_conf).

(** The call in [__load_config]:
    [self.__set_model_for_metric(language=lang, metric=metric_name, **metric_conf)]. *)
Definition call_set_model_for_metric (w : world) (language metric : string)
    (metric_conf : setting) (s : state) : result NoneType * state :=
  if Dict.mem "self" metric_conf || Dict.mem "language" metric_conf
     || Dict.mem "metric" metric_conf then
    (Raise (TypeError "got multiple values for argument"), s)
  else
    match Dict.get "model_name" metric_conf, Dict.get "loader_func" metric_conf with
    | Some model_name, Some loader_func =>
        set_model_for_metric w language metric model_name loader_func
          (kwargs_of metric_conf) s
    | _, _ => (Raise (TypeError "missing required positional argument"), s)
    end.

Fixpoint load_metrics (w : world) (lang : string) (lang_conf : list (string * setting))
    (s : state) : result NoneType * state :=
  match lang_conf with
  | [] => (Ok PyNone, s)
  | (metric_name, metric_conf) :: rest =>
      match call_set_model_for_metric w lang metric_name metric_conf s with
      | (Ok _, s') => load_metrics w lang rest s'
      | (Raise e, s') => (Raise e, s')
      end
  end.

Fixpoint load_config (w : world) (conf : tree) (s : state) : result NoneType * state :=
  match conf with
  | [] => (Ok PyNone, s)
  | (lang, lang_conf) :: rest =>
      match load_metrics w lang lang_conf s with
      | (Ok _, s') => load_config w rest s'
      | (Raise e, s') => (Raise e, s')
      end
  end.

(** [self.config = OmegaConf.create()], nothing memoised, nothing loaded. *)
Definition init_state : state := State (Heap [] [] [[]]) 0 [] [].

(** [__init__], with the parsed [metric_config.yaml] as [conf]. *)
Definition init (w : world) (conf : tree) : result NoneType * state :=
  load_config w conf init_state.

(** The undecorated [fetch_model]. *)
Definition fetch_model_wrapped (w : world) (language metric : string)
    (s : state) : result inst * state :=
  let h := heap_of s in
  match Dict.get language (get_root h (self_config s)) with
  | Some lang_setting =>
      match Dict.get metric (get_lang h lang_setting) with
      | Some metric_setting =>
          let '(h1, config) := deepcopy_setting h metric_setting in
          match pop h1 config "loader_func" with
          | (None, _) => (Raise (KeyError "loader_func"), with_heap s h1)
          | (Some loader_func, h2) =>
              match Dict.get loader_func LOADER_MAP with
              | None => (Raise (KeyError loader_func), with_heap s h2)
              | Some loader =>
                  let kwargs := get_setting h2 config in
                  let s' := State h2 (self_config s) (cache s) (calls s ++ [(loader, kwargs)]) in
                  if loader_returns w loader kwargs then (Ok (length (calls s)), s')
                  else (Raise LoaderError, s')
              end
          end
      | None => (Raise (KeyError ("Metric " +:+ metric +:+ " not supported yet.")), s)
      end
  | None => (Raise (KeyError ("Language " +:+ language +:+ " not supported yet")), s)
  end.

(** [functools.lru_cache] with its default [maxsize]. *)
Definition maxsize : nat := 128.

Definition key_eqb (k k' : string * string) : bool :=
  String.eqb k.1 k'.1 && String.eqb k.2 k'.2.

Fixpoint cache_get (k : string * string) (c : list (string * string * inst)) : option inst :=
  match c with
  | [] => None
  | (k', m) :: c' => if key_eqb k k' then Some m else cache_get k c'
  end.

Fixpoint cache_del (k : string * string) (c : list (string * string * inst))
    : list (string * string * inst) :=
  match c with
  | [] => []
  | (k', m) :: c' => if key_eqb k k' then c' else (k', m) :: cache_del k c'
  end.

(** [fetch_model] as callers see it: [@lru_cache] around the method.  The
    memo is keyed by the arguments of the call; one manager is modelled,
    and callers pass [language] and [metric] the same way at every call. *)
Definition fetch_model (w : world) (language metric : string)
    (s : state) : result inst * state :=
  match cache_get (language, metric) (cache s) with
  | Some m =>
      (Ok m, with_cache s ((language, metric, m) :: cache_del (language, metric) (cache s)))
  | None =>
      match fetch_model_wrapped w language metric s with
      | (Ok m, s') => (Ok m, with_cache s' (take maxsize ((language, metric, m) :: cache s')))
      | (Raise e, s') => (Raise e, s')
      end
  end.

(** ** Histories of a manager *)

Inductive op :=
| OpSet (language metric : string) (metric_conf : setting)
| OpFetch (language metric : string)
| OpValidate (language metric : string).   (* [ModelManager.validate_config(self.config, ..)] *)

Definition run_op (w : world) (o : op) (s : state) : state :=
  match o with
  | OpSet language metric metric_conf =>
      (call_set_model_for_metric w language metric metric_conf s).2
  | OpFetch language metric => (fetch_model w language metric s).2
  | OpValidate language metric =>
      with_heap s (validate_config w (self_config s) language metric (heap_of s)).2
  end.

(** Every state a manager can be in, whatever the world answers and
    whether or not the operations raise. *)
Inductive reachable : state → Prop :=
| reachable_init : reachable init_state
| reachable_step w o s : reachable s → reachable (run_op w o s).

(** Every configuration record of a history, as a reader sees it. *)
Definition config_of (s : state) : tree := snap (heap_of s) (self_config s).

(** ** to_full_width *)

(** A Python [str] is a sequence of Unicode code points. *)
Abbreviation char := N (only parsing).
Abbreviation str := (list N) (only parsing).

(** [instances: list[str] | str] *)
Inductive instances_arg :=
| Str (s : str)
| StrList (l : list str).

(** The loops of [to_full_width].  [h2z] is
    [jaconv.h2z(_, kana=False, ascii=True, digit=True)]; [rnd] is the sequence
    of values [random.random()] returns and [k] counts the draws made. *)
Fixpoint perturb_chars (h2z : str → str) (rnd : nat → Q) (aug_char_p : Q)
    (instance : str) (perturbed_instance : str) (k : nat) : str * nat :=
  match instance with
  | [] => (perturbed_instance, k)
  | c :: rest =>
      if negb (Qle_bool (rnd k) aug_char_p) then
        perturb_chars h2z rnd aug_char_p rest (perturbed_instance ++ [c]) (S k)
      else
        perturb_chars h2z rnd aug_char_p rest (perturbed_instance ++ h2z [c]) (S k)
  end.

Fixpoint perturb_range (h2z : str → str) (rnd : nat → Q) (aug_char_p : Q)
    (n : nat) (instance : str) (perturbed_instances : list str) (k : nat)
    : list str * nat :=
  match n with
  | O => (perturbed_instances, k)
  | S n' =>
      let '(perturbed_instance, k1) := perturb_chars h2z rnd aug_char_p instance [] k in
      perturb_range h2z rnd aug_char_p n' instance
        (perturbed_instances ++ [perturbed_instance]) k1
  end.

Fixpoint perturb_instances (h2z : str → str) (rnd : nat → Q) (aug_char_p : Q)
    (num_perturbations : Z) (instances : list str) (perturbed_instances : list str)
    (k : nat) : list str * nat :=
  match instances with
  | [] => (perturbed_instances, k)
  | instance :: rest =>
      let '(out, k1) :=
        perturb_range h2z rnd aug_char_p (Z.to_nat num_perturbations) instance
          perturbed_instances k in
      perturb_instances h2z rnd aug_char_p num_perturbations rest out k1
  end.

Definition to_full_width (h2z : str → str) (rnd : nat → Q) (instances : instances_arg)
    (aug_char_p : Q) (num_perturbations : Z) (k : nat) : list str * nat :=
  let instances := match instances with Str s => [s] | StrList l => l end in
  perturb_instances h2z rnd aug_char_p num_perturbations instances [] k.

(** The number of input strings, a single string counting as one. *)
Definition count_instances (instances : instances_arg) : nat :=
  match instances with Str _ => 1 | StrList l => length l end.

Definition instance_list (instances : instances_arg) : list str :=
  match instances with Str s => [s] | StrList l => l end.

(** A stand-in for the half-width to full-width table, for examples:
    U+0021..U+007E move to U+FF01..U+FF5E, the space to U+3000. *)
Definition h2z_example (s : str) : str :=
  (λ c : N, if (c =? 32)%N then 12288%N
            else if (33 <=? c)%N && (c <=? 126)%N then (c + 65248)%N
            else c) <$> s.

(** ** Detoxify ([metrics/en/_detoxify.py]) *)

(** [change_names] of [load_checkpoint]. *)
Definition change_names : list (string * string) :=
  [ ("toxic", "toxicity");
    ("identity_hate", "identity_attack");
    ("severe_toxic", "severe_toxicity") ].

(** [[change_names.get(cl, cl) for cl in class_names]] *)
Definition rename_classes (class_names : list string) : list string :=
  (λ cl, default cl (Dict.get cl change_names)) <$> class_names.

(** The value [predict] stores for a class: one score when [text] is a
    string, one score per example otherwise. *)
Inductive class_scores (V : Type) :=
| Score (v : V)
| Scores (vs : list V).
Arguments Score {V} v.
Arguments Scores {V} vs.

(** [[scores[ex_i][i].tolist() for ex_i in range(len(scores))]]; an index
    out of range is an [IndexError], here [None]. *)
Definition column {V} (scores : list (list V)) (i : nat) : option (list V) :=
  mapM (λ row : list V, row !! i) scores.

(** [scores[0][i] if isinstance(text, str) else [...]] *)
Definition class_result {V} (text_is_str : bool) (scores : list (list V)) (i : nat)
    : option (class_scores V) :=
  if text_is_str then Score <$> (scores !! 0 ≫= λ row : list V, row !! i)
  else Scores <$> column scores i.

(** The loop of [Detoxify.predict] over [enumerate(self.class_names)],
    from index [i] on.  [scores] is what the model returned for [text],
    one row per example and one column per class. *)
Fixpoint predict_loop {V} (text_is_str : bool) (scores : list (list V)) (i : nat)
    (class_names : list string) (results : list (string * class_scores V))
    : option (list (string * class_scores V)) :=
  match class_names with
  | [] => Some results
  | cla :: rest =>
      match class_result text_is_str scores i with
      | None => None
      | Some v => predict_loop text_is_str scores (S i) rest (Dict.set cla v results)
      end
  end.

Definition predict {V} (text_is_str : bool) (class_names : list string)
    (scores : list (list V)) : option (list (string * class_scores V)) :=
  predict_loop text_is_str scores 0 class_names [].

(** ** Predicates of the specification *)

(** The growth of a heap by allocation: every older node is still there
    with the same content. *)
Definition heap_le (h h' : heap) : Prop :=
  settings h `prefix_of` settings h' ∧
  langs h `prefix_of` langs h' ∧
  roots h `prefix_of` roots h'.

(** No dangling reference. *)
Definition wf_heap (h : heap) : Prop :=
  Forall (Forall (λ kl : string * loc, kl.2 < length (langs h))) (roots h) ∧
  Forall (Forall (λ kl : string * loc, kl.2 < length (settings h))) (langs h).

Definition wf_state (s : state) : Prop :=
  wf_heap (heap_of s) ∧ self_config s < length (roots (heap_of s)).

(** The metric nodes below a list of language references, in order. *)
Definition all_srefs (h : heap) (n : node) : list loc :=
  n ≫= (λ kl, (get_lang h kl.2).*2).

(** The [continue] tests of [validate_config], positively. *)
Definition wanted (filter name : string) : bool :=
  String.eqb filter "all" || String.eqb name filter.

(** The entries the language and metric filters select, in iteration order. *)
Definition selected_metrics (metric lang : string) (ms : list (string * setting))
    : list (string * string * setting) :=
  ms ≫= (λ y, if wanted metric y.1 then [(lang, y.1, y.2)] else []).

Definition selected (language metric : string) (t : tree)
    : list (string * string * setting) :=
  t ≫= (λ x, if wanted language x.1 then selected_metrics metric x.1 x.2 else []).

Definition lacks_model_name (st : setting) : Prop :=
  Dict.get "model_name" st = None.
Definition lacks_loader_func (st : setting) : Prop :=
  Dict.get "loader_func" st = None.
Definition unregistered_loader (st : setting) : Prop :=
  ∃ f, Dict.get "loader_func" st = Some f ∧ f ∉ VALID_LOADER_FUNCTION.
Definition unresolved (w : world) (st : setting) : Prop :=
  ∃ m, Dict.get "model_name" st = Some m ∧
       check_model_availability w m (Dict.get "revision" st) ≠ Ok true.

(** An entry breaks one of the four conditions of a configuration entry. *)
Definition violates (w : world) (st : setting) : Prop :=
  lacks_model_name st ∨ lacks_loader_func st ∨ unregistered_loader st ∨ unresolved w st.

(** The error reported for an entry, the conditions taken in the order
    above; [None] when the entry meets all four. *)
Definition entry_error (w : world) (x : string * string * setting) : option exn :=
  let '(lang, metric_name, st) := x in
  match Dict.get "model_name" st with
  | None =>
      Some (KeyError (lang +:+ " metrics " +:+ metric_name +:+ " need a model, but found None!"))
  | Some model_name =>
      match Dict.get "loader_func" st with
      | None => Some (KeyError ("Metrics " +:+ metric_name +:+ " need a loader, but found None!"))
      | Some f =>
          if negb (str_in f VALID_LOADER_FUNCTION) then
            Some (ValueError "loader type should in dict_keys(['load_sentence_transformers', 'load_auto_model_for_text_classification', 'load_auto_model_for_seq2seq'])")
          else
            match check_model_availability w model_name (Dict.get "revision" st) with
            | Raise e => Some e
            | Ok false =>
                Some (ValueError ("Cannot find " +:+ model_name +:+ " with " +:+
                                  opt_str (Dict.get "revision" st) +:+ " and Huggingface Hub"))
            | Ok true => None
            end
      end
  end.

(** The error of the first entry that has one. *)
Definition first_error (w : world) (xs : list (string * string * setting)) : option exn :=
  head (omap (entry_error w) xs).

Definition result_of (o : option exn) : result NoneType :=
  match o with Some e => Raise e | None => Ok PyNone end.

(** [h'] differs from [h] at most in the content of the metric nodes [S]. *)
Definition same_but (S : list loc) (h h' : heap) : Prop :=
  langs h' = langs h ∧ roots h' = roots h ∧
  length (settings h') = length (settings h) ∧
  ∀ i, i ∉ S → settings h' !! i = settings h !! i.

(** The invariant of a configuration entry that does not depend on the hub. *)
Definition entry_ok (st : setting) : Prop :=
  is_Some (Dict.get "model_name" st) ∧
  ∃ f, Dict.get "loader_func" st = Some f ∧ f ∈ VALID_LOADER_FUNCTION.

Definition entries_ok (t : tree) : Prop :=
  Forall (λ x : string * list (string * setting),
            Forall (λ y : string * setting, entry_ok y.2) x.2) t.

(** [language in config and metric in config[language]] *)
Definition present (t : tree) (language metric : string) : Prop :=
  ∃ ms, Dict.get language t = Some ms ∧ is_Some (Dict.get metric ms).

(** The entry of a key, when there is one. *)
Definition entry_of (t : tree) (language metric : string) : option setting :=
  Dict.get language t ≫= Dict.get metric.

(** What the setter leaves in the entry of its key: the attributes it
    assigns, over whatever the entry held before. *)
Definition updated_entry (old : setting) (model_name loader_func : string)
    (kwargs : setting) : setting :=
  let d := Dict.set "model_name" model_name (Dict.set "loader_func" loader_func old) in
  let d :=
    if truthy_str (Dict.get "tokenizer_name" kwargs) then
      Dict.set "tokenizer_name" (opt_str (Dict.get "tokenizer_name" kwargs)) d
    else d in
  if truthy_str (Dict.get "model_revision" kwargs) then
    Dict.set "revision" (opt_str (Dict.get "model_revision" kwargs)) d
  else d.

(** How the heap [h3] after the assignments of the setter relates to the
    heap [h] before them: [lref] and [sref] are the language and metric
    nodes of the key, found or created. *)
Definition edited (h : heap) (cfg : loc) (language metric : string)
    (h3 : heap) (lref sref : loc) : Prop :=
  Dict.get language (get_root h3 cfg) = Some lref ∧
  Dict.get metric (get_lang h3 lref) = Some sref ∧
  wf_heap h3 ∧ length (roots h3) = length (roots h) ∧
  (∀ i, i ≠ cfg → roots h3 !! i = roots h !! i) ∧
  (∀ i, i < length (langs h) → i ≠ lref → langs h3 !! i = langs h !! i) ∧
  (∀ i, i < length (settings h) → i ≠ sref → settings h3 !! i = settings h !! i) ∧
  (get_root h3 cfg = get_root h cfg ∧ lref < length (langs h) ∨
   get_root h3 cfg = Dict.set language lref (get_root h cfg) ∧
   Dict.get language (get_root h cfg) = None ∧ lref = length (langs h)) ∧
  (get_lang h3 lref = get_lang h lref ∧ sref < length (settings h) ∨
   get_lang h3 lref = Dict.set metric sref (get_lang h lref) ∧
   Dict.get metric (get_lang h lref) = None ∧ sref = length (settings h)).

(** The reasons for which the setter rejects a call: an unsupported
    language or metric, a missing required field, an unsupported loader
    function, or a model and revision the hub answers for with a status
    other than 200. *)
Definition set_rejected (w : world) (s : state) (language metric : string)
    (metric_conf : setting) : Prop :=
  language ∉ VALID_LANGUAGE ∨ metric ∉ VALID_METRICS ∨
  Dict.get "model_name" metric_conf = None ∨
  Dict.get "loader_func" metric_conf = None ∨
  (∃ f, Dict.get "loader_func" metric_conf = Some f ∧ f ∉ VALID_LOADER_FUNCTION) ∨
  (∃ mn lf code,
     Dict.get "model_name" metric_conf = Some mn ∧
     Dict.get "loader_func" metric_conf = Some lf ∧
     http_get w (model_url mn
       (Dict.get "revision"
          (updated_entry (default [] (entry_of (config_of s) language metric))
             mn lf (kwargs_of metric_conf))))
     = Response code ∧ code ≠ 200%Z).

(** The dispatch of [fetch_model] read for every call: each call that
    returns has run the loader its entry names, on the rest of the entry. *)
Definition every_fetch_dispatches : Prop :=
  ∀ w language metric s m s',
    fetch_model w language metric s = (Ok m, s') →
    ∃ entry loader_func ld,
      entry_of (config_of s) language metric = Some entry ∧
      Dict.get "loader_func" entry = Some loader_func ∧
      Dict.get loader_func LOADER_MAP = Some ld ∧
      calls s' = calls s ++ [(ld, Dict.remove "loader_func" entry)] ∧
      m = length (calls s).

(** Worlds and states for the examples. *)
Definition hub_up : world := World (λ _, Response 200) (λ _ _, true).
Definition hub_404 : world := World (λ _, Response 404) (λ _ _, true).
Definition hub_down : world := World (λ _, ConnectionFailed) (λ _ _, true).

Definition conf_seq2seq : setting :=
  [("model_name", "Helsinki-NLP/opus-mt-zh-en"); ("loader_func", "load_auto_model_for_seq2seq")].
Definition conf_embed : setting :=
  [("model_name", "BAAI/bge-base-zh-v1.5"); ("loader_func", "load_sentence_transformers");
   ("model_revision", "f03589c")].
Definition conf_bad_loader : setting :=
  [("model_name", "BAAI/bge-base-zh-v1.5"); ("loader_func", "load_pickle")].

(** A manager with one entry, then with its model loaded. *)
Definition s_set : state :=
  (call_set_model_for_metric hub_up "zh" "toxicity" conf_seq2seq init_state).2.
Definition s_loaded : state := (fetch_model hub_up "zh" "toxicity" s_set).2.

(** The same manager after its entry has been set again, to another
    model with another loader. *)
Definition s_reset : state :=
  (call_set_model_for_metric hub_up "zh" "toxicity" conf_embed s_loaded).2.

(** Every memoised key is a key of the configuration. *)
Definition cache_in_config (s : state) : Prop :=
  ∀ language metric m,
    (language, metric, m) ∈ cache s → present (config_of s) language metric.

(** The invariant of the states of a manager. *)
Definition inv (s : state) : Prop :=
  wf_state s ∧ entries_ok (config_of s) ∧ cache_in_config s.

(** ** The configuration as a value: more predicates *)

(** [t[language][metric] = entry] on a configuration value, the language
    and the metric added last when they are new. *)
Definition tree_set (language metric : string) (entry : setting) (t : tree) : tree :=
  Dict.set language (Dict.set metric entry (default [] (Dict.get language t))) t.

(** No node of the configuration is reached twice from its root. *)
Definition unshared (h : heap) (cfg : loc) : Prop :=
  NoDup (get_root h cfg).*2 ∧ NoDup (all_srefs h (get_root h cfg)).

(** Every key is a supported language with supported metrics. *)
Definition keys_supported (t : tree) : Prop :=
  Forall (λ x : string * list (string * setting),
            x.1 ∈ VALID_LANGUAGE ∧
            Forall (λ y : string * setting, y.1 ∈ VALID_METRICS) x.2) t.

(** No key occurs twice. *)
Definition keys_unique (t : tree) : Prop :=
  NoDup t.*1 ∧
  Forall (λ x : string * list (string * setting), NoDup x.2.*1) t.

(** More of the invariant of the states of a manager. *)
Definition inv_tree (s : state) : Prop :=
  unshared (heap_of s) (self_config s) ∧
  keys_supported (config_of s) ∧ keys_unique (config_of s) ∧
  NoDup (cache s).*1.

(** [except (ValueError, KeyError)]: the results the setter catches and
    rolls back. *)
Definition caught (r : result NoneType) : bool :=
  match r with
  | Raise e => is_ValueError_or_KeyError e
  | Ok _ => false
  end.

(** One output of [to_full_width] against its input: every character is
    either kept or replaced by what [h2z] makes of it. *)
Definition char_perturbation (h2z : str → str) (s p : str) : Prop :=
  ∃ pieces : list str,
    Forall2 (λ (c : N) (piece : str), piece = [c] ∨ piece = h2z [c]) s pieces ∧
    p = concat pieces.

(** ** Tactics *)

(** Inclusions between lists built with [::] and [++]. *)
Local Ltac list_sub :=
  let x := fresh "x" in
  let H := fresh "H" in
  intros x H; rewrite ?fmap_cons in *; cbn [snd] in *;
  rewrite ?elem_of_cons, ?elem_of_app, ?elem_of_nil in *; tauto.

(** * Properties *)

(** ** Dictionaries *)

Module DictFacts.

Lemma get_set_eq {V} k (v : V) d : Dict.get k (Dict.set k v d) = Some v.
Proof.
  induction d as [|[k' v'] d IH]; simpl.
  - by rewrite String.eqb_refl.
  - destruct (String.eqb k k') eqn:E; simpl; rewrite ?String.eqb_refl, ?E; done.
Qed.

Lemma get_set_ne {V} k k' (v : V) d :
  k ≠ k' → Dict.get k' (Dict.set k v d) = Dict.get k' d.
Proof.
  intros Hne. induction d as [|[k0 v0] d IH]; simpl.
  - destruct (String.eqb_spec k' k); congruence.
  - destruct (String.eqb_spec k k0) as [->|]; simpl;
      destruct (String.eqb_spec k' k0); congruence.
Qed.

Lemma get_remove_ne {V} k k' (d : list (string * V)) :
  k ≠ k' → Dict.get k' (Dict.remove k d) = Dict.get k' d.
Proof.
  intros Hne. induction d as [|[k0 v0] d IH]; simpl; [done|].
  destruct (String.eqb_spec k k0) as [->|]; simpl;
    destruct (String.eqb_spec k' k0); congruence.
Qed.

Lemma get_elem_of {V} k (v : V) d : Dict.get k d = Some v → (k, v) ∈ d.
Proof.
  induction d as [|[k0 v0] d IH]; simpl; [done|].
  destruct (String.eqb_spec k k0) as [->|].
  - intros [= ->]. left.
  - intros H. right. auto.
Qed.

Lemma elem_of_set {V} k (v : V) x d :
  x ∈ Dict.set k v d → x = (k, v) ∨ x ∈ d.
Proof.
  induction d as [|[k0 v0] d IH]; simpl.
  - intros ->%list_elem_of_singleton. by left.
  - destruct (String.eqb_spec k k0) as [->|].
    + intros [->|H]%elem_of_cons; [by left|]. right. by right.
    + intros [->|H]%elem_of_cons; [right; left|].
      destruct (IH H) as [->|]; [by left|]. right. by right.
Qed.

(** Assigning to a key never removes another binding. *)
Lemma elem_of_set_old {V} k (v : V) x d :
  x ∈ d → x.1 ≠ k → x ∈ Dict.set k v d.
Proof.
  induction d as [|[k0 v0] d IH]; simpl; [by intros ?%elem_of_nil|].
  intros [->|H]%elem_of_cons Hne.
  - simpl in Hne. destruct (String.eqb_spec k k0); [congruence|left].
  - destruct (String.eqb_spec k k0); right; auto.
Qed.

Lemma get_fmap {V W} (f : V → W) k d :
  Dict.get k (prod_map id f <$> d) = f <$> Dict.get k d.
Proof.
  induction d as [|[k0 v0] d IH]; simpl; [done|].
  by destruct (String.eqb k k0).
Qed.

Lemma mem_true {V} k (d : list (string * V)) :
  Dict.mem k d = true ↔ is_Some (Dict.get k d).
Proof.
  unfold Dict.mem. destruct (Dict.get k d); split; intros H; try done;
    by destruct H.
Qed.

Lemma mem_false {V} k (d : list (string * V)) :
  Dict.mem k d = false ↔ Dict.get k d = None.
Proof. unfold Dict.mem. by destruct (Dict.get k d). Qed.

End DictFacts.

Lemma str_in_true x xs : str_in x xs = true ↔ x ∈ xs.
Proof. unfold str_in. by rewrite bool_decide_eq_true. Qed.

Lemma str_in_false x xs : str_in x xs = false ↔ x ∉ xs.
Proof. unfold str_in. by rewrite bool_decide_eq_false. Qed.

(** ** The heap *)

Lemma prefix_of_lookup {A} (l l' : list A) :
  (∀ i x, l !! i = Some x → l' !! i = Some x) → l `prefix_of` l'.
Proof.
  revert l'. induction l as [|a l IH]; intros l' H.
  - apply prefix_nil.
  - destruct l' as [|a' l']; [by specialize (H 0 a eq_refl)|].
    pose proof (H 0 a eq_refl) as [= ->].
    apply prefix_cons, IH. intros i x Hi. exact (H (S i) x Hi).
Qed.

Lemma heap_le_refl h : heap_le h h.
Proof. by repeat split. Qed.

Lemma heap_le_trans h1 h2 h3 : heap_le h1 h2 → heap_le h2 h3 → heap_le h1 h3.
Proof.
  intros (?&?&?) (?&?&?). repeat split; by etrans.
Qed.

Lemma new_setting_le h d : heap_le h (new_setting h d).1.
Proof. repeat split; simpl; try done. by apply prefix_app_r. Qed.

Lemma new_lang_le h n : heap_le h (new_lang h n).1.
Proof. repeat split; simpl; try done. by apply prefix_app_r. Qed.

Lemma new_root_le h n : heap_le h (new_root h n).1.
Proof. repeat split; simpl; try done. by apply prefix_app_r. Qed.

Lemma prefix_get {A} (l l' : list (list A)) i :
  l `prefix_of` l' → i < length l → default [] (l' !! i) = default [] (l !! i).
Proof.
  intros Hp Hi. destruct (lookup_lt_is_Some_2 l i Hi) as [x Hx].
  by rewrite (prefix_lookup_Some _ _ _ _ Hx Hp), Hx.
Qed.

Lemma get_setting_le h h' l :
  heap_le h h' → l < length (settings h) → get_setting h' l = get_setting h l.
Proof. intros (?&?&?) ?. by apply prefix_get. Qed.

Lemma get_lang_le h h' l :
  heap_le h h' → l < length (langs h) → get_lang h' l = get_lang h l.
Proof. intros (?&?&?) ?. by apply prefix_get. Qed.

Lemma get_root_le h h' l :
  heap_le h h' → l < length (roots h) → get_root h' l = get_root h l.
Proof. intros (?&?&?) ?. by apply prefix_get. Qed.

Lemma get_setting_lookup h l d : settings h !! l = Some d → get_setting h l = d.
Proof. unfold get_setting. by intros ->. Qed.

Lemma get_lang_lookup h l n : langs h !! l = Some n → get_lang h l = n.
Proof. unfold get_lang. by intros ->. Qed.

Lemma get_root_lookup h l n : roots h !! l = Some n → get_root h l = n.
Proof. unfold get_root. by intros ->. Qed.

Lemma get_setting_put h l d :
  l < length (settings h) → get_setting (put_setting h l d) l = d.
Proof.
  intros Hl. unfold get_setting, put_setting. simpl.
  by rewrite list_lookup_insert_eq.
Qed.

Lemma get_setting_put_ne h l l' d :
  l ≠ l' → get_setting (put_setting h l d) l' = get_setting h l'.
Proof.
  intros Hl. unfold get_setting, put_setting. simpl.
  by rewrite list_lookup_insert_ne.
Qed.

Lemma get_setting_in_range h l k v :
  Dict.get k (get_setting h l) = Some v → l < length (settings h).
Proof.
  unfold get_setting. intros H.
  destruct (settings h !! l) eqn:E; [by eapply lookup_lt_Some|done].
Qed.

(** What a reader sees depends only on the nodes below the root. *)
Lemma snap_lang_agree h h' (n : node) :
  (∀ l, l ∈ n.*2 → get_setting h' l = get_setting h l) →
  snap_lang h' n = snap_lang h n.
Proof.
  intros H. unfold snap_lang. apply Forall_fmap_ext_1, Forall_forall.
  intros [k l] Hin. unfold prod_map. simpl. f_equal. apply H.
  apply list_elem_of_fmap. by exists (k, l).
Qed.

Lemma elem_of_all_srefs h (n : node) l s :
  l ∈ n.*2 → s ∈ (get_lang h l).*2 → s ∈ all_srefs h n.
Proof.
  intros (kl & -> & Hkl)%list_elem_of_fmap Hs.
  apply list_elem_of_bind. by exists kl.
Qed.

Lemma snap_root_agree h h' (n : node) :
  (∀ l, l ∈ n.*2 → get_lang h' l = get_lang h l) →
  (∀ s, s ∈ all_srefs h n → get_setting h' s = get_setting h s) →
  snap_root h' n = snap_root h n.
Proof.
  intros HL HS. unfold snap_root. apply Forall_fmap_ext_1, Forall_forall.
  intros [k l] Hin. unfold prod_map. simpl. f_equal.
  assert (l ∈ n.*2) as Hl by (apply list_elem_of_fmap; by exists (k, l)).
  rewrite (HL l Hl). apply snap_lang_agree. intros s Hs.
  apply HS. by eapply elem_of_all_srefs.
Qed.

Lemma snap_agree h h' r r' :
  get_root h' r' = get_root h r →
  (∀ l, l ∈ (get_root h r).*2 → get_lang h' l = get_lang h l) →
  (∀ s, s ∈ all_srefs h (get_root h r) → get_setting h' s = get_setting h s) →
  snap h' r' = snap h r.
Proof.
  intros HR HL HS. unfold snap. rewrite HR. by apply snap_root_agree.
Qed.

Lemma wf_root_refs h r l :
  wf_heap h → l ∈ (get_root h r).*2 → l < length (langs h).
Proof.
  intros [Hr _] (kl & -> & Hkl)%list_elem_of_fmap. unfold get_root in Hkl.
  destruct (roots h !! r) as [n|] eqn:E; simpl in Hkl; [|by apply elem_of_nil in Hkl].
  rewrite Forall_forall in Hr. specialize (Hr n (list_elem_of_lookup_2 _ _ _ E)).
  rewrite Forall_forall in Hr. by apply Hr.
Qed.

Lemma wf_lang_refs h l s :
  wf_heap h → s ∈ (get_lang h l).*2 → s < length (settings h).
Proof.
  intros [_ Hl] (kl & -> & Hkl)%list_elem_of_fmap. unfold get_lang in Hkl.
  destruct (langs h !! l) as [n|] eqn:E; simpl in Hkl; [|by apply elem_of_nil in Hkl].
  rewrite Forall_forall in Hl. specialize (Hl n (list_elem_of_lookup_2 _ _ _ E)).
  rewrite Forall_forall in Hl. by apply Hl.
Qed.

Lemma wf_all_srefs h n s :
  wf_heap h → s ∈ all_srefs h n → s < length (settings h).
Proof.
  intros Hwf (kl & Hs & _)%list_elem_of_bind. by eapply wf_lang_refs.
Qed.

(** Allocation does not change what a reader of an older root sees. *)
Lemma snap_le h h' r :
  wf_heap h → r < length (roots h) → heap_le h h' → snap h' r = snap h r.
Proof.
  intros Hwf Hr Hle. apply snap_agree.
  - by apply get_root_le.
  - intros l Hl. apply get_lang_le; [done|]. by eapply wf_root_refs.
  - intros s Hs. apply get_setting_le; [done|]. by eapply wf_all_srefs.
Qed.

(** ** deepcopy *)

Lemma alloc_settings_spec items : ∀ h h' n,
  alloc_settings h items = (h', n) →
  settings h' = settings h ++ items.*2 ∧ langs h' = langs h ∧ roots h' = roots h ∧
  n.*2 = seq (length (settings h)) (length items) ∧
  (∀ h'', settings h' `prefix_of` settings h'' → snap_lang h'' n = items).
Proof.
  induction items as [|[k d] rest IH]; intros h h' n; simpl.
  - intros [= <- <-]. rewrite app_nil_r. by repeat split.
  - destruct (alloc_settings _ rest) as [h2 n2] eqn:E. intros [= <- <-].
    destruct (IH _ _ _ E) as (HS & HL & HR & Hn & Hsnap). simpl in *.
    rewrite HS, HL, HR, <- app_assoc. repeat split; try done.
    + f_equal. etrans; [exact Hn|]. rewrite length_app. simpl. f_equal. lia.
    + intros h'' Hp. unfold snap_lang. simpl. f_equal.
      * unfold prod_map. simpl. f_equal. apply get_setting_lookup.
        eapply prefix_lookup_Some; [|exact Hp]. by apply list_lookup_middle.
      * apply Hsnap. by rewrite HS, <- app_assoc.
Qed.

Lemma alloc_settings_wf items h h' n :
  alloc_settings h items = (h', n) → wf_heap h → wf_heap h'.
Proof.
  intros E [Hr Hl]. destruct (alloc_settings_spec _ _ _ _ E) as (HS & HL & HR & _).
  split; rewrite ?HL, ?HR, ?HS; [done|].
  eapply Forall_impl; [exact Hl|]. intros n0 Hn0.
  eapply Forall_impl; [exact Hn0|]. intros kl. simpl. rewrite length_app. lia.
Qed.

Lemma seq_bound_Forall (n : node) a len b :
  n.*2 = seq a len → a + len ≤ b → Forall (λ kl : string * loc, kl.2 < b) n.
Proof.
  intros Hn Hb. apply Forall_forall. intros kl Hkl.
  assert (kl.2 ∈ seq a len) as Hin.
  { rewrite <- Hn. apply list_elem_of_fmap. by exists kl. }
  apply elem_of_seq in Hin. lia.
Qed.

Lemma alloc_langs_spec t : ∀ h h' n,
  alloc_langs h t = (h', n) →
  settings h `prefix_of` settings h' ∧
  langs h `prefix_of` langs h' ∧ length (langs h') = length (langs h) + length t ∧
  roots h' = roots h ∧
  n.*2 = seq (length (langs h)) (length t) ∧
  (∀ h'', heap_le h' h'' → snap_root h'' n = t) ∧
  (∀ h'', langs h' `prefix_of` langs h'' →
     all_srefs h'' n
     = seq (length (settings h)) (length (settings h') - length (settings h))) ∧
  (wf_heap h → wf_heap h').
Proof.
  induction t as [|[k items] rest IH]; intros h h' n; simpl.
  - intros [= <- <-]. rewrite Nat.sub_diag.
    split; [done|]. split; [done|]. split; [simpl; lia|].
    repeat split; intros; try done; by destruct H.
  - destruct (alloc_settings h items) as [h1 n1] eqn:E1.
    destruct (alloc_langs _ rest) as [h3 m] eqn:E3. intros [= <- <-].
    destruct (alloc_settings_spec _ _ _ _ E1) as (HS1 & HL1 & HR1 & Hn1 & Hsnap1).
    destruct (IH _ _ _ E3) as (HS & HL & HLlen & HR & Hm & Hsnap & Hrefs & Hwf).
    cbn [settings langs roots] in *. rewrite HL1, HR1 in *.
    rename HL into HL'.
    assert (length (settings h1) = length (settings h) + length items) as Hlen1.
    { by rewrite HS1, length_app, length_fmap. }
    pose proof (prefix_length _ _ HS) as Hlen3.
    assert (∀ h'', langs h3 `prefix_of` langs h'' → get_lang h'' (length (langs h)) = n1)
      as Hget.
    { intros h'' Hp. apply get_lang_lookup.
      eapply prefix_lookup_Some; [|etrans; [exact HL'|exact Hp]].
      by apply list_lookup_middle. }
    split; [|split; [|split; [|split; [|split; [|split; [|split]]]]]].
    + etrans; [|exact HS]. rewrite HS1. by apply prefix_app_r.
    + etrans; [|exact HL']. by apply prefix_app_r.
    + rewrite HLlen, length_app. simpl. lia.
    + done.
    + cbn. f_equal. etrans; [exact Hm|].
      rewrite length_app. simpl. f_equal. lia.
    + intros h'' Hle. unfold snap_root. cbn. f_equal.
      * unfold prod_map. cbn. f_equal. rewrite Hget by apply Hle.
        apply Hsnap1. etrans; [exact HS|apply Hle].
      * by apply Hsnap.
    + intros h'' Hp. unfold all_srefs. rewrite bind_cons. cbn [snd].
      rewrite (Hget h'' Hp), Hn1.
      fold (all_srefs h'' m). rewrite (Hrefs h'' Hp), Hlen1.
      replace (length (settings h3) - length (settings h))
        with (length items + (length (settings h3) - (length (settings h) + length items)))
        by lia.
      by rewrite seq_app.
    + intros Hwfh. apply Hwf.
      pose proof (alloc_settings_wf _ _ _ _ E1 Hwfh) as [Hr1 Hl1].
      rewrite HL1, HR1 in Hr1. rewrite HL1 in Hl1.
      split; cbn [settings langs roots].
      * eapply Forall_impl; [exact Hr1|]. intros n0 Hn0.
        eapply Forall_impl; [exact Hn0|]. intros kl. simpl. rewrite length_app. lia.
      * apply Forall_app. split; [done|]. apply Forall_singleton.
        eapply seq_bound_Forall; [exact Hn1|]. lia.
Qed.

Lemma deepcopy_spec h r h' r' :
  deepcopy h r = (h', r') →
  heap_le h h' ∧ r' = length (roots h) ∧ length (roots h') = S (length (roots h)) ∧
  snap h' r' = snap h r ∧
  (get_root h' r').*2 = seq (length (langs h)) (length (langs h') - length (langs h)) ∧
  all_srefs h' (get_root h' r')
    = seq (length (settings h)) (length (settings h') - length (settings h)) ∧
  (wf_heap h → wf_heap h').
Proof.
  unfold deepcopy. destruct (alloc_langs h (snap h r)) as [h1 n] eqn:E.
  intros [= <- <-].
  destruct (alloc_langs_spec _ _ _ _ E) as (HS & HL & HLlen & HR & Hn & Hsnap & Hrefs & Hwf).
  set (h2 := Heap _ _ _).
  assert (heap_le h1 h2) as Hle12 by apply (new_root_le h1 n).
  assert (get_root h2 (length (roots h1)) = n) as Hroot.
  { apply get_root_lookup. simpl. by apply list_lookup_middle. }
  split; [|split; [|split; [|split; [|split; [|split]]]]].
  - eapply heap_le_trans; [|exact Hle12]. by repeat split; [| |rewrite HR].
  - by rewrite HR.
  - simpl. rewrite length_app, HR. simpl. lia.
  - unfold snap at 1. rewrite Hroot. by apply Hsnap.
  - rewrite Hroot, Hn. simpl. f_equal. lia.
  - rewrite Hroot. by apply Hrefs.
  - intros Hwfh. destruct (Hwf Hwfh) as [Hr1 Hl1]. split; simpl; [|done].
    apply Forall_app. split; [done|]. apply Forall_singleton.
    eapply seq_bound_Forall; [exact Hn|]. lia.
Qed.

(** ** validate_config *)

Lemma same_but_refl S h : same_but S h h.
Proof. by repeat split. Qed.

Lemma same_but_trans S h1 h2 h3 :
  same_but S h1 h2 → same_but S h2 h3 → same_but S h1 h3.
Proof.
  intros (HL & HR & Hlen & HS) (HL' & HR' & Hlen' & HS').
  repeat split; try congruence. intros i Hi. by rewrite HS', HS.
Qed.

Lemma same_but_mono S S' h h' : S ⊆ S' → same_but S h h' → same_but S' h h'.
Proof.
  intros Hsub (HL & HR & Hlen & HS). repeat split; try done.
  intros i Hi. apply HS. intros Hin. by apply Hi, Hsub.
Qed.

Lemma same_but_put S h l d : l ∈ S → same_but S h (put_setting h l d).
Proof.
  intros Hl. repeat split; simpl; try done.
  - by rewrite length_insert.
  - intros i Hi. apply list_lookup_insert_ne. by intros ->.
Qed.

Lemma same_but_get S h h' l : same_but S h h' → l ∉ S → get_setting h' l = get_setting h l.
Proof. intros (_ & _ & _ & HS) Hl. unfold get_setting. by rewrite HS. Qed.

Lemma same_but_wf S h h' : same_but S h h' → wf_heap h → wf_heap h'.
Proof. intros (HL & HR & Hlen & _) [? ?]. split; by rewrite ?HL, ?HR, ?Hlen. Qed.

Lemma same_but_all_srefs S h h' n : same_but S h h' → all_srefs h' n = all_srefs h n.
Proof. intros (HL & _). unfold all_srefs, get_lang. by rewrite HL. Qed.

Lemma continue_wanted filter name :
  negb (String.eqb filter "all") && negb (String.eqb name filter)
  = negb (wanted filter name).
Proof. unfold wanted. by rewrite negb_orb. Qed.

Lemma first_error_cons_Some w x xs e :
  entry_error w x = Some e → first_error w (x :: xs) = Some e.
Proof. unfold first_error. simpl. by intros ->. Qed.

Lemma first_error_cons_None w x xs :
  entry_error w x = None → first_error w (x :: xs) = first_error w xs.
Proof. unfold first_error. simpl. by intros ->. Qed.

Lemma first_error_app w xs ys :
  first_error w (xs ++ ys)
  = match first_error w xs with Some e => Some e | None => first_error w ys end.
Proof.
  unfold first_error. rewrite omap_app. by destruct (omap (entry_error w) xs).
Qed.

Lemma validate_setting_spec w lang m sref h :
  (validate_setting w lang m sref h).1
    = result_of (entry_error w (lang, m, get_setting h sref)) ∧
  same_but [sref] h (validate_setting w lang m sref h).2.
Proof.
  unfold validate_setting, entry_error, Dict.mem, pop.
  destruct (Dict.get "model_name" (get_setting h sref)) as [mn|] eqn:Emn; simpl;
    [|split; [done|apply same_but_refl]].
  destruct (Dict.get "loader_func" (get_setting h sref)) as [f|] eqn:Ef; simpl;
    [|split; [done|apply same_but_refl]].
  pose proof (get_setting_in_range _ _ _ _ Emn) as Hin.
  assert (∀ h0 d, same_but [sref] h h0 → same_but [sref] h (put_setting h0 sref d)) as Hput.
  { intros h0 d H0. eapply same_but_trans; [exact H0|]. apply same_but_put. left. }
  rewrite !get_setting_put
    by (repeat (unfold put_setting; simpl; rewrite ?length_insert); done).
  rewrite !DictFacts.get_remove_ne, Ef by done.
  set (h3 := put_setting _ sref _).
  assert (same_but [sref] h h3) as H3.
  { unfold h3. do 3 apply Hput. apply same_but_refl. }
  destruct (str_in f VALID_LOADER_FUNCTION); simpl; [|done].
  destruct (check_model_availability w mn _) as [[]|]; done.
Qed.

Lemma validate_metrics_spec w metric lang items : ∀ h,
  NoDup items.*2 →
  (validate_metrics w metric lang items h).1
    = result_of (first_error w (selected_metrics metric lang (snap_lang h items))) ∧
  same_but items.*2 h (validate_metrics w metric lang items h).2.
Proof.
  induction items as [|[m sref] rest IH]; intros h Hnd.
  - split; [done|apply same_but_refl].
  - rewrite fmap_cons in Hnd. apply NoDup_cons in Hnd as [Hsref Hnd].
    cbn [validate_metrics]. rewrite continue_wanted.
    unfold selected_metrics, snap_lang. rewrite fmap_cons, bind_cons.
    fold (snap_lang h rest). fold (selected_metrics metric lang (snap_lang h rest)).
    cbn [prod_map fst snd id].
    destruct (wanted metric m); cbn [negb].
    + destruct (validate_setting_spec w lang m sref h) as [Hres Hsame].
      destruct (validate_setting w lang m sref h) as [[v|e] h'] eqn:E;
        cbn [fst snd] in Hres, Hsame.
      * destruct (entry_error w _) eqn:Ee; [done|].
        destruct (IH h' Hnd) as [IHres IHsame].
        assert (snap_lang h' rest = snap_lang h rest) as Hsnap.
        { apply snap_lang_agree. intros l Hl. eapply same_but_get; [done|].
          intros ->%list_elem_of_singleton. done. }
        rewrite Hsnap in IHres. split.
        -- rewrite IHres. cbn [app]. by rewrite (first_error_cons_None _ _ _ Ee).
        -- eapply same_but_trans; (eapply same_but_mono; [|done]); list_sub.
      * destruct (entry_error w _) eqn:Ee; [|done]. injection Hres as ->.
        split.
        -- cbn [app fst]. by rewrite (first_error_cons_Some _ _ _ _ Ee).
        -- eapply same_but_mono; [|done]. list_sub.
    + destruct (IH h Hnd) as [IHres IHsame]. split; [done|].
      eapply same_but_mono; [|done]. list_sub.
Qed.

Lemma validate_langs_spec w language metric items : ∀ h,
  NoDup (all_srefs h items) →
  (validate_langs w language metric items h).1
    = result_of (first_error w (selected language metric (snap_root h items))) ∧
  same_but (all_srefs h items) h (validate_langs w language metric items h).2.
Proof.
  induction items as [|[lang lref] rest IH]; intros h Hnd.
  - split; [done|apply same_but_refl].
  - unfold all_srefs in Hnd |- *. rewrite bind_cons in Hnd |- *.
    fold (all_srefs h rest) in Hnd |- *. cbn [snd] in Hnd |- *.
    apply NoDup_app in Hnd as (HndA & Hdisj & HndB).
    cbn [validate_langs]. rewrite continue_wanted.
    unfold selected, snap_root. rewrite fmap_cons, bind_cons.
    fold (snap_root h rest). fold (selected language metric (snap_root h rest)).
    cbn [prod_map fst snd id]. rewrite first_error_app.
    destruct (wanted language lang); cbn [negb].
    + destruct (validate_metrics_spec w metric lang (get_lang h lref) h HndA)
        as [Hres Hsame].
      destruct (validate_metrics w metric lang (get_lang h lref) h) as [[v|e] h'] eqn:E;
        cbn [fst snd] in Hres, Hsame.
      * destruct (first_error w _) eqn:Ee; [done|].
        assert (all_srefs h' rest = all_srefs h rest) as Hrefs
          by (by eapply same_but_all_srefs).
        destruct (IH h') as [IHres IHsame]; [by rewrite Hrefs|].
        assert (snap_root h' rest = snap_root h rest) as Hsnap.
        { apply snap_root_agree.
          - intros l _. unfold get_lang. by destruct Hsame as [-> _].
          - intros s Hs. eapply same_but_get; [done|]. intros Hin.
            by eapply Hdisj. }
        rewrite Hsnap in IHres. rewrite Hrefs in IHsame. split; [done|].
        eapply same_but_trans; (eapply same_but_mono; [|done]); list_sub.
      * destruct (first_error w _) eqn:Ee; [|done]. injection Hres as ->.
        split; [done|]. eapply same_but_mono; [|done]. list_sub.
    + cbn [first_error omap head]. destruct (IH h HndB) as [IHres IHsame].
      split; [done|]. eapply same_but_mono; [|done]. list_sub.
Qed.

(** [validate_config] reports the first error among the selected entries
    of the configuration it is given, and only writes to nodes of its own
    copy. *)
Lemma validate_config_spec w r language metric h :
  (validate_config w r language metric h).1
    = result_of (first_error w (selected language metric (snap h r))) ∧
  heap_le h (validate_config w r language metric h).2 ∧
  (wf_heap h → wf_heap (validate_config w r language metric h).2).
Proof.
  unfold validate_config. destruct (deepcopy h r) as [h1 r'] eqn:E.
  destruct (deepcopy_spec _ _ _ _ E) as (Hle & _ & _ & Hsnap & _ & Hrefs & Hwf).
  destruct (validate_langs_spec w language metric (get_root h1 r') h1) as [Hres Hsame].
  { rewrite Hrefs. apply NoDup_seq. }
  fold (snap h1 r') in Hres. rewrite Hsnap in Hres. split; [done|]. split.
  - destruct Hle as (HS & HL & HR). destruct Hsame as (HL' & HR' & Hlen & HS').
    split; [|by rewrite HL', HR'].
    apply prefix_of_lookup. intros i x Hi.
    rewrite HS'; [by eapply prefix_lookup_Some|].
    rewrite Hrefs. intros Hin%elem_of_seq. apply lookup_lt_Some in Hi. lia.
  - intros Hwfh. eapply same_but_wf; [exact Hsame|]. by apply Hwf.
Qed.

Lemma entry_error_None w x : entry_error w x = None ↔ ¬ violates w x.2.
Proof.
  destruct x as [[lang m] st]. unfold entry_error, violates, lacks_model_name,
    lacks_loader_func, unregistered_loader, unresolved. cbn [snd].
  destruct (Dict.get "model_name" st) as [mn|] eqn:Emn; [|split; [done|tauto]].
  destruct (Dict.get "loader_func" st) as [f|] eqn:Ef; [|split; [done|tauto]].
  destruct (str_in f VALID_LOADER_FUNCTION) eqn:Ev; cbn [negb].
  - apply str_in_true in Ev.
    destruct (check_model_availability w mn (Dict.get "revision" st)) as [[]|] eqn:Ec.
    + split; [|done]. intros _ [|[|[(f' & [= <-] & Hf)|(m' & [= <-] & Hm)]]]; done.
    + split; [done|]. intros H. exfalso. apply H. do 3 right. exists mn.
      split; [done|]. by rewrite Ec.
    + split; [done|]. intros H. exfalso. apply H. do 3 right. exists mn.
      split; [done|]. by rewrite Ec.
  - apply str_in_false in Ev. split; [done|]. intros H. exfalso. apply H.
    right. right. left. by exists f.
Qed.

Lemma entry_error_Some w x : is_Some (entry_error w x) ↔ violates w x.2.
Proof.
  destruct (entry_error w x) eqn:E.
  - split; [|by eauto]. intros _.
    destruct (decide (is_Some (entry_error w x))) as [_|Hn]; [|by rewrite E in Hn; destruct Hn; eauto].
    assert (¬ ¬ violates w x.2) as Hnn.
    { intros Hv. apply entry_error_None in Hv. congruence. }
    unfold violates, lacks_model_name, lacks_loader_func in *.
    destruct (Dict.get "model_name" x.2) eqn:Emn; [|by left].
    destruct (Dict.get "loader_func" x.2) as [f|] eqn:Ef; [|by right; left].
    destruct (decide (f ∈ VALID_LOADER_FUNCTION)) as [Hf|Hf];
      [|right; right; left; by exists f].
    do 3 right. eexists. split; [done|]. intros Hc. apply Hnn.
    intros [|[|[(f' & Hf' & Hnf)|(m' & Hm' & Hnm)]]]; try done.
    + rewrite Ef in Hf'. by injection Hf' as <-.
    + rewrite Emn in Hm'. by injection Hm' as <-.
  - split; [by intros [? [=]]|]. intros Hv. by apply entry_error_None in E.
Qed.

Lemma first_error_None w xs :
  first_error w xs = None ↔ Forall (λ x, ¬ violates w x.2) xs.
Proof.
  induction xs as [|x xs IH].
  - split; [constructor|done].
  - destruct (entry_error w x) eqn:E.
    + rewrite (first_error_cons_Some _ _ _ _ E). split; [done|].
      intros [Hx _]%Forall_cons. apply entry_error_None in Hx. congruence.
    + rewrite (first_error_cons_None _ _ _ E), IH, Forall_cons.
      apply entry_error_None in E. tauto.
Qed.

Lemma first_error_Some w xs e :
  first_error w xs = Some e ↔
  ∃ pre x post, xs = pre ++ x :: post ∧
    Forall (λ y, ¬ violates w y.2) pre ∧ entry_error w x = Some e.
Proof.
  induction xs as [|x xs IH].
  - split; [done|]. intros (pre & y & post & H & _). by destruct pre.
  - destruct (entry_error w x) eqn:E.
    + rewrite (first_error_cons_Some _ _ _ _ E). split.
      * intros [= <-]. exists [], x, xs. by repeat split.
      * intros (pre & y & post & H & Hpre & Hy). destruct pre as [|p pre].
        -- injection H as <- _. congruence.
        -- injection H as <- _. apply Forall_cons in Hpre as [Hp _].
           apply entry_error_None in Hp. congruence.
    + rewrite (first_error_cons_None _ _ _ E), IH. split.
      * intros (pre & y & post & -> & Hpre & Hy). exists (x :: pre), y, post.
        repeat split; [|done]. constructor; [|done]. by apply entry_error_None.
      * intros (pre & y & post & H & Hpre & Hy). destruct pre as [|p pre].
        -- injection H as <- _. congruence.
        -- injection H as <- ->. apply Forall_cons in Hpre as [_ Hpre].
           by exists pre, y, post.
Qed.

(** ** fetch_model *)

Lemma put_fresh_le h h1 l d :
  heap_le h h1 → length (settings h) ≤ l → heap_le h (put_setting h1 l d).
Proof.
  intros (HS & HL & HR) Hl. repeat split; simpl; try done.
  apply prefix_of_lookup. intros i x Hi.
  rewrite list_lookup_insert_ne; [by eapply prefix_lookup_Some|].
  apply lookup_lt_Some in Hi. lia.
Qed.

Lemma heap_le_wf_settings h h' :
  wf_heap h → langs h' = langs h → roots h' = roots h →
  length (settings h) ≤ length (settings h') → wf_heap h'.
Proof.
  intros [Hr Hl] HL HR Hlen. split; rewrite ?HL, ?HR; [done|].
  eapply Forall_impl; [exact Hl|]. intros n Hn.
  eapply Forall_impl; [exact Hn|]. intros kl. simpl. lia.
Qed.

Lemma entry_of_heap h r language metric :
  entry_of (snap h r) language metric
  = (Dict.get language (get_root h r) ≫= λ lref,
       Dict.get metric (get_lang h lref) ≫= λ sref, Some (get_setting h sref)).
Proof.
  unfold entry_of, snap, snap_root. rewrite DictFacts.get_fmap.
  destruct (Dict.get language (get_root h r)) as [lref|]; [|done]. simpl.
  unfold snap_lang. rewrite DictFacts.get_fmap.
  by destruct (Dict.get metric (get_lang h lref)).
Qed.

Lemma present_entry_of t language metric :
  present t language metric ↔ is_Some (entry_of t language metric).
Proof.
  unfold present, entry_of. split.
  - intros (ms & -> & Hm). done.
  - destruct (Dict.get language t) as [ms|]; simpl; [|by intros [? [=]]]. eauto.
Qed.

(** The undecorated method only allocates (its own copy of the entry) and
    never touches the memo. *)
Lemma fetch_model_wrapped_frame w language metric s :
  self_config (fetch_model_wrapped w language metric s).2 = self_config s ∧
  cache (fetch_model_wrapped w language metric s).2 = cache s ∧
  heap_le (heap_of s) (heap_of (fetch_model_wrapped w language metric s).2) ∧
  (wf_heap (heap_of s) → wf_heap (heap_of (fetch_model_wrapped w language metric s).2)) ∧
  length (roots (heap_of (fetch_model_wrapped w language metric s).2))
    = length (roots (heap_of s)).
Proof.
  unfold fetch_model_wrapped.
  destruct (Dict.get language _) as [lref|];
    [|by split_and!; try apply heap_le_refl].
  destruct (Dict.get metric _) as [sref|];
    [|by split_and!; try apply heap_le_refl].
  cbv beta iota zeta delta [deepcopy_setting pop new_setting].
  set (h := heap_of s). set (d := get_setting h sref).
  set (h1 := Heap _ _ _).
  assert (heap_le h h1) as H1 by apply (new_setting_le h d).
  set (h2 := put_setting h1 _ _).
  assert (heap_le h h2) as H2 by (by apply put_fresh_le).
  assert (wf_heap h → wf_heap h1) as W1.
  { intros Hwf. eapply heap_le_wf_settings; [done..|]. simpl. rewrite length_app. lia. }
  assert (wf_heap h → wf_heap h2) as W2.
  { intros Hwf. eapply heap_le_wf_settings; [done..|]. simpl.
    rewrite length_insert, length_app. lia. }
  destruct (Dict.get "loader_func" (get_setting h1 _)) as [f|]; [|by split_and!].
  destruct (Dict.get f LOADER_MAP) as [ld|]; [|by split_and!].
  by destruct (loader_returns w ld _); split_and!.
Qed.

(** What a call that returns has done: looked the entry up, taken the
    loader its [loader_func] names, and called it once with the rest. *)
Lemma fetch_model_wrapped_Ok w language metric s m s' :
  fetch_model_wrapped w language metric s = (Ok m, s') →
  ∃ entry loader_func ld,
    entry_of (config_of s) language metric = Some entry ∧
    Dict.get "loader_func" entry = Some loader_func ∧
    Dict.get loader_func LOADER_MAP = Some ld ∧
    loader_returns w ld (Dict.remove "loader_func" entry) = true ∧
    calls s' = calls s ++ [(ld, Dict.remove "loader_func" entry)] ∧
    m = length (calls s).
Proof.
  unfold fetch_model_wrapped, config_of. rewrite entry_of_heap.
  destruct (Dict.get language _) as [lref|]; [|by intros [=]].
  cbn [mbind option_bind].
  destruct (Dict.get metric _) as [sref|]; [|by intros [=]].
  cbn [mbind option_bind].
  cbv beta iota zeta delta [deepcopy_setting pop new_setting].
  set (h := heap_of s). set (d := get_setting h sref).
  set (h1 := Heap _ _ _).
  assert (get_setting h1 (length (settings h)) = d) as Hd.
  { apply get_setting_lookup. simpl. by apply list_lookup_middle. }
  rewrite Hd.
  destruct (Dict.get "loader_func" d) as [f|] eqn:Ef; cbv beta iota;
    [|by intros [=]].
  destruct (Dict.get f LOADER_MAP) as [ld|] eqn:El; [|by intros [=]].
  rewrite get_setting_put by (simpl; rewrite length_app; simpl; lia).
  destruct (loader_returns w ld _) eqn:Er; [|by intros [=]].
  intros [= <- <-]. by exists d, f, ld.
Qed.

(** No loader runs for a key the configuration does not have. *)
Lemma fetch_model_wrapped_absent w language metric s :
  ¬ present (config_of s) language metric →
  ∃ msg, fetch_model_wrapped w language metric s = (Raise (KeyError msg), s).
Proof.
  rewrite present_entry_of. unfold fetch_model_wrapped, config_of.
  rewrite entry_of_heap.
  destruct (Dict.get language _) as [lref|]; [|by eauto].
  cbn [mbind option_bind].
  destruct (Dict.get metric _) as [sref|]; [|by eauto].
  intros H. exfalso. by apply H.
Qed.

(** Each call runs at most one loader. *)
Lemma fetch_model_wrapped_calls w language metric s :
  length (calls (fetch_model_wrapped w language metric s).2) ≤ S (length (calls s)).
Proof.
  unfold fetch_model_wrapped.
  destruct (Dict.get language _) as [lref|]; [|simpl; lia].
  destruct (Dict.get metric _) as [sref|]; [|simpl; lia].
  cbv beta iota zeta delta [deepcopy_setting pop new_setting].
  destruct (Dict.get "loader_func" _) as [f|]; cbv beta iota; [|simpl; lia].
  destruct (Dict.get f LOADER_MAP) as [ld|]; [|simpl; lia].
  destruct (loader_returns w ld _); simpl; rewrite length_app; simpl; lia.
Qed.

Lemma key_eqb_eq k k' : key_eqb k k' = true ↔ k = k'.
Proof.
  destruct k as [a b], k' as [a' b']. unfold key_eqb. simpl.
  rewrite andb_true_iff, !String.eqb_eq. split; [by intros [-> ->]|by intros [= -> ->]].
Qed.

Lemma cache_get_elem_of k m c : cache_get k c = Some m → (k, m) ∈ c.
Proof.
  induction c as [|[k' m'] c IH]; simpl; [done|].
  destruct (key_eqb k k') eqn:E.
  - apply key_eqb_eq in E as ->. intros [= ->]. left.
  - intros H. right. auto.
Qed.

Lemma cache_get_head k m c : cache_get k ((k, m) :: c) = Some m.
Proof. simpl. by rewrite (proj2 (key_eqb_eq k k) eq_refl). Qed.

Lemma cache_del_subseteq k c : cache_del k c ⊆ c.
Proof.
  induction c as [|[k' m'] c IH]; simpl; [done|].
  destruct (key_eqb k k'); intros x Hx.
  - by right.
  - apply elem_of_cons in Hx as [->|Hx]; [left|right; by apply IH].
Qed.

(** ** The setter: the assignments *)

Lemma get_root_put h r n : r < length (roots h) → get_root (put_root h r n) r = n.
Proof. intros Hr. apply get_root_lookup. simpl. by apply list_lookup_insert_eq. Qed.

Lemma get_lang_put h l n : l < length (langs h) → get_lang (put_lang h l n) l = n.
Proof. intros Hl. apply get_lang_lookup. simpl. by apply list_lookup_insert_eq. Qed.

Lemma wf_node_set (n : node) k l b :
  Forall (λ kl : string * nat, kl.2 < b) n → l < b →
  Forall (λ kl : string * nat, kl.2 < b) (Dict.set k l n).
Proof.
  intros Hn Hl. apply Forall_forall. intros x [->|Hx]%DictFacts.elem_of_set; [done|].
  rewrite Forall_forall in Hn. by apply Hn.
Qed.

Lemma wf_get_root h r : wf_heap h →
  Forall (λ kl : string * nat, kl.2 < length (langs h)) (get_root h r).
Proof.
  intros Hwf. apply Forall_forall. intros kl Hkl. eapply wf_root_refs; [done|].
  apply list_elem_of_fmap. by exists kl.
Qed.

Lemma wf_get_lang h l : wf_heap h →
  Forall (λ kl : string * nat, kl.2 < length (settings h)) (get_lang h l).
Proof.
  intros Hwf. apply Forall_forall. intros kl Hkl. eapply wf_lang_refs; [done|].
  apply list_elem_of_fmap. by exists kl.
Qed.

Lemma Forall_node_mono (n : node) a b :
  a ≤ b → Forall (λ kl : string * nat, kl.2 < a) n →
  Forall (λ kl : string * nat, kl.2 < b) n.
Proof.
  intros Hab H. eapply Forall_impl; [exact H|]. intros kl. simpl. lia.
Qed.

Lemma ensure_language_spec h cfg language :
  wf_heap h → cfg < length (roots h) →
  ∃ lref,
    Dict.get language (get_root (ensure_language h cfg language) cfg) = Some lref ∧
    settings (ensure_language h cfg language) = settings h ∧
    length (roots (ensure_language h cfg language)) = length (roots h) ∧
    (∀ i, i ≠ cfg → roots (ensure_language h cfg language) !! i = roots h !! i) ∧
    (∀ i, i < length (langs h) → langs (ensure_language h cfg language) !! i = langs h !! i) ∧
    wf_heap (ensure_language h cfg language) ∧
    (ensure_language h cfg language = h ∧ lref < length (langs h) ∨
     get_root (ensure_language h cfg language) cfg = Dict.set language lref (get_root h cfg) ∧
     Dict.get language (get_root h cfg) = None ∧ lref = length (langs h) ∧
     langs (ensure_language h cfg language) = langs h ++ [[]]).
Proof.
  intros Hwf Hcfg. unfold ensure_language.
  destruct (Dict.get language (get_root h cfg)) as [lref|] eqn:E.
  - exists lref. split_and!; try done. left. split; [done|].
    eapply wf_root_refs; [done|]. apply list_elem_of_fmap. exists (language, lref).
    split; [done|]. by apply DictFacts.get_elem_of.
  - cbv beta iota zeta delta [new_lang]. set (h' := Heap _ _ _).
    assert (get_root h' cfg = get_root h cfg) as Hr' by done.
    rewrite Hr'. exists (length (langs h)).
    rewrite get_root_put by done. split_and!.
    + apply DictFacts.get_set_eq.
    + done.
    + simpl. by rewrite length_insert.
    + intros i Hi. simpl. by apply list_lookup_insert_ne.
    + intros i Hi. simpl. by apply lookup_app_l.
    + destruct Hwf as [Hr Hl]. split; simpl.
      * rewrite length_app. simpl. apply Forall_insert.
        -- eapply Forall_impl; [exact Hr|]. intros n. apply Forall_node_mono. lia.
        -- apply wf_node_set; [|lia]. eapply Forall_node_mono; [|by apply wf_get_root].
           lia.
      * apply Forall_app. split; [done|]. by apply Forall_singleton.
    + right. done.
Qed.

Lemma ensure_metric_spec h lref metric :
  wf_heap h → lref < length (langs h) →
  ∃ sref,
    Dict.get metric (get_lang (ensure_metric h lref metric) lref) = Some sref ∧
    sref < length (settings (ensure_metric h lref metric)) ∧
    roots (ensure_metric h lref metric) = roots h ∧
    length (langs (ensure_metric h lref metric)) = length (langs h) ∧
    (∀ i, i ≠ lref → langs (ensure_metric h lref metric) !! i = langs h !! i) ∧
    (∀ i, i < length (settings h) →
       settings (ensure_metric h lref metric) !! i = settings h !! i) ∧
    wf_heap (ensure_metric h lref metric) ∧
    (ensure_metric h lref metric = h ∧ sref < length (settings h) ∨
     get_lang (ensure_metric h lref metric) lref = Dict.set metric sref (get_lang h lref) ∧
     Dict.get metric (get_lang h lref) = None ∧ sref = length (settings h) ∧
     settings (ensure_metric h lref metric) = settings h ++ [[]]).
Proof.
  intros Hwf Hlref. unfold ensure_metric.
  destruct (Dict.get metric (get_lang h lref)) as [sref|] eqn:E.
  - assert (sref < length (settings h)) as Hs.
    { eapply wf_lang_refs; [done|]. apply list_elem_of_fmap. exists (metric, sref).
      split; [done|]. by apply DictFacts.get_elem_of. }
    exists sref. split_and!; try done. by left.
  - cbv beta iota zeta delta [new_setting]. set (h' := Heap _ _ _).
    assert (get_lang h' lref = get_lang h lref) as Hl' by done.
    rewrite Hl'. exists (length (settings h)).
    rewrite get_lang_put by done. split_and!.
    + apply DictFacts.get_set_eq.
    + simpl. rewrite length_app. simpl. lia.
    + done.
    + simpl. by rewrite length_insert.
    + intros i Hi. simpl. by apply list_lookup_insert_ne.
    + intros i Hi. simpl. by apply lookup_app_l.
    + destruct Hwf as [Hr Hl]. split; simpl.
      * by rewrite length_insert.
      * rewrite length_app. simpl. apply Forall_insert.
        -- eapply Forall_impl; [exact Hl|]. intros n. apply Forall_node_mono. lia.
        -- apply wf_node_set; [|lia]. eapply Forall_node_mono; [|by apply wf_get_lang].
           lia.
    + right. done.
Qed.

Lemma get_setting_assign h l k v :
  l < length (settings h) →
  get_setting (assign h l k v) l = Dict.set k v (get_setting h l).
Proof. intros Hl. unfold assign. by apply get_setting_put. Qed.

Lemma assign_same_but h l k v : same_but [l] h (assign h l k v).
Proof. apply same_but_put. left. Qed.

Lemma assign_attributes_spec h sref mn lf kwargs :
  sref < length (settings h) →
  get_setting (assign_attributes h sref mn lf kwargs) sref
    = updated_entry (get_setting h sref) mn lf kwargs ∧
  same_but [sref] h (assign_attributes h sref mn lf kwargs).
Proof.
  intros Hs. unfold assign_attributes, updated_entry.
  set (h1 := assign h sref "loader_func" lf).
  assert (same_but [sref] h h1) as S1 by apply assign_same_but.
  set (h2 := assign h1 sref "model_name" mn).
  assert (same_but [sref] h h2) as S2
    by (eapply same_but_trans; [exact S1|apply assign_same_but]).
  assert (length (settings h1) = length (settings h)) as L1 by apply S1.
  assert (length (settings h2) = length (settings h)) as L2 by apply S2.
  assert (get_setting h2 sref
          = Dict.set "model_name" mn (Dict.set "loader_func" lf (get_setting h sref)))
    as G2.
  { unfold h2. rewrite get_setting_assign by (by rewrite L1).
    unfold h1. by rewrite get_setting_assign. }
  destruct (truthy_str (Dict.get "tokenizer_name" kwargs)).
  - set (h3 := assign h2 sref "tokenizer_name" _).
    assert (same_but [sref] h h3) as S3
      by (eapply same_but_trans; [exact S2|apply assign_same_but]).
    assert (length (settings h3) = length (settings h)) as L3 by apply S3.
    assert (get_setting h3 sref = Dict.set "tokenizer_name"
              (opt_str (Dict.get "tokenizer_name" kwargs)) (get_setting h2 sref)) as G3.
    { unfold h3. rewrite get_setting_assign; [done|]. by rewrite L2. }
    destruct (truthy_str (Dict.get "model_revision" kwargs)).
    + split; [|eapply same_but_trans; [exact S3|apply assign_same_but]].
      rewrite get_setting_assign by (by rewrite L3). by rewrite G3, G2.
    + split; [|done]. by rewrite G3, G2.
  - destruct (truthy_str (Dict.get "model_revision" kwargs)).
    + split; [|eapply same_but_trans; [exact S2|apply assign_same_but]].
      rewrite get_setting_assign by (by rewrite L2). by rewrite G2.
    + by split.
Qed.

Lemma get_lang_dangling h l : length (langs h) ≤ l → get_lang h l = [].
Proof. intros Hl. unfold get_lang. by rewrite lookup_ge_None_2. Qed.

Lemma get_lang_eq h h' l : langs h' !! l = langs h !! l → get_lang h' l = get_lang h l.
Proof. unfold get_lang. by intros ->. Qed.

Lemma get_root_eq h h' r : roots h' !! r = roots h !! r → get_root h' r = get_root h r.
Proof. unfold get_root. by intros ->. Qed.

Lemma get_setting_eq h h' l :
  settings h' !! l = settings h !! l → get_setting h' l = get_setting h l.
Proof. unfold get_setting. by intros ->. Qed.

(** Past its two guards, the setter finds or creates the nodes of its key,
    assigns the attributes and validates. *)
Lemma set_model_try_spec w language metric mn lf kwargs s :
  wf_state s → language ∈ VALID_LANGUAGE → metric ∈ VALID_METRICS →
  ∃ h3 lref sref,
    edited (heap_of s) (self_config s) language metric h3 lref sref ∧
    get_setting h3 sref
      = updated_entry (default [] (entry_of (config_of s) language metric)) mn lf kwargs ∧
    set_model_try w language metric mn lf kwargs s
      = ((validate_config w (self_config s) language metric h3).1,
         with_heap s (validate_config w (self_config s) language metric h3).2).
Proof.
  intros [Hwf Hcfg] Hlang Hmetric. unfold set_model_try.
  rewrite (proj2 (str_in_true _ _) Hlang), (proj2 (str_in_true _ _) Hmetric).
  cbn [negb]. set (h := heap_of s) in *. set (cfg := self_config s) in *.
  destruct (ensure_language_spec h cfg language Hwf Hcfg)
    as (lref & Hget1 & HS1 & HRlen1 & HR1 & HL1 & Hwf1 & Hcase1).
  set (h1 := ensure_language h cfg language) in *. rewrite Hget1.
  assert (lref < length (langs h1)) as Hlref1.
  { eapply wf_root_refs; [exact Hwf1|]. apply list_elem_of_fmap.
    exists (language, lref). split; [done|]. by apply DictFacts.get_elem_of. }
  destruct (ensure_metric_spec h1 lref metric Hwf1 Hlref1)
    as (sref & Hget2 & Hsref2 & HR2 & HLlen2 & HL2 & HS2 & Hwf2 & Hcase2).
  set (h2 := ensure_metric h1 lref metric) in *. rewrite Hget2.
  destruct (assign_attributes_spec h2 sref mn lf kwargs Hsref2) as [Hentry Hsame].
  set (h3 := assign_attributes h2 sref mn lf kwargs) in *.
  destruct Hsame as (HL3 & HR3 & HSlen3 & HS3).
  assert (get_lang h1 lref = get_lang h lref) as Hlang_old.
  { destruct Hcase1 as [[-> _]|(_ & _ & -> & HLnew)]; [done|].
    rewrite (get_lang_dangling h) by done.
    apply get_lang_lookup. rewrite HLnew. by apply list_lookup_middle. }
  exists h3, lref, sref. split; [|split].
  - unfold edited. split_and!.
    + rewrite <- Hget1. f_equal. apply get_root_eq. by rewrite HR3, HR2.
    + rewrite <- Hget2. f_equal. apply get_lang_eq. by rewrite HL3.
    + eapply same_but_wf; [|exact Hwf2]. by split_and!.
    + by rewrite HR3, HR2.
    + intros i Hi. rewrite HR3, HR2. by apply HR1.
    + intros i Hi Hne. rewrite HL3, HL2 by done. by apply HL1.
    + intros i Hi Hne. rewrite HS3 by (by intros ->%list_elem_of_singleton).
      rewrite HS2 by (by rewrite HS1). by rewrite HS1.
    + destruct Hcase1 as [[E1 Hlt]|(Hroot & Hnone & -> & HLnew)].
      * left. split; [|done]. rewrite <- E1. apply get_root_eq. by rewrite HR3, HR2.
      * right. split; [|done]. rewrite <- Hroot. apply get_root_eq. by rewrite HR3, HR2.
    + assert (get_lang h3 lref = get_lang h2 lref) as E3
        by (apply get_lang_eq; by rewrite HL3).
      rewrite E3, <- Hlang_old.
      destruct Hcase2 as [[E2 Hlt]|(Hnode & Hnone & -> & HSnew)].
      * left. by rewrite E2, <- HS1.
      * right. by rewrite <- HS1.
  - rewrite Hentry. f_equal. unfold config_of. fold h cfg. rewrite entry_of_heap.
    destruct Hcase2 as [[E2 Hlt]|(Hnode & Hnone & -> & HSnew)].
    + destruct Hcase1 as [[E1 Hlt1]|(Hroot & Hnone & -> & HLnew)].
      * rewrite E2, E1 in Hget2. rewrite E1 in Hget1. rewrite Hget1. simpl.
        rewrite Hget2. simpl. by rewrite E2, E1.
      * exfalso. rewrite E2 in Hget2. rewrite get_lang_lookup with (n := []) in Hget2;
          [done|]. rewrite HLnew. by apply list_lookup_middle.
    + assert (get_setting h2 (length (settings h1)) = []) as ->.
      { apply get_setting_lookup. rewrite HSnew. by apply list_lookup_middle. }
      rewrite Hlang_old in Hnone.
      destruct (Dict.get language (get_root h cfg)) as [lref'|] eqn:E; [|done].
      destruct Hcase1 as [[E1 Hlt1]|(Hroot & Hnone' & _)]; [|done].
      rewrite E1, E in Hget1. injection Hget1 as ->. simpl. by rewrite Hnone.
  - destruct (validate_config w cfg language metric h3) as [[[]|e] h'] eqn:Ev; done.
Qed.

(** ** The setter: what the assignments do to the configuration *)

Lemma edited_entry h cfg language metric h3 lref sref :
  edited h cfg language metric h3 lref sref →
  entry_of (snap h3 cfg) language metric = Some (get_setting h3 sref).
Proof.
  intros (Hg1 & Hg2 & _). rewrite entry_of_heap, Hg1. simpl. by rewrite Hg2.
Qed.

Lemma edited_lref_old h cfg language metric h3 lref sref :
  edited h cfg language metric h3 lref sref →
  lref < length (langs h) → Dict.get language (get_root h cfg) = Some lref.
Proof.
  intros (Hg1 & _ & _ & _ & _ & _ & _ & [[E _]|(_ & _ & ->)] & _) Hlt; [|lia].
  by rewrite <- E.
Qed.

Lemma edited_sref_old h cfg language metric h3 lref sref :
  edited h cfg language metric h3 lref sref →
  sref < length (settings h) →
  lref < length (langs h) ∧ Dict.get metric (get_lang h lref) = Some sref.
Proof.
  intros (_ & Hg2 & _ & _ & _ & _ & _ & Hc1 & [[E _]|(_ & _ & ->)]) Hlt; [|lia].
  rewrite E in Hg2. split; [|done].
  destruct (decide (lref < length (langs h))) as [|Hge]; [done|].
  rewrite get_lang_dangling in Hg2 by lia. done.
Qed.

Lemma edited_present h cfg language metric h3 lref sref l m :
  wf_heap h → edited h cfg language metric h3 lref sref →
  present (snap h cfg) l m → present (snap h3 cfg) l m.
Proof.
  intros Hwf (Hg1 & Hg2 & _ & _ & _ & HL & _ & Hc1 & Hc2).
  rewrite !present_entry_of, !entry_of_heap.
  destruct (Dict.get l (get_root h cfg)) as [l'|] eqn:E1; [|by intros [? [=]]].
  cbn [mbind option_bind].
  destruct (Dict.get m (get_lang h l')) as [s'|] eqn:E2; [|by intros [? [=]]].
  intros _.
  assert (l' < length (langs h)) as Hl'.
  { eapply wf_root_refs; [done|]. apply list_elem_of_fmap. exists (l, l').
    split; [done|]. by apply DictFacts.get_elem_of. }
  assert (Dict.get l (get_root h3 cfg) = Some l') as ->.
  { destruct Hc1 as [[-> _]|(-> & Hnone & _)]; [done|].
    rewrite DictFacts.get_set_ne; [done|]. intros ->. congruence. }
  cbn [mbind option_bind].
  assert (Dict.get m (get_lang h3 l') = Some s') as ->; [|done].
  destruct (decide (l' = lref)) as [->|Hne].
  - destruct Hc2 as [[-> _]|(-> & Hnone & _)]; [done|].
    rewrite DictFacts.get_set_ne; [done|]. intros ->. congruence.
  - rewrite (get_lang_eq h h3); [done|]. by apply HL.
Qed.

Lemma entries_ok_heap h r :
  entries_ok (snap h r) ↔
  ∀ kl ks, kl ∈ get_root h r → ks ∈ get_lang h kl.2 → entry_ok (get_setting h ks.2).
Proof.
  unfold entries_ok, snap, snap_root, snap_lang.
  rewrite Forall_fmap, Forall_forall. split.
  - intros H kl ks Hkl Hks. specialize (H kl Hkl). simpl in H.
    rewrite Forall_fmap, Forall_forall in H. exact (H ks Hks).
  - intros H kl Hkl. simpl. rewrite Forall_fmap, Forall_forall.
    intros ks Hks. simpl. by eapply H.
Qed.

Lemma edited_entries_ok h cfg language metric h3 lref sref :
  wf_heap h → edited h cfg language metric h3 lref sref →
  entries_ok (snap h cfg) → entry_ok (get_setting h3 sref) →
  entries_ok (snap h3 cfg).
Proof.
  intros Hwf Hed Hok Hnew. pose proof Hed as (Hg1 & Hg2 & _ & _ & _ & HL & HS & Hc1 & Hc2).
  rewrite entries_ok_heap in Hok |- *. intros kl ks Hkl Hks.
  destruct (decide (ks.2 = sref)) as [->|Hns]; [done|].
  assert (∀ kl', kl' ∈ get_root h cfg → ks ∈ get_lang h kl'.2 →
          entry_ok (get_setting h3 ks.2)) as Hold.
  { intros kl' Hkl' Hks'. rewrite (get_setting_eq h h3); [by eapply Hok|].
    apply HS; [|done]. eapply wf_lang_refs; [done|].
    apply list_elem_of_fmap. by exists ks. }
  destruct (decide (kl.2 = lref)) as [Hl|Hnl].
  - rewrite Hl in Hks.
    assert (ks ∈ get_lang h lref) as Hks'.
    { destruct Hc2 as [[E _]|(E & _)]; rewrite E in Hks; [done|].
      apply DictFacts.elem_of_set in Hks as [->|]; [done|done]. }
    assert (lref < length (langs h)) as Hlt.
    { destruct (decide (lref < length (langs h))) as [|Hge]; [done|].
      rewrite get_lang_dangling in Hks' by lia. by apply elem_of_nil in Hks'. }
    apply (Hold (language, lref)); [|done].
    apply DictFacts.get_elem_of. by eapply edited_lref_old.
  - assert (kl ∈ get_root h cfg) as Hkl'.
    { destruct Hc1 as [[E _]|(E & _)]; rewrite E in Hkl; [done|].
      apply DictFacts.elem_of_set in Hkl as [->|]; [done|done]. }
    apply (Hold kl Hkl'). rewrite <- (get_lang_eq h h3); [done|].
    apply HL; [|done]. eapply wf_root_refs; [done|].
    apply list_elem_of_fmap. by exists kl.
Qed.

(** The assignments leave alone every node allocated between an older
    heap [h0] and [h]: the nodes of a copy taken before them. *)
Lemma edited_frozen h0 h cfg language metric h3 lref sref :
  wf_heap h0 → heap_le h0 h → cfg < length (roots h0) →
  edited h cfg language metric h3 lref sref →
  (∀ i, length (roots h0) ≤ i → roots h3 !! i = roots h !! i) ∧
  (∀ i, length (langs h0) ≤ i < length (langs h) → langs h3 !! i = langs h !! i) ∧
  (∀ i, length (settings h0) ≤ i < length (settings h) →
     settings h3 !! i = settings h !! i).
Proof.
  intros Hwf0 Hle Hcfg Hed.
  pose proof Hed as (Hg1 & Hg2 & _ & _ & HR & HL & HS & Hc1 & Hc2).
  assert (lref < length (langs h) → lref < length (langs h0)) as Hlref.
  { intros Hlt. pose proof (edited_lref_old _ _ _ _ _ _ _ Hed Hlt) as Hget.
    rewrite (get_root_le h0 h) in Hget by done.
    eapply wf_root_refs; [done|]. apply list_elem_of_fmap. exists (language, lref).
    split; [done|]. by apply DictFacts.get_elem_of. }
  assert (sref < length (settings h) → sref < length (settings h0)) as Hsref.
  { intros Hlt. destruct (edited_sref_old _ _ _ _ _ _ _ Hed Hlt) as [Hlt' Hget].
    rewrite (get_lang_le h0 h) in Hget by auto.
    eapply wf_lang_refs; [done|]. apply list_elem_of_fmap. exists (metric, sref).
    split; [done|]. by apply DictFacts.get_elem_of. }
  split_and!.
  - intros i Hi. apply HR. lia.
  - intros i Hi. apply HL; [lia|]. intros ->. specialize (Hlref ltac:(lia)). lia.
  - intros i Hi. apply HS; [lia|]. intros ->. specialize (Hsref ltac:(lia)). lia.
Qed.

Lemma dict_get_selected {V} (f : string * V → list (string * string * setting))
    (k : string) (v : V) (d : list (string * V)) (filter : string → bool) g :
  (∀ x, f x = if filter x.1 then g x else []) →
  filter k = true → (∀ k', k' ≠ k → filter k' = false) →
  Dict.get k d = Some v → ∃ rest, d ≫= f = g (k, v) ++ rest.
Proof.
  intros Hf Hk Hother. induction d as [|[k0 v0] d IH]; [done|].
  cbn [Dict.get]. destruct (String.eqb_spec k k0) as [->|Hne].
  - intros [= ->]. rewrite bind_cons, Hf. cbn [fst]. rewrite Hk. eauto.
  - intros H. destruct (IH H) as [rest Hrest]. exists rest.
    rewrite bind_cons, Hf. cbn [fst]. by rewrite (Hother k0) by done.
Qed.

Lemma wanted_refl filter : wanted filter filter = true.
Proof. unfold wanted. by rewrite String.eqb_refl, orb_true_r. Qed.

Lemma wanted_other filter name :
  filter ≠ "all" → name ≠ filter → wanted filter name = false.
Proof.
  intros H1 H2. unfold wanted.
  by rewrite (proj2 (String.eqb_neq _ _) H1), (proj2 (String.eqb_neq _ _) H2).
Qed.

(** With both filters set, the entry of the key is the first one validated. *)
Lemma selected_head language metric t st :
  language ≠ "all" → metric ≠ "all" →
  entry_of t language metric = Some st →
  ∃ rest, selected language metric t = (language, metric, st) :: rest.
Proof.
  intros Hl Hm. unfold entry_of.
  destruct (Dict.get language t) as [ms|] eqn:E1; [|done]. simpl. intros E2.
  destruct (dict_get_selected
              (λ y : string * setting,
                 if wanted metric y.1 then [(language, y.1, y.2)] else [])
              metric st ms (wanted metric) (λ y, [(language, y.1, y.2)]))
    as [rest1 H1]; [done|apply wanted_refl|by intros; apply wanted_other|done|].
  destruct (dict_get_selected
              (λ x : string * list (string * setting),
                 if wanted language x.1 then selected_metrics metric x.1 x.2 else [])
              language ms t (wanted language) (λ x, selected_metrics metric x.1 x.2))
    as [rest2 H2]; [done|apply wanted_refl|by intros; apply wanted_other|done|].
  unfold selected. rewrite H2. unfold selected_metrics. simpl. rewrite H1.
  simpl. eauto.
Qed.

Lemma entry_error_exn w x e :
  entry_error w x = Some e → is_ValueError_or_KeyError e = true ∨ e = RequestException.
Proof.
  destruct x as [[lang m] st]. unfold entry_error, check_model_availability.
  destruct (Dict.get "model_name" st); [|intros [= <-]; by left].
  destruct (Dict.get "loader_func" st); [|intros [= <-]; by left].
  destruct (negb _); [intros [= <-]; by left|].
  destruct (http_get w _) as [code|]; [|intros [= <-]; by right].
  destruct (Z.eqb code 200); [done|intros [= <-]; by left].
Qed.

Lemma first_error_exn w xs e :
  first_error w xs = Some e → is_ValueError_or_KeyError e = true ∨ e = RequestException.
Proof.
  intros (pre & x & post & _ & _ & Hx)%first_error_Some. by eapply entry_error_exn.
Qed.

Lemma entry_error_entry_ok w x :
  entry_error w x = None ∨ entry_error w x = Some RequestException → entry_ok x.2.
Proof.
  destruct x as [[lang m] st]. unfold entry_error, entry_ok. cbn [snd].
  destruct (Dict.get "model_name" st); [|by intros [|]].
  destruct (Dict.get "loader_func" st) as [f|]; [|by intros [|]].
  destruct (str_in f VALID_LOADER_FUNCTION) eqn:E; cbn [negb]; [|by intros [|]].
  intros _. split; [done|]. exists f. split; [done|]. by apply str_in_true.
Qed.

(** ** The setter: commit or rollback *)

Lemma valid_language_not_all language : language ∈ VALID_LANGUAGE → language ≠ "all".
Proof.
  intros H ->. assert ("all" ∉ VALID_LANGUAGE) as Hn by (by apply str_in_false). done.
Qed.

Lemma valid_metric_not_all metric : metric ∈ VALID_METRICS → metric ≠ "all".
Proof.
  intros H ->. assert ("all" ∉ VALID_METRICS) as Hn by (by apply str_in_false). done.
Qed.

Lemma updated_entry_model_name old mn lf kwargs :
  Dict.get "model_name" (updated_entry old mn lf kwargs) = Some mn.
Proof.
  unfold updated_entry.
  destruct (truthy_str (Dict.get "tokenizer_name" kwargs)),
    (truthy_str (Dict.get "model_revision" kwargs));
    rewrite ?DictFacts.get_set_ne by done; apply DictFacts.get_set_eq.
Qed.

Lemma updated_entry_loader_func old mn lf kwargs :
  Dict.get "loader_func" (updated_entry old mn lf kwargs) = Some lf.
Proof.
  unfold updated_entry.
  destruct (truthy_str (Dict.get "tokenizer_name" kwargs)),
    (truthy_str (Dict.get "model_revision" kwargs));
    rewrite ?DictFacts.get_set_ne by done; apply DictFacts.get_set_eq.
Qed.

Lemma set_model_try_guard w language metric mn lf kwargs s :
  language ∉ VALID_LANGUAGE ∨ metric ∉ VALID_METRICS →
  ∃ msg, set_model_try w language metric mn lf kwargs s = (Raise (KeyError msg), s).
Proof.
  unfold set_model_try.
  destruct (str_in language VALID_LANGUAGE) eqn:El; cbn [negb]; [|by eauto].
  destruct (str_in metric VALID_METRICS) eqn:Em; cbn [negb]; [|by eauto].
  apply str_in_true in El, Em. by intros [|].
Qed.

(** The two ways a call of the setter ends.  Either it raises a
    [KeyError] or a [ValueError] and the configuration reads as before the
    call; or it returns, or the request to the hub fails, and the entry of
    the key is the updated one, every other key is kept, and the new entry
    names its model and a registered loader. *)
Lemma set_model_for_metric_outcome w language metric mn lf kwargs s r :
  wf_state s →
  set_model_for_metric w language metric mn lf kwargs s = r →
  cache r.2 = cache s ∧ calls r.2 = calls s ∧ wf_state r.2 ∧
  ((∃ e, r.1 = Raise e ∧ is_ValueError_or_KeyError e = true) ∧
   config_of r.2 = config_of s
   ∨
   (r.1 = Ok PyNone ∨ r.1 = Raise RequestException) ∧
   language ∈ VALID_LANGUAGE ∧ metric ∈ VALID_METRICS ∧
   self_config r.2 = self_config s ∧
   entry_of (config_of r.2) language metric
     = Some (updated_entry (default [] (entry_of (config_of s) language metric))
               mn lf kwargs) ∧
   (entry_error w (language, metric,
        updated_entry (default [] (entry_of (config_of s) language metric)) mn lf kwargs)
      = None ∨
    entry_error w (language, metric,
        updated_entry (default [] (entry_of (config_of s) language metric)) mn lf kwargs)
      = Some RequestException) ∧
   (entries_ok (config_of s) → entries_ok (config_of r.2)) ∧
   (∀ l m, present (config_of s) l m → present (config_of r.2) l m)).
Proof.
  intros Hwfs <-. pose proof Hwfs as [Hwf Hcfg]. unfold set_model_for_metric.
  destruct (deepcopy (heap_of s) (self_config s)) as [h0 copy] eqn:Ed.
  destruct (deepcopy_spec _ _ _ _ Ed)
    as (Hle0 & Hcopy & Hrlen0 & Hsnap0 & Hlrefs0 & Hsrefs0 & Hwf0).
  specialize (Hwf0 Hwf). unfold config_of in *.
  set (h := heap_of s) in *. set (cfg := self_config s) in *.
  assert (wf_state (with_heap s h0)) as Hwfs0.
  { split; simpl; [done|]. fold cfg. lia. }
  assert (snap h0 cfg = snap h cfg) as Hsnapcfg by (by apply snap_le).
  assert (wf_state (with_config (with_heap s h0) copy)) as Hwfcopy.
  { split; simpl; [done|]. lia. }
  destruct (decide (language ∈ VALID_LANGUAGE ∧ metric ∈ VALID_METRICS))
    as [[Hl Hm]|Hguard].
  2:{ destruct (set_model_try_guard w language metric mn lf kwargs (with_heap s h0))
        as [msg ->]; [apply not_and_l in Hguard; tauto|].
      cbn [is_ValueError_or_KeyError fst snd]. split_and!; try done. left.
      split; [by eauto|done]. }
  destruct (set_model_try_spec w language metric mn lf kwargs (with_heap s h0)
              Hwfs0 Hl Hm) as (h3 & lref & sref & Hed & Hentry & ->).
  cbn [heap_of self_config with_heap] in Hed, Hentry |- *. fold cfg in Hed |- *.
  unfold config_of in Hentry. cbn [heap_of self_config with_heap] in Hentry.
  fold cfg in Hentry. rewrite Hsnapcfg in Hentry.
  set (entry := updated_entry _ mn lf kwargs) in *.
  destruct (validate_config_spec w cfg language metric h3) as (Hres & Hle35 & Hwf5).
  pose proof Hed as (_ & _ & Hwf3 & Hrlen3 & _).
  specialize (Hwf5 Hwf3).
  destruct (validate_config w cfg language metric h3) as [res h5].
  cbn [fst snd] in Hres, Hle35, Hwf5 |- *.
  assert (length (roots h3) ≤ length (roots h5)) as Hrlen5
    by (apply prefix_length, Hle35).
  assert (entry_of (snap h3 cfg) language metric = Some entry) as Hentry3
    by (by rewrite (edited_entry _ _ _ _ _ _ _ Hed), Hentry).
  destruct (selected_head language metric (snap h3 cfg) entry) as [rest Hsel];
    [by apply valid_language_not_all|by apply valid_metric_not_all|done|].
  rewrite Hsel in Hres.
  assert (snap h5 cfg = snap h3 cfg) as Hsnap5 by (apply snap_le; [done|lia|done]).
  (* the configuration after a commit *)
  assert (entry_error w (language, metric, entry) = None ∨
          entry_error w (language, metric, entry) = Some RequestException →
          self_config (with_heap s h5) = cfg ∧
          entry_of (snap h5 cfg) language metric = Some entry ∧
          (entries_ok (snap h cfg) → entries_ok (snap h5 cfg)) ∧
          (∀ l m, present (snap h cfg) l m → present (snap h5 cfg) l m)) as Hcommit.
  { intros Hok. rewrite Hsnap5, <- Hsnapcfg. split_and!; try done.
    - intros Hinv. eapply edited_entries_ok; [exact Hwf0|exact Hed|done|].
      rewrite Hentry. by apply (entry_error_entry_ok w (language, metric, entry)).
    - intros l m. by eapply edited_present. }
  (* the configuration after a rollback *)
  assert (snap h5 copy = snap h cfg) as Hrollback.
  { rewrite <- Hsnap0.
    destruct (edited_frozen h h0 cfg language metric h3 lref sref)
      as (HfR & HfL & HfS); [done..|].
    assert (length (langs h) ≤ length (langs h0)) by (apply prefix_length, Hle0).
    assert (length (settings h) ≤ length (settings h0)) by (apply prefix_length, Hle0).
    apply snap_agree.
    - rewrite (get_root_le h3 h5) by (done || lia). apply get_root_eq, HfR. lia.
    - intros l Hl'. rewrite Hlrefs0 in Hl'. apply elem_of_seq in Hl'.
      assert (langs h3 !! l = langs h0 !! l) as E by (apply HfL; lia).
      rewrite (get_lang_le h3 h5); [by apply get_lang_eq|done|].
      destruct (lookup_lt_is_Some_2 (langs h0) l ltac:(lia)) as [x Hx].
      rewrite Hx in E. by eapply lookup_lt_Some.
    - intros i Hi. rewrite Hsrefs0 in Hi. apply elem_of_seq in Hi.
      assert (settings h3 !! i = settings h0 !! i) as E by (apply HfS; lia).
      rewrite (get_setting_le h3 h5); [by apply get_setting_eq|done|].
      destruct (lookup_lt_is_Some_2 (settings h0) i ltac:(lia)) as [x Hx].
      rewrite Hx in E. by eapply lookup_lt_Some. }
  assert (wf_state (with_heap (with_heap s h0) h5)) as Hwfs5
    by (split; simpl; [done|fold cfg; lia]).
  assert (wf_state (with_config (with_heap (with_heap s h0) h5) copy)) as Hwfs5'
    by (split; simpl; [done|lia]).
  destruct (entry_error w (language, metric, entry)) as [e|] eqn:Ee.
  - rewrite (first_error_cons_Some _ _ _ _ Ee) in Hres. subst res.
    cbn [result_of]. cbv beta iota.
    destruct (entry_error_exn _ _ _ Ee) as [Hcaught| ->].
    + rewrite Hcaught. cbn [fst snd]. split_and!; try done. left.
      split; [by eauto|done].
    + cbn [is_ValueError_or_KeyError fst snd]. split_and!; try done. right.
      destruct Hcommit as (? & ? & ? & ?); [by right|]. split_and!; auto.
  - rewrite (first_error_cons_None _ _ _ Ee) in Hres. subst res.
    destruct (first_error w rest) as [e|] eqn:Er; cbn [result_of]; cbv beta iota.
    + destruct (first_error_exn _ _ _ Er) as [Hcaught| ->].
      * rewrite Hcaught. cbn [fst snd]. split_and!; try done. left.
        split; [by eauto|done].
      * cbn [is_ValueError_or_KeyError fst snd]. split_and!; try done. right.
        destruct Hcommit as (? & ? & ? & ?); [by left|]. split_and!; auto.
    + cbn [fst snd]. split_and!; try done. right.
      destruct Hcommit as (? & ? & ? & ?); [by left|]. split_and!; auto.
Qed.

(** The call with keyword arguments: a missing or doubled argument is a
    [TypeError] before the body runs. *)
Lemma call_set_outcome w language metric conf s r :
  wf_state s →
  call_set_model_for_metric w language metric conf s = r →
  cache r.2 = cache s ∧ calls r.2 = calls s ∧ wf_state r.2 ∧
  ((∃ e, r.1 = Raise e ∧ e ≠ RequestException) ∧ config_of r.2 = config_of s
   ∨
   ∃ mn lf,
     Dict.get "model_name" conf = Some mn ∧ Dict.get "loader_func" conf = Some lf ∧
     (r.1 = Ok PyNone ∨ r.1 = Raise RequestException) ∧
     language ∈ VALID_LANGUAGE ∧ metric ∈ VALID_METRICS ∧
     self_config r.2 = self_config s ∧
     entry_of (config_of r.2) language metric
       = Some (updated_entry (default [] (entry_of (config_of s) language metric))
                 mn lf (kwargs_of conf)) ∧
     (entry_error w (language, metric,
          updated_entry (default [] (entry_of (config_of s) language metric))
            mn lf (kwargs_of conf)) = None ∨
      entry_error w (language, metric,
          updated_entry (default [] (entry_of (config_of s) language metric))
            mn lf (kwargs_of conf)) = Some RequestException) ∧
     (entries_ok (config_of s) → entries_ok (config_of r.2)) ∧
     (∀ l m, present (config_of s) l m → present (config_of r.2) l m)).
Proof.
  intros Hwf <-. unfold call_set_model_for_metric.
  destruct (_ || _).
  { split_and!; try done. left. split; [|done]. eexists. split; [reflexivity|discriminate]. }
  destruct (Dict.get "model_name" conf) as [mn|].
  2:{ split_and!; try done. left. split; [|done]. eexists. split; [reflexivity|discriminate]. }
  destruct (Dict.get "loader_func" conf) as [lf|].
  2:{ split_and!; try done. left. split; [|done]. eexists. split; [reflexivity|discriminate]. }
  destruct (set_model_for_metric_outcome w language metric mn lf (kwargs_of conf) s _
              Hwf eq_refl) as (Hc & Hl & Hw & [[(e & He & Hcaught) Hcfg]|Hcommit]).
  - split_and!; try done. left. split; [|done]. exists e. split; [done|].
    intros ->. done.
  - split_and!; try done. right. exists mn, lf.
    destruct Hcommit as (?&?&?&?&?&?&?&?). by split_and!.
Qed.

(** ** The invariant *)

Lemma inv_init : inv init_state.
Proof.
  split; [|split].
  - split; simpl; [|lia]. split; simpl; repeat constructor.
  - constructor.
  - intros l m x H. by apply elem_of_nil in H.
Qed.

Lemma call_set_inv w language metric conf s :
  inv s → inv (call_set_model_for_metric w language metric conf s).2.
Proof.
  intros (Hwf & Hok & Hcache).
  destruct (call_set_outcome w language metric conf s _ Hwf eq_refl)
    as (Hc & Hl & Hw & [[_ Hcfg]|(mn & lf & _ & _ & _ & _ & _ & _ & _ & _ & Hok' & Hpres)]).
  - split; [done|]. unfold cache_in_config. rewrite Hcfg, Hc. by split.
  - split; [done|]. split; [by auto|]. unfold cache_in_config. rewrite Hc.
    intros l m x Hin. by eapply Hpres, Hcache.
Qed.

Lemma fetch_model_wrapped_config w language metric s :
  wf_state s →
  wf_state (fetch_model_wrapped w language metric s).2 ∧
  config_of (fetch_model_wrapped w language metric s).2 = config_of s.
Proof.
  intros [Hwf Hcfg].
  destruct (fetch_model_wrapped_frame w language metric s)
    as (Hptr & _ & Hle & Hwf' & Hlen).
  split.
  - split; [by apply Hwf'|]. by rewrite Hptr, Hlen.
  - unfold config_of. rewrite Hptr. by apply snap_le.
Qed.

Lemma fetch_model_inv w language metric s :
  inv s → inv (fetch_model w language metric s).2.
Proof.
  intros (Hwf & Hok & Hcache). unfold fetch_model.
  destruct (cache_get (language, metric) (cache s)) as [m|] eqn:Eg.
  - split; [done|]. split; [done|]. intros l m' x. cbn [snd with_cache cache].
    intros [[= -> -> ->]|Hin]%elem_of_cons.
    + eapply Hcache. by apply cache_get_elem_of.
    + eapply Hcache. by eapply cache_del_subseteq.
  - destruct (fetch_model_wrapped_config w language metric s Hwf) as [Hwf' Hcfg].
    pose proof (fetch_model_wrapped_frame w language metric s) as (_ & Hc & _).
    destruct (fetch_model_wrapped w language metric s) as [[m|e] s'] eqn:Ef;
      cbn [fst snd] in *.
    + split; [done|]. split; [unfold config_of in *; simpl; by rewrite Hcfg|].
      intros l m' x. cbn [with_cache cache]. unfold config_of. simpl.
      fold (config_of s'). rewrite Hcfg.
      intros Hin.
      assert ((l, m', x) ∈ (language, metric, m) :: cache s') as Hy
        by (apply (subseteq_take maxsize); exact Hin).
      clear Hin. apply elem_of_cons in Hy as [[= -> -> ->]|Hin].
      * apply present_entry_of.
        destruct (fetch_model_wrapped_Ok _ _ _ _ _ _ Ef) as (entry & _ & _ & -> & _).
        by eexists.
      * eapply Hcache. by rewrite <- Hc.
    + split; [done|]. split; [by rewrite Hcfg|].
      unfold cache_in_config. rewrite Hcfg, Hc. done.
Qed.

Lemma validate_config_inv w language metric s :
  inv s →
  inv (with_heap s (validate_config w (self_config s) language metric (heap_of s)).2).
Proof.
  intros ([Hwf Hcfg] & Hok & Hcache).
  destruct (validate_config_spec w (self_config s) language metric (heap_of s))
    as (_ & Hle & Hwf').
  assert (config_of (with_heap s (validate_config w (self_config s) language metric
                                    (heap_of s)).2) = config_of s) as Hsame
    by (by apply snap_le).
  split; [|split].
  - split; [by apply Hwf'|]. simpl.
    eapply Nat.lt_le_trans; [exact Hcfg|]. apply prefix_length, Hle.
  - by rewrite Hsame.
  - unfold cache_in_config. by rewrite Hsame.
Qed.

Lemma reachable_inv s : reachable s → inv s.
Proof.
  induction 1 as [|w o s _ IH]; [apply inv_init|].
  destruct o;
    [by apply call_set_inv|by apply fetch_model_inv|by apply validate_config_inv].
Qed.

(** Loading a configuration file is a history of the manager. *)
Lemma load_metrics_reachable w lang lang_conf : ∀ s,
  reachable s → reachable (load_metrics w lang lang_conf s).2.
Proof.
  induction lang_conf as [|[metric_name metric_conf] rest IH]; intros s Hs; [done|].
  cbn [load_metrics].
  pose proof (reachable_step w (OpSet lang metric_name metric_conf) s Hs) as Hs'.
  cbn [run_op] in Hs'.
  destruct (call_set_model_for_metric w lang metric_name metric_conf s) as [[v|e] s'];
    [by apply IH|done].
Qed.

Lemma load_config_reachable w conf : ∀ s,
  reachable s → reachable (load_config w conf s).2.
Proof.
  induction conf as [|[lang lang_conf] rest IH]; intros s Hs; [done|].
  cbn [load_config].
  pose proof (load_metrics_reachable w lang lang_conf s Hs) as Hs'.
  destruct (load_metrics w lang lang_conf s) as [[v|e] s']; [by apply IH|done].
Qed.

Lemma init_reachable w conf : reachable (init w conf).2.
Proof. apply load_config_reachable, reachable_init. Qed.

(** ** The memo *)

Lemma loader_map_valid f :
  f ∈ VALID_LOADER_FUNCTION → is_Some (Dict.get f LOADER_MAP).
Proof.
  unfold VALID_LOADER_FUNCTION. intros (kl & -> & Hkl)%list_elem_of_fmap.
  unfold LOADER_MAP in *.
  repeat (apply elem_of_cons in Hkl as [->|Hkl]; [by eexists|]).
  by apply elem_of_nil in Hkl.
Qed.

Lemma entries_ok_entry_of t language metric entry :
  entries_ok t → entry_of t language metric = Some entry → entry_ok entry.
Proof.
  unfold entries_ok, entry_of. rewrite Forall_forall. intros Hok.
  destruct (Dict.get language t) as [ms|] eqn:E1; [|done]. simpl. intros E2.
  apply DictFacts.get_elem_of in E1, E2. specialize (Hok _ E1). simpl in Hok.
  rewrite Forall_forall in Hok. exact (Hok _ E2).
Qed.

(** A valid entry whose loader returns a model is fetched. *)
Lemma fetch_model_wrapped_returns w language metric s entry :
  entry_of (config_of s) language metric = Some entry → entry_ok entry →
  (∀ ld kwargs, loader_returns w ld kwargs = true) →
  ∃ s', fetch_model_wrapped w language metric s = (Ok (length (calls s)), s') ∧
        length (calls s') = S (length (calls s)).
Proof.
  unfold fetch_model_wrapped, config_of. rewrite entry_of_heap.
  destruct (Dict.get language _) as [lref|]; [|done]. cbn [mbind option_bind].
  destruct (Dict.get metric _) as [sref|]; [|done]. cbn [mbind option_bind].
  intros [= <-] [_ (f & Hf & Hvalid)] Hw.
  cbv beta iota zeta delta [deepcopy_setting pop new_setting].
  set (h := heap_of s) in *. set (h1 := Heap _ _ _).
  assert (get_setting h1 (length (settings h)) = get_setting h sref) as Hd.
  { apply get_setting_lookup. simpl. by apply list_lookup_middle. }
  rewrite Hd, Hf. cbv beta iota.
  destruct (loader_map_valid f Hvalid) as [ld ->]. rewrite Hw.
  eexists. split; [done|]. simpl. rewrite length_app. simpl. lia.
Qed.

Lemma fetch_model_wrapped_no_language w language metric s :
  Dict.get language (config_of s) = None →
  fetch_model_wrapped w language metric s
  = (Raise (KeyError ("Language " +:+ language +:+ " not supported yet")), s).
Proof.
  unfold config_of, snap, snap_root, fetch_model_wrapped. rewrite DictFacts.get_fmap.
  by destruct (Dict.get language _).
Qed.

Lemma fetch_model_wrapped_no_metric w language metric s ms :
  Dict.get language (config_of s) = Some ms → Dict.get metric ms = None →
  fetch_model_wrapped w language metric s
  = (Raise (KeyError ("Metric " +:+ metric +:+ " not supported yet.")), s).
Proof.
  unfold config_of, snap, snap_root, fetch_model_wrapped. rewrite DictFacts.get_fmap.
  destruct (Dict.get language _) as [lref|]; [|done]. simpl. intros [= <-].
  unfold snap_lang. rewrite DictFacts.get_fmap.
  by destruct (Dict.get metric _).
Qed.

(** A call that returns leaves its result at the front of the memo. *)
Lemma fetch_model_memo w language metric s m s1 :
  fetch_model w language metric s = (Ok m, s1) →
  cache_get (language, metric) (cache s1) = Some m.
Proof.
  unfold fetch_model.
  destruct (cache_get (language, metric) (cache s)) as [m0|].
  - intros [= <- <-]. apply cache_get_head.
  - destruct (fetch_model_wrapped w language metric s) as [[m0|e] s']; [|done].
    intros [= <- <-]. apply cache_get_head.
Qed.

(** A call served from the memo touches nothing but the order of the memo. *)
Lemma fetch_model_hit w language metric s m :
  cache_get (language, metric) (cache s) = Some m →
  fetch_model w language metric s
  = (Ok m, with_cache s ((language, metric, m) :: cache_del (language, metric) (cache s))).
Proof. unfold fetch_model. by intros ->. Qed.

(** The setter never reaches [cache_clear]: [validate_config] returns
    [None], which is not true. *)
Lemma set_model_try_cache w language metric mn lf kwargs s :
  cache (set_model_try w language metric mn lf kwargs s).2 = cache s.
Proof.
  unfold set_model_try.
  destruct (negb _); [done|]. destruct (negb _); [done|].
  destruct (Dict.get language _); [|done].
  destruct (Dict.get metric _); [|done].
  by destruct (validate_config _ _ _ _ _) as [[[]|] ?].
Qed.

Lemma call_set_cache w language metric conf s :
  cache (call_set_model_for_metric w language metric conf s).2 = cache s.
Proof.
  unfold call_set_model_for_metric. destruct (_ || _); [done|].
  destruct (Dict.get "model_name" conf); [|done].
  destruct (Dict.get "loader_func" conf); [|done].
  unfold set_model_for_metric. destruct (deepcopy _ _) as [h0 copy].
  pose proof (set_model_try_cache w language metric s0 s1 (kwargs_of conf)
                (with_heap s h0)) as H.
  destruct (set_model_try _ _ _ _ _ _ _) as [[v|e] s']; [done|].
  by destruct (is_ValueError_or_KeyError e).
Qed.

Lemma entry_error_hub w language metric entry mn code :
  entry_error w (language, metric, entry) = None ∨
  entry_error w (language, metric, entry) = Some RequestException →
  Dict.get "model_name" entry = Some mn →
  http_get w (model_url mn (Dict.get "revision" entry)) = Response code →
  code = 200%Z.
Proof.
  unfold entry_error, check_model_availability. intros H Hmn Hhub.
  rewrite Hmn in H.
  destruct (Dict.get "loader_func" entry); [|by destruct H].
  destruct (negb _); [by destruct H|]. rewrite Hhub in H.
  destruct (Z.eqb_spec code 200); [done|by destruct H].
Qed.

(** * Properties of the specification *)

(** C1.  A valid setting for a supported key is written to the store, but
    the memo is not cleared: a manager that has loaded the model of
    [("zh", "toxicity")] and is then given another model and loader for
    that key keeps the memoised instance, and the next [fetch_model]
    returns it, the instance the sequence-to-sequence loader created for
    the old model, without running any loader. *)
Theorem set_model_keeps_memo :
  (call_set_model_for_metric hub_up "zh" "toxicity" conf_embed s_loaded).1 = Ok PyNone ∧
  entry_of (config_of s_reset) "zh" "toxicity"
    = Some [("loader_func", "load_sentence_transformers");
            ("model_name", "BAAI/bge-base-zh-v1.5"); ("revision", "f03589c")] ∧
  cache s_loaded = [("zh", "toxicity", 0)] ∧
  cache s_reset = [("zh", "toxicity", 0)] ∧
  (fetch_model hub_up "zh" "toxicity" s_reset).1 = Ok 0 ∧
  calls (fetch_model hub_up "zh" "toxicity" s_reset).2
    = [(load_auto_model_for_seq2seq, [("model_name", "Helsinki-NLP/opus-mt-zh-en")])].
Proof. vm_compute. by split_and!. Qed.

(** C2.  A call of the setter that is rejected for one of the listed
    reasons (unsupported language, unsupported metric, missing
    [model_name] or [loader_func], unsupported loader function, a model
    and revision the hub does not have) raises an error, and the
    configuration reads after the call exactly as it read before. *)
Theorem set_failure_rolls_back w s language metric metric_conf :
  wf_state s →
  set_rejected w s language metric metric_conf →
  ∃ e, (call_set_model_for_metric w language metric metric_conf s).1 = Raise e ∧
       config_of (call_set_model_for_metric w language metric metric_conf s).2
       = config_of s.
Proof.
  intros Hwf Hrej.
  destruct (call_set_outcome w language metric metric_conf s _ Hwf eq_refl)
    as (_ & _ & _ & [[(e & He & _) Hcfg]|Hcommit]); [by exists e|].
  exfalso.
  destruct Hcommit as (mn & lf & Hmn & Hlf & _ & Hl & Hm & _ & _ & Herr & _).
  pose proof (entry_error_entry_ok _ _ Herr) as [_ (f' & Hf' & Hvalid)].
  cbn [snd] in Hf'. rewrite updated_entry_loader_func in Hf'. injection Hf' as <-.
  destruct Hrej as [?|[?|[?|[?|[(f & Hf & Hnf)|(mn' & lf' & code & Hmn' & Hlf' & Hhub & Hcode)]]]]];
    try done; try congruence.
  rewrite Hmn in Hmn'. rewrite Hlf in Hlf'. injection Hmn' as <-. injection Hlf' as <-.
  apply Hcode. eapply entry_error_hub; [exact Herr| |exact Hhub].
  apply updated_entry_model_name.
Qed.

Lemma set_failure_rolls_back_witness :
  ∃ e, (call_set_model_for_metric hub_up "zh" "toxicity" conf_bad_loader init_state).1
       = Raise e ∧
       config_of (call_set_model_for_metric hub_up "zh" "toxicity" conf_bad_loader
                    init_state).2
       = config_of init_state.
Proof.
  apply set_failure_rolls_back.
  - split; [split; repeat constructor|simpl; lia].
  - do 4 right. left. exists "load_pickle". split; [reflexivity|].
    apply str_in_false. reflexivity.
Defined.

(** The [except] clause names [ValueError] and [KeyError] only: when the
    request to the hub itself fails, the exception leaves the setter with
    the new entry in place. *)
Lemma set_request_failure_commits :
  (call_set_model_for_metric hub_down "zh" "toxicity" conf_seq2seq init_state).1
  = Raise RequestException ∧
  config_of (call_set_model_for_metric hub_down "zh" "toxicity" conf_seq2seq init_state).2
  = [("zh", [("toxicity", [("loader_func", "load_auto_model_for_seq2seq");
                           ("model_name", "Helsinki-NLP/opus-mt-zh-en")])])].
Proof. vm_compute. by split. Qed.

(** C3.  [validate_config] raises if and only if an entry that the
    language and metric filters select lacks a [model_name], lacks a
    [loader_func], names a loader outside the three registered ones, or
    names a model and revision that the hub does not resolve; when it
    raises, the error is that of the first selected entry, in iteration
    order, with such a violation; and it returns [None] exactly when every
    selected entry meets the four conditions. *)
Theorem validate_config_raises_iff w config language metric h :
  ((∃ e, (validate_config w config language metric h).1 = Raise e) ↔
   Exists (λ x, violates w x.2) (selected language metric (snap h config))) ∧
  (∀ e, (validate_config w config language metric h).1 = Raise e →
     ∃ pre x post,
       selected language metric (snap h config) = pre ++ x :: post ∧
       Forall (λ y, ¬ violates w y.2) pre ∧ violates w x.2 ∧
       entry_error w x = Some e) ∧
  ((validate_config w config language metric h).1 = Ok PyNone ↔
   Forall (λ x, ¬ violates w x.2) (selected language metric (snap h config))).
Proof.
  destruct (validate_config_spec w config language metric h) as (-> & _).
  set (xs := selected language metric (snap h config)).
  split_and!.
  - split.
    + intros [e He]. destruct (first_error w xs) as [e'|] eqn:E; [|done].
      apply first_error_Some in E as (pre & x & post & -> & _ & Hx).
      apply Exists_app. right. left. apply entry_error_Some. by eexists.
    + intros Hex. destruct (first_error w xs) as [e'|] eqn:E; [by eexists|].
      apply first_error_None in E. rewrite Forall_forall in E.
      apply Exists_exists in Hex as (x & Hin & Hx). by destruct (E x Hin).
  - intros e He. destruct (first_error w xs) as [e'|] eqn:E; [|done].
    injection He as ->.
    apply first_error_Some in E as (pre & x & post & Hxs & Hpre & Hx).
    exists pre, x, post. split_and!; try done. apply entry_error_Some. by eexists.
  - rewrite <- first_error_None. by destruct (first_error w xs).
Qed.

Lemma validate_config_raises_iff_witness :
  ∃ e, (validate_config hub_404 (self_config s_set) "all" "all" (heap_of s_set)).1
       = Raise e.
Proof.
  apply (proj1 (validate_config_raises_iff hub_404 (self_config s_set) "all" "all"
                  (heap_of s_set))).
  apply Exists_exists.
  exists ("zh", "toxicity",
          [("loader_func", "load_auto_model_for_seq2seq");
           ("model_name", "Helsinki-NLP/opus-mt-zh-en")]).
  split; [vm_compute; left|].
  do 3 right. exists "Helsinki-NLP/opus-mt-zh-en". split; [reflexivity|].
  vm_compute. discriminate.
Defined.

(** C4.  For a key of the configuration whose loader returns a model, two
    consecutive calls of [fetch_model] with the same arguments return the
    same instance; the second call runs no loader, the two together run at
    most one, and the configuration is as before. *)
Theorem fetch_model_twice w1 w2 language metric s :
  reachable s →
  present (config_of s) language metric →
  (∀ ld kwargs, loader_returns w1 ld kwargs = true) →
  ∃ m s1 s2,
    fetch_model w1 language metric s = (Ok m, s1) ∧
    fetch_model w2 language metric s1 = (Ok m, s2) ∧
    calls s2 = calls s1 ∧
    length (calls s2) ≤ S (length (calls s)) ∧
    config_of s2 = config_of s.
Proof.
  intros (Hwf & Hok & _)%reachable_inv Hpres Hw.
  assert (∃ m s1, fetch_model w1 language metric s = (Ok m, s1) ∧
                  length (calls s1) ≤ S (length (calls s)) ∧
                  config_of s1 = config_of s) as (m & s1 & H1 & Hcalls & Hcfg).
  { unfold fetch_model.
    destruct (cache_get (language, metric) (cache s)) as [m|]; [by eauto 10|].
    apply present_entry_of in Hpres as [entry Hentry].
    destruct (fetch_model_wrapped_returns w1 language metric s entry Hentry)
      as (s' & Hs' & Hlen); [by eapply entries_ok_entry_of|done|].
    destruct (fetch_model_wrapped_config w1 language metric s Hwf) as [_ Hcfg].
    rewrite Hs' in Hcfg |- *. eexists _, _. split; [done|]. split; [simpl; lia|done]. }
  exists m, s1, (with_cache s1
                   ((language, metric, m) :: cache_del (language, metric) (cache s1))).
  split; [done|]. split; [|by split_and!].
  apply fetch_model_hit. by eapply fetch_model_memo.
Qed.

Lemma fetch_model_twice_witness :
  ∃ m s1 s2,
    fetch_model hub_up "zh" "toxicity" s_set = (Ok m, s1) ∧
    fetch_model hub_404 "zh" "toxicity" s1 = (Ok m, s2) ∧
    calls s2 = calls s1 ∧
    length (calls s2) ≤ S (length (calls s_set)) ∧
    config_of s2 = config_of s_set.
Proof.
  apply fetch_model_twice.
  - exact (reachable_step hub_up (OpSet "zh" "toxicity" conf_seq2seq) _ reachable_init).
  - eexists. split; [reflexivity|]. eexists. reflexivity.
  - intros ld kwargs. reflexivity.
Defined.

(** C5.  [fetch_model] for a language that the configuration does not
    have, or for a metric that the configuration does not have under that
    language, raises a [KeyError]; the state of the manager is unchanged,
    so no loader has run. *)
Theorem fetch_model_unknown_key w language metric s :
  reachable s →
  (Dict.get language (config_of s) = None →
   fetch_model w language metric s
   = (Raise (KeyError ("Language " +:+ language +:+ " not supported yet")), s)) ∧
  (∀ ms, Dict.get language (config_of s) = Some ms → Dict.get metric ms = None →
   fetch_model w language metric s
   = (Raise (KeyError ("Metric " +:+ metric +:+ " not supported yet.")), s)).
Proof.
  intros (_ & _ & Hcache)%reachable_inv.
  assert (¬ present (config_of s) language metric →
          cache_get (language, metric) (cache s) = None) as Hmiss.
  { intros Hn. destruct (cache_get _ _) as [m|] eqn:E; [|done].
    destruct Hn. eapply Hcache. by apply cache_get_elem_of. }
  unfold fetch_model. split.
  - intros Hl. rewrite Hmiss by (intros (ms & Hms & _); congruence).
    by rewrite fetch_model_wrapped_no_language.
  - intros ms Hl Hm. rewrite Hmiss.
    + by rewrite (fetch_model_wrapped_no_metric _ _ _ _ ms).
    + intros (ms' & Hms' & [x Hx]). congruence.
Qed.

Lemma fetch_model_unknown_key_witness :
  fetch_model hub_up "ja" "toxicity" s_loaded
  = (Raise (KeyError "Language ja not supported yet"), s_loaded) ∧
  fetch_model hub_up "zh" "sentiment" s_loaded
  = (Raise (KeyError "Metric sentiment not supported yet."), s_loaded).
Proof.
  pose proof (fetch_model_unknown_key hub_up "ja" "toxicity" s_loaded) as Hja.
  pose proof (fetch_model_unknown_key hub_up "zh" "sentiment" s_loaded) as Hzh.
  assert (reachable s_loaded) as Hr.
  { exact (reachable_step hub_up (OpFetch "zh" "toxicity") _
             (reachable_step hub_up (OpSet "zh" "toxicity" conf_seq2seq) _
                reachable_init)). }
  split.
  - apply (proj1 (Hja Hr)). reflexivity.
  - eapply (proj2 (Hzh Hr)); reflexivity.
Defined.

(** C6, as it is stated, fails: the second of two calls for the same key
    returns without running any loader. *)
Lemma fetch_model_hit_runs_no_loader : ¬ every_fetch_dispatches.
Proof.
  intros H.
  destruct (H hub_up "zh" "toxicity" s_loaded 0
              (fetch_model hub_up "zh" "toxicity" s_loaded).2 eq_refl)
    as (entry & f & ld & _ & _ & _ & Hcalls & _).
  apply (f_equal length) in Hcalls. rewrite length_app in Hcalls.
  vm_compute in Hcalls. discriminate.
Qed.

(** C6, amended.  A call of [fetch_model] that returns was either
    answered from the memo, and then it returns the memoised instance and
    runs no loader, or it has looked up the entry of its key, taken the one
    loader of [LOADER_MAP] that the entry's [loader_func] names, called it
    once with the remaining attributes of the entry as keyword arguments,
    and returned the instance that call created. *)
Theorem fetch_model_dispatch w language metric s m s' :
  fetch_model w language metric s = (Ok m, s') →
  (cache_get (language, metric) (cache s) = Some m ∧ calls s' = calls s) ∨
  (cache_get (language, metric) (cache s) = None ∧
   ∃ entry loader_func ld,
     entry_of (config_of s) language metric = Some entry ∧
     Dict.get "loader_func" entry = Some loader_func ∧
     Dict.get loader_func LOADER_MAP = Some ld ∧
     calls s' = calls s ++ [(ld, Dict.remove "loader_func" entry)] ∧
     m = length (calls s)).
Proof.
  unfold fetch_model.
  destruct (cache_get (language, metric) (cache s)) as [m0|].
  - intros [= <- <-]. by left.
  - destruct (fetch_model_wrapped w language metric s) as [[m0|e] s0] eqn:E; [|done].
    intros [= <- <-]. right. split; [done|].
    destruct (fetch_model_wrapped_Ok _ _ _ _ _ _ E)
      as (entry & f & ld & ? & ? & ? & _ & ? & ?).
    by exists entry, f, ld.
Qed.

Lemma fetch_model_dispatch_witness :
  calls (fetch_model hub_up "zh" "toxicity" s_set).2
  = [(load_auto_model_for_seq2seq, [("model_name", "Helsinki-NLP/opus-mt-zh-en")])].
Proof.
  destruct (fetch_model_dispatch hub_up "zh" "toxicity" s_set 0
              (fetch_model hub_up "zh" "toxicity" s_set).2 eq_refl)
    as [[Hhit _]|(_ & entry & f & ld & Hentry & Hf & Hld & Hcalls & _)].
  - vm_compute in Hhit. discriminate.
  - rewrite Hcalls. vm_compute in Hentry. injection Hentry as <-.
    vm_compute in Hf. injection Hf as <-. vm_compute in Hld. injection Hld as <-.
    reflexivity.
Defined.

(** C7.  In every state a manager reaches from the empty configuration by
    calls of the setter and of [fetch_model], whether they return or
    raise, every entry of the configuration has a [model_name] and a
    [loader_func], and the [loader_func] is one of the three registered
    names. *)
Theorem reachable_entries_ok s :
  reachable s →
  ∀ language metrics metric entry,
    (language, metrics) ∈ config_of s → (metric, entry) ∈ metrics →
    is_Some (Dict.get "model_name" entry) ∧
    ∃ f, Dict.get "loader_func" entry = Some f ∧ f ∈ VALID_LOADER_FUNCTION.
Proof.
  intros (_ & Hok & _)%reachable_inv language metrics metric entry Hl Hm.
  unfold entries_ok in Hok. rewrite Forall_forall in Hok.
  specialize (Hok _ Hl). simpl in Hok. rewrite Forall_forall in Hok.
  exact (Hok _ Hm).
Qed.

Lemma reachable_entries_ok_witness :
  ∃ f, Dict.get "loader_func"
         [("loader_func", "load_sentence_transformers");
          ("model_name", "BAAI/bge-base-zh-v1.5"); ("revision", "f03589c")] = Some f ∧
       f ∈ VALID_LOADER_FUNCTION.
Proof.
  refine (proj2 (reachable_entries_ok s_reset _ "zh" _ "toxicity" _ _ _)).
  - exact (reachable_step hub_up (OpSet "zh" "toxicity" conf_embed) _
             (reachable_step hub_up (OpFetch "zh" "toxicity") _
                (reachable_step hub_up (OpSet "zh" "toxicity" conf_seq2seq) _
                   reachable_init))).
  - vm_compute. left.
  - left.
Defined.

(** C8.  [fetch_model] does not change the configuration: [self.config]
    is the same object afterwards, every node that existed before the call
    has the content it had, and so the configuration reads the same,
    whether the call returns or raises. *)
Theorem fetch_model_frame w language metric s :
  self_config (fetch_model w language metric s).2 = self_config s ∧
  heap_le (heap_of s) (heap_of (fetch_model w language metric s).2) ∧
  (wf_state s → config_of (fetch_model w language metric s).2 = config_of s).
Proof.
  assert (self_config (fetch_model w language metric s).2 = self_config s ∧
          heap_le (heap_of s) (heap_of (fetch_model w language metric s).2))
    as [Hptr Hle].
  { unfold fetch_model.
    destruct (cache_get (language, metric) (cache s)) as [m|];
      [split; [done|apply heap_le_refl]|].
    destruct (fetch_model_wrapped_frame w language metric s) as (Hptr & _ & Hle & _).
    by destruct (fetch_model_wrapped w language metric s) as [[m|e] s']. }
  split_and!; [done..|]. intros [Hwf Hcfg]. unfold config_of. rewrite Hptr.
  by apply snap_le.
Qed.

Lemma fetch_model_frame_witness :
  config_of (fetch_model hub_up "zh" "toxicity" s_set).2 = config_of s_set.
Proof.
  apply (fetch_model_frame hub_up "zh" "toxicity" s_set).
  split; [split; repeat constructor; simpl; lia|simpl; lia].
Defined.

(** C9.  [validate_config] does not change the configuration it is given:
    every node that existed before the call has the content it had, so the
    caller's configuration reads the same afterwards, whether the
    validation passes or raises. *)
Theorem validate_config_frame w config language metric h :
  heap_le h (validate_config w config language metric h).2 ∧
  (wf_heap h → config < length (roots h) →
   snap (validate_config w config language metric h).2 config = snap h config).
Proof.
  destruct (validate_config_spec w config language metric h) as (_ & Hle & _).
  split; [done|]. intros Hwf Hcfg. by apply snap_le.
Qed.

Lemma validate_config_frame_witness :
  snap (validate_config hub_404 (self_config s_set) "all" "all" (heap_of s_set)).2
    (self_config s_set)
  = snap (heap_of s_set) (self_config s_set).
Proof.
  apply (validate_config_frame hub_404 (self_config s_set) "all" "all" (heap_of s_set)).
  - split; repeat constructor; simpl; lia.
  - simpl. lia.
Defined.

(** ** to_full_width *)

Section ToFullWidth.
Variable h2z : str → str.
Variable rnd : nat → Q.
Variable aug_char_p : Q.

(** The table maps a single character to a single character. *)
Hypothesis h2z_single : ∀ c, length (h2z [c]) = 1.

Lemma perturb_chars_length instance acc k :
  length (perturb_chars h2z rnd aug_char_p instance acc k).1
  = length acc + length instance.
Proof.
  revert acc k. induction instance as [|c rest IH]; intros acc k; simpl.
  - lia.
  - destruct (negb _); rewrite IH, length_app; simpl.
    + lia.
    + rewrite h2z_single. lia.
Qed.

Lemma perturb_range_lengths n instance acc k :
  length <$> (perturb_range h2z rnd aug_char_p n instance acc k).1
  = (length <$> acc) ++ replicate n (length instance).
Proof.
  revert acc k. induction n as [|n IH]; intros acc k; simpl.
  - by rewrite app_nil_r.
  - destruct (perturb_chars _ _ _ instance [] k) as [p k1] eqn:E.
    assert (length p = length instance) as Hp.
    { change p with (p, k1).1. rewrite <- E. by rewrite perturb_chars_length. }
    rewrite IH, fmap_app, <- app_assoc. simpl. by rewrite Hp.
Qed.

Lemma perturb_instances_lengths num instances acc k :
  length <$> (perturb_instances h2z rnd aug_char_p num instances acc k).1
  = (length <$> acc)
    ++ (instances ≫= λ s, replicate (Z.to_nat num) (length s)).
Proof.
  revert acc k. induction instances as [|s rest IH]; intros acc k.
  - simpl. by rewrite app_nil_r.
  - cbn [perturb_instances]. rewrite bind_cons.
    destruct (perturb_range _ _ _ _ s acc k) as [out k1] eqn:E.
    rewrite IH. change out with (out, k1).1. rewrite <- E.
    by rewrite perturb_range_lengths, <- app_assoc.
Qed.

Lemma length_bind_replicate {A B} (f : A → B) n (l : list A) :
  length (l ≫= λ s, replicate n (f s)) = n * length l.
Proof.
  induction l as [|x l IH]; [simpl; lia|].
  rewrite bind_cons, length_app, length_replicate, IH. simpl. lia.
Qed.

(** With [random.random()] below 1 and [aug_char_p] equal to 1, no
    character is kept as it is. *)
Hypothesis rnd_lt_1 : ∀ i, (rnd i < 1)%Q.
Hypothesis aug_all : (aug_char_p == 1)%Q.

Lemma draw_not_above k : negb (Qle_bool (rnd k) aug_char_p) = false.
Proof.
  apply negb_false_iff, Qle_bool_iff. rewrite aug_all.
  apply Qlt_le_weak, rnd_lt_1.
Qed.

Lemma perturb_chars_all instance acc k :
  perturb_chars h2z rnd aug_char_p instance acc k
  = (acc ++ (instance ≫= λ c, h2z [c]), k + length instance).
Proof.
  revert acc k. induction instance as [|c rest IH]; intros acc k.
  - simpl. rewrite app_nil_r. f_equal. lia.
  - cbn [perturb_chars]. rewrite bind_cons, draw_not_above, IH, <- app_assoc.
    simpl. f_equal. lia.
Qed.

Lemma perturb_range_all n instance acc k :
  (perturb_range h2z rnd aug_char_p n instance acc k).1
  = acc ++ replicate n (instance ≫= λ c, h2z [c]).
Proof.
  revert acc k. induction n as [|n IH]; intros acc k; simpl.
  - by rewrite app_nil_r.
  - rewrite perturb_chars_all, IH, <- app_assoc. done.
Qed.

Lemma perturb_instances_all num instances acc k :
  (perturb_instances h2z rnd aug_char_p num instances acc k).1
  = acc ++ (instances ≫= λ s, replicate (Z.to_nat num) (s ≫= λ c, h2z [c])).
Proof.
  revert acc k. induction instances as [|s rest IH]; intros acc k.
  - simpl. by rewrite app_nil_r.
  - cbn [perturb_instances]. rewrite bind_cons.
    destruct (perturb_range _ _ _ _ s acc k) as [out k1] eqn:E.
    rewrite IH. change out with (out, k1).1. rewrite <- E.
    by rewrite perturb_range_all, <- app_assoc.
Qed.

End ToFullWidth.

(** C10.  [to_full_width] returns [num_perturbations] strings for every
    input string, a single string counting as one; each has as many
    characters as the string it comes from; and when [aug_char_p] is 1.0
    every character of every output is the image of the input character
    under the full-width table.  The table is [jaconv]'s and maps one
    character to one character; [random.random()] stays below 1. *)
Theorem to_full_width_shape h2z rnd instances aug_char_p num_perturbations k :
  (∀ c, length (h2z [c]) = 1) →
  (0 ≤ num_perturbations)%Z →
  let out := (to_full_width h2z rnd instances aug_char_p num_perturbations k).1 in
  Z.of_nat (length out)
    = (num_perturbations * Z.of_nat (count_instances instances))%Z
  ∧ length <$> out
    = (instance_list instances ≫=
         λ s, replicate (Z.to_nat num_perturbations) (length s))
  ∧ ((∀ i, (rnd i < 1)%Q) → (aug_char_p == 1)%Q →
     out = (instance_list instances ≫=
              λ s, replicate (Z.to_nat num_perturbations) (s ≫= λ c, h2z [c]))).
Proof.
  intros Hh2z Hnum out.
  assert (Hlen : length <$> out
    = (instance_list instances ≫=
         λ s, replicate (Z.to_nat num_perturbations) (length s))).
  { unfold out, to_full_width. fold (instance_list instances).
    by rewrite perturb_instances_lengths. }
  split; [|split].
  - assert (length out = length (length <$> out)) as ->
      by (symmetry; apply length_fmap).
    rewrite Hlen, length_bind_replicate.
    rewrite Nat2Z.inj_mul, Z2Nat.id by lia. by destruct instances.
  - exact Hlen.
  - intros Hrnd Hp. unfold out, to_full_width. fold (instance_list instances).
    by rewrite perturb_instances_all.
Qed.

Lemma to_full_width_shape_witness :
  (to_full_width h2z_example (λ _, 0%Q) (StrList [[72; 105]; [33]]%N) 1%Q 2 0).1
  = [[65320; 65353]; [65320; 65353]; [65281]; [65281]]%N.
Proof.
  destruct (to_full_width_shape h2z_example (λ _, 0%Q)
              (StrList [[72; 105]; [33]]%N) 1%Q 2 0) as (_ & _ & H).
  - intros c. reflexivity.
  - lia.
  - rewrite H; [reflexivity | intros i; reflexivity | reflexivity].
Defined.

(** * Further properties *)

(** ** Dictionaries: more *)

Lemma dict_get_None_keys {V} k (d : list (string * V)) :
  Dict.get k d = None ↔ k ∉ d.*1.
Proof.
  induction d as [|[k0 v0] d IH]; cbn [Dict.get].
  - split; [intros _ H; by apply elem_of_nil in H|done].
  - rewrite fmap_cons, not_elem_of_cons. cbn [fst].
    destruct (String.eqb_spec k k0) as [->|Hne]; [split; [done|tauto]|].
    rewrite IH. tauto.
Qed.

Lemma dict_set_absent {V} k (v : V) d :
  Dict.get k d = None → Dict.set k v d = d ++ [(k, v)].
Proof.
  induction d as [|[k0 v0] d IH]; cbn [Dict.get Dict.set]; [done|].
  destruct (String.eqb k k0); [done|]. intros H. by rewrite IH.
Qed.

Lemma dict_set_id {V} k (v : V) d : Dict.get k d = Some v → Dict.set k v d = d.
Proof.
  induction d as [|[k0 v0] d IH]; cbn [Dict.get Dict.set]; [done|].
  destruct (String.eqb_spec k k0) as [->|]; [by intros [= ->]|].
  intros H. by rewrite IH.
Qed.

Lemma dict_set_keys {V} k (v : V) d :
  is_Some (Dict.get k d) → (Dict.set k v d).*1 = d.*1.
Proof.
  induction d as [|[k0 v0] d IH]; cbn [Dict.get Dict.set]; [by intros [? [=]]|].
  destruct (String.eqb_spec k k0) as [->|]; [done|].
  intros H. rewrite !fmap_cons. by rewrite IH.
Qed.

Lemma dict_set_NoDup_keys {V} k (v : V) d : NoDup d.*1 → NoDup (Dict.set k v d).*1.
Proof.
  intros Hnd. destruct (Dict.get k d) as [x|] eqn:E.
  - rewrite dict_set_keys; [done|by eexists].
  - rewrite (dict_set_absent _ _ _ E), fmap_app. apply NoDup_app.
    split; [done|]. split; [|apply NoDup_singleton].
    intros x Hx ->%list_elem_of_singleton. by apply dict_get_None_keys in E.
Qed.

Lemma Forall_dict_set {V} (P : string * V → Prop) k v d :
  Forall P d → P (k, v) → Forall P (Dict.set k v d).
Proof.
  intros Hd Hkv. apply Forall_forall. intros x [->|Hx]%DictFacts.elem_of_set; [done|].
  rewrite Forall_forall in Hd. by apply Hd.
Qed.

Lemma dict_get_elem_of_default {V} k (d : list (string * list V)) x :
  x ∈ default [] (Dict.get k d) → ∃ vs, (k, vs) ∈ d ∧ x ∈ vs.
Proof.
  destruct (Dict.get k d) as [vs|] eqn:E; simpl; [|by intros ?%elem_of_nil].
  intros Hx. exists vs. split; [by apply DictFacts.get_elem_of|done].
Qed.

(** If the references of a node are all different, a reference has one key. *)
Lemma dict_ref_key (d : node) k k' v :
  NoDup d.*2 → (k, v) ∈ d → (k', v) ∈ d → k = k'.
Proof.
  induction d as [|[k0 v0] d IH]; [by intros _ ?%elem_of_nil|].
  rewrite fmap_cons. intros [Hv Hnd]%NoDup_cons. cbn [snd] in Hv.
  intros H1%elem_of_cons H2%elem_of_cons.
  destruct H1 as [E1|H1], H2 as [E2|H2]; simplify_eq; try done.
  - destruct Hv. apply list_elem_of_fmap. by exists (k', v0).
  - destruct Hv. apply list_elem_of_fmap. by exists (k, v0).
  - by apply IH.
Qed.

(** Reading every node of [d] anew after the node of key [k] alone has
    changed is assigning the new reading to [k]. *)
Lemma fmap_dict_set {W} (g g3 : nat → W) (d : node) k v :
  NoDup d.*2 → Dict.get k d = Some v →
  (∀ x, x ∈ d → x.2 ≠ v → g3 x.2 = g x.2) →
  prod_map id g3 <$> d = Dict.set k (g3 v) (prod_map id g <$> d).
Proof.
  induction d as [|[k0 v0] d IH]; [done|].
  rewrite !fmap_cons. intros [Hv Hnd]%NoDup_cons. cbn [snd] in Hv.
  cbn [Dict.get Dict.set prod_map fst snd id].
  destruct (String.eqb_spec k k0) as [->|Hne].
  - intros [= ->] Hsame. f_equal. apply Forall_fmap_ext_1, Forall_forall.
    intros [k1 v1] Hin. unfold prod_map. cbn [fst snd]. f_equal.
    apply (Hsame (k1, v1)); [by right|]. cbn [snd]. intros ->. apply Hv.
    apply list_elem_of_fmap. by exists (k1, v).
  - intros Hget Hsame. f_equal.
    + f_equal. apply (Hsame (k0, v0)); [left|]. cbn [snd]. intros ->.
      apply Hv. apply list_elem_of_fmap. exists (k, v).
      split; [done|by apply DictFacts.get_elem_of].
    + apply IH; [done..|]. intros x Hx. apply Hsame. by right.
Qed.

(** ** Configurations as values *)

Lemma entry_of_tree_set_eq language metric entry t :
  entry_of (tree_set language metric entry t) language metric = Some entry.
Proof.
  unfold entry_of, tree_set. rewrite DictFacts.get_set_eq. simpl.
  apply DictFacts.get_set_eq.
Qed.

Lemma entry_of_tree_set_ne language metric entry t l m :
  (l, m) ≠ (language, metric) →
  entry_of (tree_set language metric entry t) l m = entry_of t l m.
Proof.
  intros Hne. unfold entry_of, tree_set.
  destruct (decide (l = language)) as [->|Hl].
  - rewrite DictFacts.get_set_eq. simpl.
    rewrite DictFacts.get_set_ne by congruence.
    by destruct (Dict.get language t).
  - by rewrite DictFacts.get_set_ne.
Qed.

Lemma tree_set_idem language metric entry t :
  tree_set language metric entry (tree_set language metric entry t)
  = tree_set language metric entry t.
Proof.
  unfold tree_set.
  set (X := Dict.set metric entry (default [] (Dict.get language t))).
  rewrite DictFacts.get_set_eq. cbn [default from_option id].
  assert (Dict.set metric entry X = X) as ->
    by apply dict_set_id, DictFacts.get_set_eq.
  apply dict_set_id, DictFacts.get_set_eq.
Qed.

Lemma present_tree_set language metric entry t l m :
  present (tree_set language metric entry t) l m ↔
  (l, m) = (language, metric) ∨ present t l m.
Proof.
  rewrite !present_entry_of.
  destruct (decide ((l, m) = (language, metric))) as [[= -> ->]|Hne].
  - rewrite entry_of_tree_set_eq. split; [by left|by eexists].
  - rewrite entry_of_tree_set_ne by done. split; [by right|by intros [|]].
Qed.

Lemma keys_supported_tree_set language metric entry t :
  language ∈ VALID_LANGUAGE → metric ∈ VALID_METRICS →
  keys_supported t → keys_supported (tree_set language metric entry t).
Proof.
  intros Hl Hm Hk. unfold keys_supported, tree_set. apply Forall_dict_set; [done|].
  cbn [fst snd]. split; [done|]. apply Forall_dict_set; [|done].
  apply Forall_forall. intros y (ms & Hms & Hy)%dict_get_elem_of_default.
  unfold keys_supported in Hk. rewrite Forall_forall in Hk.
  destruct (Hk _ Hms) as [_ Hms']. cbn [snd] in Hms'.
  rewrite Forall_forall in Hms'. by apply Hms'.
Qed.

Lemma keys_unique_tree_set language metric entry t :
  keys_unique t → keys_unique (tree_set language metric entry t).
Proof.
  intros [Hnd Hall]. unfold tree_set. split.
  - by apply dict_set_NoDup_keys.
  - apply Forall_dict_set; [done|]. cbn [snd]. apply dict_set_NoDup_keys.
    destruct (Dict.get language t) as [ms|] eqn:E; simpl; [|constructor].
    rewrite Forall_forall in Hall. apply (Hall (language, ms)).
    by apply DictFacts.get_elem_of.
Qed.

Lemma selected_metrics_unique metric lang ms st :
  metric ≠ "all" → NoDup ms.*1 → Dict.get metric ms = Some st →
  selected_metrics metric lang ms = [(lang, metric, st)].
Proof.
  intros Hm. unfold selected_metrics.
  induction ms as [|[k v] ms IH]; [done|].
  rewrite fmap_cons, bind_cons. intros [Hk Hnd]%NoDup_cons. cbn [fst snd Dict.get] in *.
  destruct (String.eqb_spec metric k) as [<-|Hne].
  - intros [= ->]. rewrite wanted_refl.
    assert (ms ≫= (λ y : string * list (string * string),
                     if wanted metric y.1 then [(lang, y.1, y.2)] else []) = []) as ->;
      [|done].
    clear IH Hnd. induction ms as [|[k' v'] ms IH]; [done|].
    rewrite fmap_cons, not_elem_of_cons in Hk. destruct Hk as [Hk1 Hk2].
    rewrite bind_cons. cbn [fst]. rewrite wanted_other by done. by apply IH.
  - intros Hget. rewrite wanted_other by done. by apply IH.
Qed.

Lemma selected_unique language metric t st :
  language ≠ "all" → metric ≠ "all" → keys_unique t →
  entry_of t language metric = Some st →
  selected language metric t = [(language, metric, st)].
Proof.
  intros Hl Hm [Hnd Hall]. unfold entry_of, selected.
  induction t as [|[k ms] t IH]; [done|].
  rewrite fmap_cons in Hnd. apply NoDup_cons in Hnd as [Hk Hnd].
  apply Forall_cons in Hall as [Hms Hall]. cbn [fst snd] in *.
  rewrite bind_cons. cbn [fst snd Dict.get].
  destruct (String.eqb_spec language k) as [<-|Hne].
  - simpl. intros Hget. rewrite wanted_refl.
    rewrite (selected_metrics_unique _ _ _ _ Hm Hms Hget).
    assert (t ≫= (λ x : string * list (string * list (string * string)),
                    if wanted language x.1 then selected_metrics metric x.1 x.2 else [])
            = []) as ->; [|done].
    clear IH Hnd Hall. induction t as [|[k' v'] t IH]; [done|].
    rewrite fmap_cons, not_elem_of_cons in Hk. destruct Hk as [Hk1 Hk2].
    rewrite bind_cons. cbn [fst]. rewrite wanted_other by done. by apply IH.
  - intros Hget. rewrite wanted_other by done. by apply IH.
Qed.

(** ** Unshared configurations *)

Lemma all_srefs_cons h kl n :
  all_srefs h (kl :: n) = (get_lang h kl.2).*2 ++ all_srefs h n.
Proof. unfold all_srefs. by rewrite bind_cons. Qed.

Lemma all_srefs_app h n n' : all_srefs h (n ++ n') = all_srefs h n ++ all_srefs h n'.
Proof. unfold all_srefs. by rewrite bind_app. Qed.

Lemma all_srefs_ext h h' (n : node) :
  (∀ kl, kl ∈ n → get_lang h' kl.2 = get_lang h kl.2) →
  all_srefs h' n = all_srefs h n.
Proof.
  induction n as [|kl n IH]; intros H; [done|].
  rewrite !all_srefs_cons, H by left. f_equal. apply IH. intros x Hx. apply H. by right.
Qed.

Lemma all_srefs_node_NoDup h (n : node) kl :
  NoDup (all_srefs h n) → kl ∈ n → NoDup (get_lang h kl.2).*2.
Proof.
  induction n as [|x n IH]; [by intros _ ?%elem_of_nil|].
  rewrite all_srefs_cons. intros (H1 & _ & H2)%NoDup_app [->|Hin]%elem_of_cons; auto.
Qed.

Lemma all_srefs_disjoint h (n : node) x y s :
  NoDup (all_srefs h n) → NoDup n.*2 → x ∈ n → y ∈ n → x.2 ≠ y.2 →
  s ∈ (get_lang h x.2).*2 → s ∈ (get_lang h y.2).*2 → False.
Proof.
  induction n as [|z n IH]; [by intros _ _ ?%elem_of_nil|].
  rewrite all_srefs_cons, fmap_cons.
  intros (H1 & Hdisj & H2)%NoDup_app [Hz Hnd]%NoDup_cons.
  intros [->|Hx]%elem_of_cons [->|Hy]%elem_of_cons Hne Hsx Hsy; [done| | |by eauto].
  - eapply Hdisj; [exact Hsx|]. eapply elem_of_all_srefs; [|exact Hsy].
    apply list_elem_of_fmap. by exists y.
  - eapply Hdisj; [exact Hsy|]. eapply elem_of_all_srefs; [|exact Hsx].
    apply list_elem_of_fmap. by exists x.
Qed.

Lemma unshared_le h h' cfg :
  wf_heap h → cfg < length (roots h) → heap_le h h' →
  unshared h cfg → unshared h' cfg.
Proof.
  intros Hwf Hcfg Hle [H1 H2]. unfold unshared.
  rewrite (get_root_le h h') by done. split; [done|].
  rewrite (all_srefs_ext h h'); [done|]. intros kl Hkl.
  apply get_lang_le; [done|]. eapply wf_root_refs; [done|].
  apply list_elem_of_fmap. by exists kl.
Qed.

(** What the assignments of the setter change below the root. *)
Lemma edited_nodes h cfg language metric h3 lref sref :
  wf_heap h → edited h cfg language metric h3 lref sref →
  (∀ kl, kl ∈ get_root h cfg → kl.2 ≠ lref → get_lang h3 kl.2 = get_lang h kl.2) ∧
  (∀ s, s < length (settings h) → s ≠ sref → get_setting h3 s = get_setting h s) ∧
  (get_lang h3 lref = get_lang h lref ∧ Dict.get metric (get_lang h lref) = Some sref ∧
   (language, lref) ∈ get_root h cfg
   ∨
   get_lang h3 lref = get_lang h lref ++ [(metric, sref)] ∧
   Dict.get metric (get_lang h lref) = None ∧ sref = length (settings h)).
Proof.
  intros Hwf Hed. pose proof Hed as (Hg1 & Hg2 & _ & _ & _ & HL & HS & Hc1 & Hc2).
  split_and!.
  - intros kl Hkl Hne. apply get_lang_eq, HL; [|done].
    eapply wf_root_refs; [done|]. apply list_elem_of_fmap. by exists kl.
  - intros s Hs Hne. by apply get_setting_eq, HS.
  - destruct Hc2 as [[E Hlt]|(E & Hnone & ->)].
    + left. destruct (edited_sref_old _ _ _ _ _ _ _ Hed Hlt) as [Hlt' Hget].
      split_and!; [done..|]. apply DictFacts.get_elem_of.
      by eapply edited_lref_old.
    + right. by rewrite E, (dict_set_absent _ _ _ Hnone).
Qed.

Lemma snap_lang_app h n n' : snap_lang h (n ++ n') = snap_lang h n ++ snap_lang h n'.
Proof. unfold snap_lang. by rewrite fmap_app. Qed.

Lemma snap_root_app h n n' : snap_root h (n ++ n') = snap_root h n ++ snap_root h n'.
Proof. unfold snap_root. by rewrite fmap_app. Qed.

(** The language node of the key after the assignments, as a value. *)
Lemma edited_snap_lang h cfg language metric h3 lref sref :
  wf_heap h → unshared h cfg → edited h cfg language metric h3 lref sref →
  snap_lang h3 (get_lang h3 lref)
  = Dict.set metric (get_setting h3 sref) (snap_lang h (get_lang h lref)).
Proof.
  intros Hwf [Hnd1 Hnd2] Hed.
  destruct (edited_nodes _ _ _ _ _ _ _ Hwf Hed) as (_ & HS & Hcase).
  assert (∀ x, x ∈ get_lang h lref → x.2 ≠ sref →
               get_setting h3 x.2 = get_setting h x.2) as Hold.
  { intros x Hx Hne. apply HS; [|done]. eapply wf_lang_refs; [done|].
    apply list_elem_of_fmap. by exists x. }
  destruct Hcase as [(E & Hget & Hin)|(E & Hnone & ->)]; rewrite E.
  - apply fmap_dict_set; [|done..].
    by apply (all_srefs_node_NoDup h _ (language, lref) Hnd2).
  - rewrite snap_lang_app, dict_set_absent.
    + f_equal. apply snap_lang_agree. intros l Hl. apply HS; [|].
      * by eapply wf_lang_refs.
      * intros ->. apply (wf_lang_refs _ _ _ Hwf) in Hl. lia.
    + unfold snap_lang. by rewrite DictFacts.get_fmap, Hnone.
Qed.

(** On the configuration as a value, the assignments of the setter are
    one assignment to the entry of the key. *)
Lemma edited_snap h cfg language metric h3 lref sref :
  wf_heap h → unshared h cfg → edited h cfg language metric h3 lref sref →
  snap h3 cfg = tree_set language metric (get_setting h3 sref) (snap h cfg).
Proof.
  intros Hwf Hun Hed. pose proof Hun as [Hnd1 Hnd2].
  pose proof (edited_snap_lang _ _ _ _ _ _ _ Hwf Hun Hed) as Hnode.
  destruct (edited_nodes _ _ _ _ _ _ _ Hwf Hed) as (HL & HS & Hcase).
  pose proof Hed as (Hg1 & Hg2 & _ & _ & _ & _ & _ & Hc1 & _).
  assert (∀ x, x ∈ get_root h cfg → x.2 ≠ lref →
               snap_lang h3 (get_lang h3 x.2) = snap_lang h (get_lang h x.2)) as Hother.
  { intros x Hx Hne. rewrite (HL x Hx Hne). apply snap_lang_agree. intros s Hs.
    apply HS; [by eapply wf_lang_refs|]. intros ->.
    destruct Hcase as [(_ & Hget & Hin)|(_ & _ & ->)].
    - eapply (all_srefs_disjoint h (get_root h cfg) x (language, lref) sref);
        [done..|].
      apply list_elem_of_fmap. exists (metric, sref).
      split; [done|by apply DictFacts.get_elem_of].
    - apply (wf_lang_refs _ _ _ Hwf) in Hs. lia. }
  assert (Dict.get language (snap h cfg)
          = (λ l, snap_lang h (get_lang h l)) <$> Dict.get language (get_root h cfg))
    as Hget by apply DictFacts.get_fmap.
  unfold tree_set. rewrite Hget. unfold snap.
  destruct Hc1 as [[E Hlt]|(E & Hnone & ->)]; rewrite E.
  - rewrite E in Hg1. rewrite Hg1. cbn [fmap option_fmap option_map default from_option id].
    rewrite <- Hnode. unfold snap_root.
    by apply (fmap_dict_set (λ l, snap_lang h (get_lang h l))
                (λ l, snap_lang h3 (get_lang h3 l))).
  - rewrite Hnone. cbn [fmap option_fmap option_map default from_option id].
    rewrite (dict_set_absent _ _ _ Hnone), snap_root_app.
    rewrite (dict_set_absent language _ (snap_root h (get_root h cfg)))
      by (unfold snap_root; by rewrite DictFacts.get_fmap, Hnone).
    f_equal.
    + apply Forall_fmap_ext_1, Forall_forall. intros [k l] Hin.
      unfold prod_map. cbn [fst snd]. f_equal. apply (Hother (k, l) Hin).
      cbn [snd]. intros ->.
      assert (length (langs h) < length (langs h)); [|lia].
      eapply wf_root_refs; [done|]. apply list_elem_of_fmap. by exists (k, length (langs h)).
    + unfold snap_root. cbn [fmap list_fmap prod_map fst snd id]. do 2 f_equal.
      rewrite Hnode, get_lang_dangling by lia. done.
Qed.

Lemma all_srefs_one_more h h3 (n : node) lref s :
  NoDup n.*2 → lref ∈ n.*2 →
  (∀ kl, kl ∈ n → kl.2 ≠ lref → get_lang h3 kl.2 = get_lang h kl.2) →
  (get_lang h3 lref).*2 = (get_lang h lref).*2 ++ [s] →
  s ∉ all_srefs h n → NoDup (all_srefs h n) → NoDup (all_srefs h3 n).
Proof.
  intros Hnd Hin Hother Hlref Hs Hnd2.
  assert (∀ (m : node) x, m ⊆ n → x ∈ all_srefs h3 m → x ∈ all_srefs h m ∨ x = s) as Hmem.
  { intros m x Hsub (kl & Hx & Hkl)%list_elem_of_bind.
    destruct (decide (kl.2 = lref)) as [E|Hne].
    - rewrite E, Hlref in Hx. apply elem_of_app in Hx as [Hx|Hx%list_elem_of_singleton];
        [left|by right].
      apply list_elem_of_bind. exists kl. by rewrite E.
    - left. apply list_elem_of_bind. exists kl. rewrite <- (Hother kl) by auto. done. }
  revert Hnd Hin Hother Hs Hnd2 Hmem.
  induction n as [|[k l] n IH]; [by intros _ ?%elem_of_nil|].
  rewrite !all_srefs_cons, fmap_cons. cbn [snd].
  intros [Hl Hnd]%NoDup_cons Hin Hother Hs (H1 & Hdisj & H2)%NoDup_app Hmem.
  rewrite elem_of_app in Hs.
  destruct (decide (l = lref)) as [->|Hne].
  - rewrite Hlref, (all_srefs_ext h h3 n).
    2:{ intros kl Hkl. apply Hother; [by right|]. intros E. apply Hl.
        apply list_elem_of_fmap. by exists kl. }
    rewrite <- app_assoc. apply NoDup_app. split; [done|]. split.
    + intros x Hx [->%list_elem_of_singleton|Hx']%elem_of_app; [tauto|by eapply Hdisj].
    + apply NoDup_app. split; [apply NoDup_singleton|]. split; [|done].
      intros x ->%list_elem_of_singleton. tauto.
  - assert (get_lang h3 l = get_lang h l) as ->
      by (apply (Hother (k, l)); [by left|done]).
    apply NoDup_app. split; [done|]. split.
    + intros x Hx Hx'. destruct (Hmem n x) as [Hold| ->]; [by apply list_subseteq_cons|done|..].
      * by eapply Hdisj.
      * tauto.
    + apply IH; try done.
      * apply elem_of_cons in Hin as [|]; [congruence|done].
      * intros kl Hkl. apply Hother. by right.
      * tauto.
      * intros m x Hsub. apply Hmem. etrans; [exact Hsub|]. by apply list_subseteq_cons.
Qed.

(** The assignments of the setter share no node: the nodes they add are
    fresh ones. *)
Lemma edited_unshared h cfg language metric h3 lref sref :
  wf_heap h → unshared h cfg → edited h cfg language metric h3 lref sref →
  unshared h3 cfg.
Proof.
  intros Hwf Hun Hed. pose proof Hun as [Hnd1 Hnd2].
  destruct (edited_nodes _ _ _ _ _ _ _ Hwf Hed) as (HL & HS & Hcase).
  pose proof Hed as (Hg1 & Hg2 & _ & _ & _ & _ & _ & Hc1 & Hc2).
  assert (sref < length (settings h) ∨ sref = length (settings h)) as Hsref
    by (destruct Hc2 as [[_ ?]|(_ & _ & ->)]; auto).
  destruct Hc1 as [[E Hlt]|(E & Hnone & ->)]; unfold unshared; rewrite E.
  - split; [done|].
    assert ((language, lref) ∈ get_root h cfg) as Hin.
    { apply DictFacts.get_elem_of. by rewrite <- E. }
    destruct Hcase as [(E2 & Hget & _)|(E2 & Hnone & ->)].
    + rewrite (all_srefs_ext h h3); [done|]. intros kl Hkl.
      destruct (decide (kl.2 = lref)) as [->|Hne]; [done|by apply HL].
    + apply (all_srefs_one_more h h3 _ lref (length (settings h))); try done.
      * apply list_elem_of_fmap. by exists (language, lref).
      * by rewrite E2, fmap_app.
      * intros Hin'. apply (wf_all_srefs _ _ _ Hwf) in Hin'. lia.
  - rewrite (dict_set_absent _ _ _ Hnone).
    assert (length (langs h) ∉ (get_root h cfg).*2) as Hfresh.
    { intros Hin. apply (wf_root_refs _ _ _ Hwf) in Hin. lia. }
    split.
    + rewrite fmap_app. apply NoDup_app. split; [done|]. split; [|apply NoDup_singleton].
      intros x Hx ->%list_elem_of_singleton. done.
    + rewrite all_srefs_app, (all_srefs_ext h h3 (get_root h cfg)).
      2:{ intros kl Hkl. apply HL; [done|]. intros Ekl. apply Hfresh.
          apply list_elem_of_fmap. by exists kl. }
      assert (all_srefs h3 [(language, length (langs h))]
              = (get_lang h3 (length (langs h))).*2) as ->
        by (rewrite all_srefs_cons; apply app_nil_r).
      destruct Hcase as [(E2 & Hget & _)|(E2 & _ & ->)].
      { by rewrite get_lang_dangling in Hget by lia. }
      rewrite E2, get_lang_dangling by lia. cbn [app fmap list_fmap snd].
      apply NoDup_app. split; [done|]. split; [|apply NoDup_singleton].
      intros x Hx ->%list_elem_of_singleton.
      apply (wf_all_srefs _ _ _ Hwf) in Hx. lia.
Qed.

(** ** The setter on the configuration as a value *)

(** A call of the setter, read on the configuration: the result is the
    first error among the entries [validate_config] selects once the entry
    of the key is the updated one; a caught error leaves the configuration
    as it was, every other result leaves it with that one entry assigned. *)
Lemma set_model_for_metric_tree w language metric mn lf kwargs s r :
  wf_state s → unshared (heap_of s) (self_config s) →
  set_model_for_metric w language metric mn lf kwargs s = r →
  unshared (heap_of r.2) (self_config r.2) ∧
  (language ∉ VALID_LANGUAGE ∨ metric ∉ VALID_METRICS → ∃ msg, r.1 = Raise (KeyError msg)) ∧
  (language ∈ VALID_LANGUAGE → metric ∈ VALID_METRICS →
   r.1 = result_of (first_error w (selected language metric
           (tree_set language metric
              (updated_entry (default [] (entry_of (config_of s) language metric))
                 mn lf kwargs) (config_of s))))) ∧
  config_of r.2
  = (if caught r.1 then config_of s
     else tree_set language metric
            (updated_entry (default [] (entry_of (config_of s) language metric)) mn lf kwargs)
            (config_of s)).
Proof.
  intros Hwfs Hun <-. pose proof Hwfs as [Hwf Hcfg]. unfold set_model_for_metric.
  destruct (deepcopy (heap_of s) (self_config s)) as [h0 copy] eqn:Ed.
  destruct (deepcopy_spec _ _ _ _ Ed)
    as (Hle0 & Hcopy & Hrlen0 & Hsnap0 & Hlrefs0 & Hsrefs0 & Hwf0).
  specialize (Hwf0 Hwf). unfold config_of in *.
  set (h := heap_of s) in *. set (cfg := self_config s) in *.
  assert (wf_state (with_heap s h0)) as Hwfs0.
  { split; simpl; [done|]. fold cfg. lia. }
  assert (snap h0 cfg = snap h cfg) as Hsnapcfg by (by apply snap_le).
  assert (unshared h0 cfg) as Hun0 by (by apply (unshared_le h)).
  assert (unshared h0 copy) as Huncopy.
  { split; [rewrite Hlrefs0|rewrite Hsrefs0]; apply NoDup_seq. }
  destruct (decide (language ∈ VALID_LANGUAGE ∧ metric ∈ VALID_METRICS))
    as [[Hl Hm]|Hguard].
  2:{ destruct (set_model_try_guard w language metric mn lf kwargs (with_heap s h0))
        as [msg ->]; [apply not_and_l in Hguard; tauto|].
      cbn [is_ValueError_or_KeyError fst snd caught heap_of self_config with_heap
             with_config].
      split_and!; [done|by eauto|tauto|done]. }
  destruct (set_model_try_spec w language metric mn lf kwargs (with_heap s h0)
              Hwfs0 Hl Hm) as (h3 & lref & sref & Hed & Hentry & ->).
  cbn [heap_of self_config with_heap] in Hed, Hentry |- *. fold cfg in Hed |- *.
  unfold config_of in Hentry. cbn [heap_of self_config with_heap] in Hentry.
  fold cfg in Hentry. rewrite Hsnapcfg in Hentry.
  set (entry := updated_entry _ mn lf kwargs) in *.
  destruct (validate_config_spec w cfg language metric h3) as (Hres & Hle35 & Hwf5).
  pose proof Hed as (_ & _ & Hwf3 & Hrlen3 & _).
  specialize (Hwf5 Hwf3).
  destruct (validate_config w cfg language metric h3) as [res h5].
  cbn [fst snd] in Hres, Hle35, Hwf5 |- *.
  assert (length (roots h3) ≤ length (roots h5)) as Hrlen5
    by (apply prefix_length, Hle35).
  assert (snap h3 cfg = tree_set language metric entry (snap h cfg)) as Hsnap3.
  { rewrite (edited_snap h0 cfg language metric h3 lref sref) by done.
    by rewrite Hentry, Hsnapcfg. }
  rewrite Hsnap3 in Hres.
  assert (snap h5 cfg = snap h3 cfg) as Hsnap5 by (apply snap_le; [done|lia|done]).
  assert (unshared h5 cfg) as Hun5.
  { apply (unshared_le h3); [done|lia|done|]. exact (edited_unshared h0 cfg language metric h3 lref sref Hwf0 Hun0 Hed). }
  destruct (edited_frozen h h0 cfg language metric h3 lref sref)
    as (HfR & HfL & HfS); [done..|].
  assert (length (langs h) ≤ length (langs h0)) by (apply prefix_length, Hle0).
  assert (length (settings h) ≤ length (settings h0)) by (apply prefix_length, Hle0).
  assert (get_root h5 copy = get_root h0 copy) as Hrootcopy.
  { rewrite (get_root_le h3 h5) by (done || lia). apply get_root_eq, HfR. lia. }
  assert (∀ l, l ∈ (get_root h0 copy).*2 → get_lang h5 l = get_lang h0 l) as Hlangcopy.
  { intros l Hl'. rewrite Hlrefs0 in Hl'. apply elem_of_seq in Hl'.
    assert (langs h3 !! l = langs h0 !! l) as E by (apply HfL; lia).
    rewrite (get_lang_le h3 h5); [by apply get_lang_eq|done|].
    destruct (lookup_lt_is_Some_2 (langs h0) l ltac:(lia)) as [x Hx].
    rewrite Hx in E. by eapply lookup_lt_Some. }
  assert (snap h5 copy = snap h cfg) as Hrollback.
  { rewrite <- Hsnap0. apply snap_agree; [done..|].
    intros i Hi. rewrite Hsrefs0 in Hi. apply elem_of_seq in Hi.
    assert (settings h3 !! i = settings h0 !! i) as E by (apply HfS; lia).
    rewrite (get_setting_le h3 h5); [by apply get_setting_eq|done|].
    destruct (lookup_lt_is_Some_2 (settings h0) i ltac:(lia)) as [x Hx].
    rewrite Hx in E. by eapply lookup_lt_Some. }
  assert (unshared h5 copy) as Hun5'.
  { destruct Huncopy as [U1 U2]. unfold unshared. rewrite Hrootcopy. split; [done|].
    rewrite (all_srefs_ext h0 h5); [done|]. intros kl Hkl. apply Hlangcopy.
    apply list_elem_of_fmap. by exists kl. }
  destruct res as [v|e]; cbn [fst snd caught].
  - split_and!; [done|tauto|done|]. simpl. fold cfg. by rewrite Hsnap5.
  - destruct (is_ValueError_or_KeyError e) eqn:Ec; cbn [fst snd caught]; rewrite Ec.
    + split_and!; [done|tauto|done|done].
    + split_and!; [done|tauto|done|]. simpl. fold cfg. by rewrite Hsnap5.
Qed.

(** ** The memo as a list *)

Lemma cache_get_None k c : cache_get k c = None ↔ k ∉ c.*1.
Proof.
  induction c as [|[k' m] c IH].
  - split; [intros _; apply not_elem_of_nil|done].
  - cbn [cache_get]. rewrite fmap_cons, elem_of_cons. cbn [fst].
    destruct (key_eqb k k') eqn:E.
    + apply key_eqb_eq in E. split; [done|tauto].
    + assert (k ≠ k') by (intros ?%key_eqb_eq; congruence). tauto.
Qed.

Lemma cache_del_keys k c : (cache_del k c).*1 ⊆ c.*1.
Proof.
  intros x (y & -> & Hy)%list_elem_of_fmap. apply list_elem_of_fmap. exists y.
  split; [done|]. by apply (cache_del_subseteq k).
Qed.

Lemma cache_del_NoDup k c :
  NoDup c.*1 → NoDup (cache_del k c).*1 ∧ k ∉ (cache_del k c).*1.
Proof.
  induction c as [|[k' m] c IH].
  { intros _. split; [constructor|apply not_elem_of_nil]. }
  rewrite fmap_cons. cbn [fst cache_del].
  intros [Hk' Hnd]%NoDup_cons. destruct (key_eqb k k') eqn:E.
  - apply key_eqb_eq in E as ->. done.
  - assert (k ≠ k') by (intros ?%key_eqb_eq; congruence).
    destruct (IH Hnd) as [IH1 IH2]. rewrite fmap_cons. cbn [fst]. split.
    + apply NoDup_cons. split; [|done]. intros Hin. by apply cache_del_keys in Hin.
    + rewrite elem_of_cons. tauto.
Qed.

Lemma cache_del_length k m c :
  cache_get k c = Some m → S (length (cache_del k c)) = length c.
Proof.
  induction c as [|[k' m'] c IH]; simpl; [done|].
  destruct (key_eqb k k'); [done|]. intros H. simpl. by rewrite IH.
Qed.

(** ** The invariant, continued *)

Lemma inv_tree_init : inv_tree init_state.
Proof.
  unfold inv_tree, unshared, keys_supported, keys_unique. simpl.
  split_and!; constructor.
Qed.

Lemma call_set_tree w language metric conf s r :
  wf_state s → unshared (heap_of s) (self_config s) →
  call_set_model_for_metric w language metric conf s = r →
  unshared (heap_of r.2) (self_config r.2) ∧
  (config_of r.2 = config_of s ∨
   ∃ mn lf,
     Dict.get "model_name" conf = Some mn ∧ Dict.get "loader_func" conf = Some lf ∧
     language ∈ VALID_LANGUAGE ∧ metric ∈ VALID_METRICS ∧
     config_of r.2
     = tree_set language metric
         (updated_entry (default [] (entry_of (config_of s) language metric))
            mn lf (kwargs_of conf)) (config_of s)).
Proof.
  intros Hwf Hun <-. unfold call_set_model_for_metric.
  destruct (_ || _); [by split; [|left]|].
  destruct (Dict.get "model_name" conf) as [mn|]; [|by split; [|left]].
  destruct (Dict.get "loader_func" conf) as [lf|]; [|by split; [|left]].
  destruct (set_model_for_metric_tree w language metric mn lf (kwargs_of conf) s _
              Hwf Hun eq_refl) as (Hun' & Hguard & _ & Hcfg).
  split; [done|].
  destruct (caught _) eqn:Ec; [by left|]. right. exists mn, lf.
  destruct (decide (language ∈ VALID_LANGUAGE ∧ metric ∈ VALID_METRICS)) as [[? ?]|Hn];
    [done|].
  destruct Hguard as [msg Hmsg]; [apply not_and_l in Hn; tauto|].
  by rewrite Hmsg in Ec.
Qed.

Lemma call_set_inv_tree w language metric conf s :
  wf_state s → inv_tree s →
  inv_tree (call_set_model_for_metric w language metric conf s).2.
Proof.
  intros Hwf (Hun & Hsup & Huniq & Hnd).
  destruct (call_set_tree w language metric conf s _ Hwf Hun eq_refl) as [Hun' Hcfg].
  destruct (call_set_outcome w language metric conf s _ Hwf eq_refl) as (Hc & _).
  unfold inv_tree. rewrite Hc. split_and!; try done.
  - destruct Hcfg as [->|(mn & lf & _ & _ & Hl & Hm & ->)]; [done|].
    by apply keys_supported_tree_set.
  - destruct Hcfg as [->|(mn & lf & _ & _ & Hl & Hm & ->)]; [done|].
    by apply keys_unique_tree_set.
Qed.

Lemma fetch_model_inv_tree w language metric s :
  wf_state s → inv_tree s → inv_tree (fetch_model w language metric s).2.
Proof.
  intros Hwf (Hun & Hsup & Huniq & Hnd). unfold fetch_model.
  destruct (cache_get (language, metric) (cache s)) as [m|] eqn:Eg.
  - unfold inv_tree, config_of. cbn [snd with_cache cache heap_of self_config].
    split_and!; try done.
    destruct (cache_del_NoDup (language, metric) (cache s) Hnd) as [H1 H2].
    rewrite fmap_cons. by apply NoDup_cons.
  - destruct (fetch_model_wrapped_config w language metric s Hwf) as [Hwf' Hcfg].
    pose proof (fetch_model_wrapped_frame w language metric s)
      as (Hptr & Hc & Hle & _ & _).
    assert (unshared (heap_of (fetch_model_wrapped w language metric s).2)
              (self_config (fetch_model_wrapped w language metric s).2)) as Hun'.
    { rewrite Hptr. destruct Hwf. by apply (unshared_le (heap_of s)). }
    destruct (fetch_model_wrapped w language metric s) as [[m|e] s'] eqn:Ef;
      cbn [fst snd] in *.
    + unfold inv_tree, config_of. cbn [with_cache cache heap_of self_config].
      fold (config_of s'). rewrite Hcfg, Hc. split_and!; try done.
      rewrite fmap_take. eapply (sublist_NoDup (take _ _)); [|apply sublist_take].
        rewrite fmap_cons. apply NoDup_cons.
        split; [by apply cache_get_None|done].
    + unfold inv_tree. by rewrite Hcfg, Hc.
Qed.

Lemma validate_config_inv_tree w language metric s :
  wf_state s → inv_tree s →
  inv_tree (with_heap s (validate_config w (self_config s) language metric (heap_of s)).2).
Proof.
  intros [Hwf Hcfg] (Hun & Hsup & Huniq & Hnd).
  destruct (validate_config_spec w (self_config s) language metric (heap_of s))
    as (_ & Hle & Hwf').
  assert (config_of (with_heap s (validate_config w (self_config s) language metric
                                    (heap_of s)).2) = config_of s) as Hsame
    by (by apply snap_le).
  unfold inv_tree. rewrite Hsame. split_and!; try done.
  by apply (unshared_le (heap_of s)).
Qed.

Lemma reachable_inv_tree s : reachable s → inv_tree s.
Proof.
  induction 1 as [|w o s Hs IH]; [apply inv_tree_init|].
  pose proof (reachable_inv s Hs) as [Hwf _].
  destruct o;
    [by apply call_set_inv_tree|by apply fetch_model_inv_tree
    |by apply validate_config_inv_tree].
Qed.

(** ** The entry the setter writes *)

Lemma updated_entry_other old mn lf kwargs k :
  k ≠ "model_name" → k ≠ "loader_func" →
  (k = "tokenizer_name" → truthy_str (Dict.get "tokenizer_name" kwargs) = false) →
  (k = "revision" → truthy_str (Dict.get "model_revision" kwargs) = false) →
  Dict.get k (updated_entry old mn lf kwargs) = Dict.get k old.
Proof.
  intros H1 H2 H3 H4. unfold updated_entry.
  assert (Dict.get k (Dict.set "model_name" mn (Dict.set "loader_func" lf old))
          = Dict.get k old) as Hbase by (by rewrite !DictFacts.get_set_ne).
  assert (truthy_str (Dict.get "tokenizer_name" kwargs) = true → "tokenizer_name" ≠ k)
    as Ht by (intros E <-; by rewrite H3 in E).
  assert (truthy_str (Dict.get "model_revision" kwargs) = true → "revision" ≠ k)
    as Hr by (intros E <-; by rewrite H4 in E).
  destruct (truthy_str (Dict.get "tokenizer_name" kwargs)),
    (truthy_str (Dict.get "model_revision" kwargs));
    rewrite ?(DictFacts.get_set_ne "revision"), ?(DictFacts.get_set_ne "tokenizer_name")
      by auto; done.
Qed.

Lemma updated_entry_tokenizer_name old mn lf kwargs :
  truthy_str (Dict.get "tokenizer_name" kwargs) = true →
  Dict.get "tokenizer_name" (updated_entry old mn lf kwargs)
  = Some (opt_str (Dict.get "tokenizer_name" kwargs)).
Proof.
  intros Ht. unfold updated_entry. rewrite Ht.
  destruct (truthy_str (Dict.get "model_revision" kwargs));
    rewrite ?DictFacts.get_set_ne by done; apply DictFacts.get_set_eq.
Qed.

Lemma updated_entry_revision old mn lf kwargs :
  truthy_str (Dict.get "model_revision" kwargs) = true →
  Dict.get "revision" (updated_entry old mn lf kwargs)
  = Some (opt_str (Dict.get "model_revision" kwargs)).
Proof. intros Hr. unfold updated_entry. rewrite Hr. apply DictFacts.get_set_eq. Qed.

(** Written over itself, the entry does not change. *)
Lemma updated_entry_idem old mn lf kwargs :
  updated_entry (updated_entry old mn lf kwargs) mn lf kwargs
  = updated_entry old mn lf kwargs.
Proof.
  set (d := updated_entry old mn lf kwargs).
  unfold updated_entry at 1.
  rewrite (dict_set_id "loader_func" lf d) by apply updated_entry_loader_func.
  rewrite (dict_set_id "model_name" mn d) by apply updated_entry_model_name.
  destruct (truthy_str (Dict.get "tokenizer_name" kwargs)) eqn:Et.
  - rewrite (dict_set_id "tokenizer_name" _ d) by (by apply updated_entry_tokenizer_name).
    destruct (truthy_str (Dict.get "model_revision" kwargs)) eqn:Er; [|done].
    by rewrite (dict_set_id "revision" _ d) by (by apply updated_entry_revision).
  - destruct (truthy_str (Dict.get "model_revision" kwargs)) eqn:Er; [|done].
    by rewrite (dict_set_id "revision" _ d) by (by apply updated_entry_revision).
Qed.

Lemma kwargs_of_get k conf :
  k ≠ "model_name" → k ≠ "loader_func" →
  Dict.get k (kwargs_of conf) = Dict.get k conf.
Proof. intros. unfold kwargs_of. by rewrite !DictFacts.get_remove_ne. Qed.

Lemma first_error_singleton w x : first_error w [x] = entry_error w x.
Proof. unfold first_error. simpl. by destruct (entry_error w x). Qed.

(** The entry the setter writes passes the validation exactly when its
    loader is a registered one and the hub has its model. *)
Lemma entry_error_updated w language metric old mn lf kwargs :
  entry_error w (language, metric, updated_entry old mn lf kwargs) = None ↔
  lf ∈ VALID_LOADER_FUNCTION ∧
  http_get w (model_url mn (Dict.get "revision" (updated_entry old mn lf kwargs)))
  = Response 200.
Proof.
  unfold entry_error, check_model_availability.
  rewrite updated_entry_model_name, updated_entry_loader_func.
  destruct (str_in lf VALID_LOADER_FUNCTION) eqn:E; cbn [negb].
  - apply str_in_true in E. destruct (http_get w _) as [code|].
    + destruct (Z.eqb_spec code 200) as [->|Hne].
      * done.
      * split; [done|]. intros [_ [= ?]]. done.
    + split; [done|]. by intros [_ ?].
  - apply str_in_false in E. split; [done|]. by intros [? _].
Qed.

(** ** The guards of the setter *)

Lemma set_model_for_metric_guard w language metric mn lf kwargs s :
  language ∉ VALID_LANGUAGE ∨ metric ∉ VALID_METRICS →
  (set_model_for_metric w language metric mn lf kwargs s).1
  = Raise (KeyError (if str_in language VALID_LANGUAGE
                     then "Language {language} not supported {metric} yet"
                     else "Language {language} not supported yet")).
Proof.
  intros Hguard. unfold set_model_for_metric, set_model_try.
  destruct (deepcopy _ _) as [h0 copy].
  destruct (str_in language VALID_LANGUAGE) eqn:El; cbn [negb]; [|done].
  destruct (str_in metric VALID_METRICS) eqn:Em; cbn [negb]; [|done].
  apply str_in_true in El, Em. tauto.
Qed.

(** The setter reads two keyword arguments. *)
Lemma assign_attributes_ext h d mn lf kwargs kwargs' :
  Dict.get "tokenizer_name" kwargs = Dict.get "tokenizer_name" kwargs' →
  Dict.get "model_revision" kwargs = Dict.get "model_revision" kwargs' →
  assign_attributes h d mn lf kwargs = assign_attributes h d mn lf kwargs'.
Proof. intros Ht Hr. unfold assign_attributes. by rewrite Ht, Hr. Qed.

Lemma set_model_for_metric_ext w language metric mn lf kwargs kwargs' s :
  Dict.get "tokenizer_name" kwargs = Dict.get "tokenizer_name" kwargs' →
  Dict.get "model_revision" kwargs = Dict.get "model_revision" kwargs' →
  set_model_for_metric w language metric mn lf kwargs s
  = set_model_for_metric w language metric mn lf kwargs' s.
Proof.
  intros Ht Hr. unfold set_model_for_metric.
  destruct (deepcopy _ _) as [h0 copy].
  assert (∀ s0, set_model_try w language metric mn lf kwargs s0
                = set_model_try w language metric mn lf kwargs' s0) as ->; [|done].
  intros s0. unfold set_model_try.
  destruct (negb _); [done|]. destruct (negb _); [done|].
  destruct (Dict.get language _) as [lref|]; [|done].
  destruct (Dict.get metric _) as [sref|]; [|done].
  by rewrite (assign_attributes_ext _ _ _ _ kwargs kwargs').
Qed.

(** ** Keys of reachable configurations *)

Lemma keys_supported_present t language metric :
  keys_supported t → present t language metric →
  language ∈ VALID_LANGUAGE ∧ metric ∈ VALID_METRICS.
Proof.
  intros Hsup (ms & Hms & [st Hst]). unfold keys_supported in Hsup.
  rewrite Forall_forall in Hsup.
  destruct (Hsup _ (DictFacts.get_elem_of _ _ _ Hms)) as [Hl Hm].
  split; [done|]. cbn [snd] in Hm. rewrite Forall_forall in Hm.
  exact (Hm _ (DictFacts.get_elem_of _ _ _ Hst)).
Qed.



(** * More properties of the model manager *)

(** X1.  When the setter returns, the configuration is the one before the
    call with one assignment made: the entry of the key holds the given
    model and loader over the attributes it held before; a language or a
    metric that was not configured is added after the existing ones; every
    other language, metric and entry is where it was and as it was. *)
Theorem set_model_writes_one_entry w language metric conf s mn lf :
  reachable s →
  Dict.get "model_name" conf = Some mn → Dict.get "loader_func" conf = Some lf →
  (call_set_model_for_metric w language metric conf s).1 = Ok PyNone →
  config_of (call_set_model_for_metric w language metric conf s).2
  = tree_set language metric
      (updated_entry (default [] (entry_of (config_of s) language metric))
         mn lf (kwargs_of conf)) (config_of s).
Proof.
  intros Hr Hmn Hlf. pose proof (reachable_inv s Hr) as (Hwf & _).
  pose proof (reachable_inv_tree s Hr) as (Hun & _).
  unfold call_set_model_for_metric. destruct (_ || _); [done|]. rewrite Hmn, Hlf.
  destruct (set_model_for_metric_tree w language metric mn lf (kwargs_of conf) s _
              Hwf Hun eq_refl) as (_ & _ & _ & Hcfg).
  intros Hok. by rewrite Hok in Hcfg.
Qed.

Lemma set_model_writes_one_entry_witness :
  config_of (call_set_model_for_metric hub_up "zh" "sentiment" conf_embed s_loaded).2
  = tree_set "zh" "sentiment"
      (updated_entry (default [] (entry_of (config_of s_loaded) "zh" "sentiment"))
         "BAAI/bge-base-zh-v1.5" "load_sentence_transformers" (kwargs_of conf_embed))
      (config_of s_loaded).
Proof.
  apply set_model_writes_one_entry.
  - exact (reachable_step hub_up (OpFetch "zh" "toxicity") _
             (reachable_step hub_up (OpSet "zh" "toxicity" conf_seq2seq) _
                reachable_init)).
  - reflexivity.
  - reflexivity.
  - vm_compute. reflexivity.
Defined.

(** X2.  Whatever a call of the setter does, and whether it returns or
    raises, the entry of every other key reads after the call as it read
    before. *)
Theorem set_model_keeps_other_keys w language metric conf s l m :
  reachable s → (l, m) ≠ (language, metric) →
  entry_of (config_of (call_set_model_for_metric w language metric conf s).2) l m
  = entry_of (config_of s) l m.
Proof.
  intros Hr Hne. pose proof (reachable_inv s Hr) as (Hwf & _).
  pose proof (reachable_inv_tree s Hr) as (Hun & _).
  destruct (call_set_tree w language metric conf s _ Hwf Hun eq_refl)
    as [_ [->|(mn & lf & _ & _ & _ & _ & ->)]]; [done|].
  by apply entry_of_tree_set_ne.
Qed.

Lemma set_model_keeps_other_keys_witness :
  entry_of (config_of (call_set_model_for_metric hub_up "zh" "sentiment" conf_embed
                         s_loaded).2) "zh" "toxicity"
  = entry_of (config_of s_loaded) "zh" "toxicity".
Proof.
  apply set_model_keeps_other_keys.
  - exact (reachable_step hub_up (OpFetch "zh" "toxicity") _
             (reachable_step hub_up (OpSet "zh" "toxicity" conf_seq2seq) _
                reachable_init)).
  - discriminate.
Defined.

(** X3.  A call of the setter that is given a model and a loader returns
    if and only if the language and the metric are supported, the loader is
    one of the registered ones, and the hub answers 200 for the model at
    the revision the entry holds after the assignments: the one given as
    [model_revision], or else the one the entry held before the call. *)
Theorem set_model_returns_iff w language metric conf s mn lf :
  reachable s →
  Dict.mem "self" conf || Dict.mem "language" conf || Dict.mem "metric" conf = false →
  Dict.get "model_name" conf = Some mn → Dict.get "loader_func" conf = Some lf →
  (call_set_model_for_metric w language metric conf s).1 = Ok PyNone ↔
  language ∈ VALID_LANGUAGE ∧ metric ∈ VALID_METRICS ∧ lf ∈ VALID_LOADER_FUNCTION ∧
  http_get w (model_url mn
    (Dict.get "revision"
       (updated_entry (default [] (entry_of (config_of s) language metric))
          mn lf (kwargs_of conf)))) = Response 200.
Proof.
  intros Hr Hres Hmn Hlf. pose proof (reachable_inv s Hr) as (Hwf & _).
  pose proof (reachable_inv_tree s Hr) as (Hun & _ & Huniq & _).
  unfold call_set_model_for_metric. rewrite Hres, Hmn, Hlf.
  destruct (set_model_for_metric_tree w language metric mn lf (kwargs_of conf) s _
              Hwf Hun eq_refl) as (_ & Hguard & Hvalid & _).
  destruct (decide (language ∈ VALID_LANGUAGE ∧ metric ∈ VALID_METRICS)) as [[Hl Hm]|Hn].
  - rewrite (Hvalid Hl Hm).
    rewrite (selected_unique language metric _
               (updated_entry (default [] (entry_of (config_of s) language metric))
                  mn lf (kwargs_of conf)));
      [|by apply valid_language_not_all|by apply valid_metric_not_all
       |by apply keys_unique_tree_set|by apply entry_of_tree_set_eq].
    rewrite first_error_singleton.
    rewrite <- (entry_error_updated w language metric).
    destruct (entry_error w _) as [e|]; cbn [result_of]; [|done].
    split; [done|by intros (_ & _ & ?)].
  - destruct Hguard as [msg ->]; [apply not_and_l in Hn; tauto|]. split; [done|tauto].
Qed.

Lemma set_model_returns_iff_witness :
  (call_set_model_for_metric hub_up "zh" "toxicity" conf_seq2seq init_state).1
  = Ok PyNone ↔
  "zh" ∈ VALID_LANGUAGE ∧ "toxicity" ∈ VALID_METRICS ∧
  "load_auto_model_for_seq2seq" ∈ VALID_LOADER_FUNCTION ∧
  http_get hub_up (model_url "Helsinki-NLP/opus-mt-zh-en"
    (Dict.get "revision"
       (updated_entry (default [] (entry_of (config_of init_state) "zh" "toxicity"))
          "Helsinki-NLP/opus-mt-zh-en" "load_auto_model_for_seq2seq"
          (kwargs_of conf_seq2seq)))) = Response 200.
Proof.
  apply set_model_returns_iff.
  - exact reachable_init.
  - reflexivity.
  - reflexivity.
  - reflexivity.
Defined.

(** X4.  Setting a key twice in a row to the same configuration, with the
    hub answering the same, is the same as setting it once: the second
    call returns or raises as the first one did, and leaves the
    configuration as the first one left it. *)
Theorem set_model_twice w language metric conf s :
  reachable s →
  (call_set_model_for_metric w language metric conf
     (call_set_model_for_metric w language metric conf s).2).1
  = (call_set_model_for_metric w language metric conf s).1 ∧
  config_of (call_set_model_for_metric w language metric conf
               (call_set_model_for_metric w language metric conf s).2).2
  = config_of (call_set_model_for_metric w language metric conf s).2.
Proof.
  intros Hr. pose proof (reachable_inv s Hr) as (Hwf & _).
  pose proof (reachable_inv_tree s Hr) as (Hun & _).
  unfold call_set_model_for_metric. destruct (_ || _); [done|].
  destruct (Dict.get "model_name" conf) as [mn|]; [|done].
  destruct (Dict.get "loader_func" conf) as [lf|]; [|done].
  destruct (set_model_for_metric_tree w language metric mn lf (kwargs_of conf) s _
              Hwf Hun eq_refl) as (Hun1 & _ & Hv1 & Hc1).
  destruct (set_model_for_metric_outcome w language metric mn lf (kwargs_of conf) s _
              Hwf eq_refl) as (_ & _ & Hwf1 & _).
  set (r1 := set_model_for_metric w language metric mn lf (kwargs_of conf) s) in *.
  destruct (set_model_for_metric_tree w language metric mn lf (kwargs_of conf) r1.2 _
              Hwf1 Hun1 eq_refl) as (_ & _ & Hv2 & Hc2).
  set (r2 := set_model_for_metric w language metric mn lf (kwargs_of conf) r1.2) in *.
  destruct (decide (language ∈ VALID_LANGUAGE ∧ metric ∈ VALID_METRICS)) as [[Hl Hm]|Hn].
  - specialize (Hv1 Hl Hm). specialize (Hv2 Hl Hm).
    destruct (caught r1.1) eqn:Ec.
    + rewrite Hc1 in Hv2, Hc2. rewrite <- Hv1 in Hv2. rewrite Hv2, Ec in Hc2.
      by rewrite Hc2, Hc1.
    + rewrite Hc1 in Hv2, Hc2.
      rewrite entry_of_tree_set_eq in Hv2, Hc2. cbn [default from_option id] in Hv2, Hc2.
      rewrite updated_entry_idem, tree_set_idem in Hv2, Hc2.
      rewrite <- Hv1 in Hv2. rewrite Hv2, Ec in Hc2. by rewrite Hc2, Hc1.
  - assert (language ∉ VALID_LANGUAGE ∨ metric ∉ VALID_METRICS) as Hg
      by (apply not_and_l in Hn; tauto).
    assert (r2.1 = r1.1) as E.
    { unfold r2, r1. by rewrite !set_model_for_metric_guard. }
    split; [done|]. rewrite E in Hc2.
    assert (caught r1.1 = true) as Ec.
    { unfold r1. by rewrite set_model_for_metric_guard. }
    rewrite Ec in Hc2. by rewrite Hc2.
Qed.

Lemma set_model_twice_witness :
  (call_set_model_for_metric hub_up "zh" "toxicity" conf_embed
     (call_set_model_for_metric hub_up "zh" "toxicity" conf_embed s_loaded).2).1
  = (call_set_model_for_metric hub_up "zh" "toxicity" conf_embed s_loaded).1 ∧
  config_of (call_set_model_for_metric hub_up "zh" "toxicity" conf_embed
               (call_set_model_for_metric hub_up "zh" "toxicity" conf_embed s_loaded).2).2
  = config_of (call_set_model_for_metric hub_up "zh" "toxicity" conf_embed s_loaded).2.
Proof.
  apply set_model_twice.
  exact (reachable_step hub_up (OpFetch "zh" "toxicity") _
           (reachable_step hub_up (OpSet "zh" "toxicity" conf_seq2seq) _
              reachable_init)).
Defined.

(** X5.  A call of the setter that returns leaves in the entry every
    attribute it does not assign: any attribute other than [model_name]
    and [loader_func] reads as before the call, [tokenizer_name] and
    [revision] included when the call gives no [tokenizer_name], no
    [model_revision], or an empty one.  A model set without a revision
    inherits the revision pinned for the model it replaces. *)
Theorem set_model_keeps_attributes w language metric conf s old k :
  reachable s →
  (call_set_model_for_metric w language metric conf s).1 = Ok PyNone →
  entry_of (config_of s) language metric = Some old →
  k ≠ "model_name" → k ≠ "loader_func" →
  (k = "tokenizer_name" → truthy_str (Dict.get "tokenizer_name" conf) = false) →
  (k = "revision" → truthy_str (Dict.get "model_revision" conf) = false) →
  ∃ new,
    entry_of (config_of (call_set_model_for_metric w language metric conf s).2)
      language metric = Some new ∧
    Dict.get k new = Dict.get k old.
Proof.
  intros Hr Hok Hold Hk1 Hk2 Ht Hrev. pose proof (reachable_inv s Hr) as (Hwf & _).
  destruct (call_set_outcome w language metric conf s _ Hwf eq_refl)
    as (_ & _ & _ & [[(e & He & _) _]|(mn & lf & _ & _ & _ & _ & _ & _ & Hentry & _)]).
  { by rewrite Hok in He. }
  rewrite Hold in Hentry. cbn [default from_option id] in Hentry.
  eexists. split; [exact Hentry|].
  apply updated_entry_other; [done..| |]; rewrite kwargs_of_get by done; auto.
Qed.

Lemma set_model_keeps_attributes_witness :
  ∃ new,
    entry_of (config_of (call_set_model_for_metric hub_up "zh" "toxicity" conf_seq2seq
                           s_reset).2) "zh" "toxicity" = Some new ∧
    Dict.get "revision" new
    = Dict.get "revision"
        [("loader_func", "load_sentence_transformers");
         ("model_name", "BAAI/bge-base-zh-v1.5"); ("revision", "f03589c")].
Proof.
  apply set_model_keeps_attributes.
  - exact (reachable_step hub_up (OpSet "zh" "toxicity" conf_embed) _
             (reachable_step hub_up (OpFetch "zh" "toxicity") _
                (reachable_step hub_up (OpSet "zh" "toxicity" conf_seq2seq) _
                   reachable_init))).
  - vm_compute. reflexivity.
  - vm_compute. reflexivity.
  - discriminate.
  - discriminate.
  - discriminate.
  - reflexivity.
Defined.

Lemma dict_mem_ext {V} k (d d' : list (string * V)) :
  Dict.get k d = Dict.get k d' → Dict.mem k d = Dict.mem k d'.
Proof. unfold Dict.mem. by intros ->. Qed.

(** X6.  Of the keys of a metric's configuration, the setter reads
    [model_name], [loader_func], [tokenizer_name] and [model_revision]
    (and rejects [self], [language] and [metric]); every other key, a
    [revision] key among them, is accepted and ignored: two configurations
    that agree on these keys give the same result and the same state. *)
Theorem set_model_reads_named_arguments w language metric conf conf' s :
  Forall (λ k, Dict.get k conf = Dict.get k conf')
    ["self"; "language"; "metric"; "model_name"; "loader_func"; "tokenizer_name";
     "model_revision"] →
  call_set_model_for_metric w language metric conf s
  = call_set_model_for_metric w language metric conf' s.
Proof.
  rewrite !Forall_cons. intros (H1 & H2 & H3 & H4 & H5 & H6 & H7 & _).
  unfold call_set_model_for_metric.
  rewrite (dict_mem_ext "self" conf conf'), (dict_mem_ext "language" conf conf'),
    (dict_mem_ext "metric" conf conf'), H4, H5 by done.
  destruct (_ || _); [done|].
  destruct (Dict.get "model_name" conf') as [mn|]; [|done].
  destruct (Dict.get "loader_func" conf') as [lf|]; [|done].
  apply set_model_for_metric_ext; by rewrite !kwargs_of_get.
Qed.

Lemma set_model_reads_named_arguments_witness :
  call_set_model_for_metric hub_up "zh" "toxicity" conf_seq2seq init_state
  = call_set_model_for_metric hub_up "zh" "toxicity"
      (conf_seq2seq ++ [("revision", "main"); ("device", "cpu")]) init_state.
Proof.
  apply set_model_reads_named_arguments.
  repeat constructor.
Defined.

(** X7.  The setter loads nothing: whatever it is given, and whether it
    returns or raises, it runs no loader and leaves the memo of
    [fetch_model] as it was. *)
Theorem set_model_loads_nothing w language metric conf s :
  reachable s →
  calls (call_set_model_for_metric w language metric conf s).2 = calls s ∧
  cache (call_set_model_for_metric w language metric conf s).2 = cache s.
Proof.
  intros (Hwf & _)%reachable_inv.
  by destruct (call_set_outcome w language metric conf s _ Hwf eq_refl) as (? & ? & _).
Qed.

Lemma set_model_loads_nothing_witness :
  calls (call_set_model_for_metric hub_up "zh" "toxicity" conf_embed s_loaded).2
  = calls s_loaded ∧
  cache (call_set_model_for_metric hub_up "zh" "toxicity" conf_embed s_loaded).2
  = cache s_loaded.
Proof.
  apply set_model_loads_nothing.
  exact (reachable_step hub_up (OpFetch "zh" "toxicity") _
           (reachable_step hub_up (OpSet "zh" "toxicity" conf_seq2seq) _
              reachable_init)).
Defined.

(** X8.  No operation of the manager removes a key: a language and metric
    that are configured stay configured after every call of the setter, of
    [fetch_model] and of [validate_config], whether it returns or raises. *)
Theorem run_op_keeps_keys w o s language metric :
  reachable s → present (config_of s) language metric →
  present (config_of (run_op w o s)) language metric.
Proof.
  intros (Hwf & _)%reachable_inv Hp. destruct o as [l m conf|l m|l m]; cbn [run_op].
  - destruct (call_set_outcome w l m conf s _ Hwf eq_refl)
      as (_ & _ & _ & [[_ ->]|(mn & lf & _ & _ & _ & _ & _ & _ & _ & _ & _ & Hpres)]);
      auto.
  - unfold fetch_model. destruct (cache_get _ _); [done|].
    destruct (fetch_model_wrapped_config w l m s Hwf) as [_ Hcfg].
    destruct (fetch_model_wrapped w l m s) as [[i|e] s']; cbn [fst snd] in *.
    + unfold config_of in *. cbn [heap_of self_config with_cache]. by rewrite Hcfg.
    + by rewrite Hcfg.
  - destruct Hwf as [Hwf Hcfg].
    destruct (validate_config_spec w (self_config s) l m (heap_of s)) as (_ & Hle & _).
    unfold config_of. cbn [heap_of self_config with_heap].
    by rewrite (snap_le (heap_of s)).
Qed.

Lemma run_op_keeps_keys_witness :
  present (config_of (run_op hub_404 (OpSet "zh" "toxicity" conf_embed) s_loaded))
    "zh" "toxicity".
Proof.
  apply run_op_keeps_keys.
  - exact (reachable_step hub_up (OpFetch "zh" "toxicity") _
             (reachable_step hub_up (OpSet "zh" "toxicity" conf_seq2seq) _
                reachable_init)).
  - eexists. split; [reflexivity|]. eexists. reflexivity.
Defined.

(** X9.  A manager never serves a model for a language or a metric that
    is not supported: in every state it can reach, such a call of
    [fetch_model] raises [KeyError] and changes nothing. *)
Theorem fetch_model_unsupported w language metric s :
  reachable s → language ∉ VALID_LANGUAGE ∨ metric ∉ VALID_METRICS →
  ∃ msg, fetch_model w language metric s = (Raise (KeyError msg), s).
Proof.
  intros Hr Hn. pose proof (reachable_inv s Hr) as (_ & _ & Hcache).
  pose proof (reachable_inv_tree s Hr) as (_ & Hsup & _).
  assert (¬ present (config_of s) language metric) as Hnp.
  { intros Hp. destruct (keys_supported_present _ _ _ Hsup Hp). tauto. }
  unfold fetch_model. destruct (cache_get _ _) as [i|] eqn:E.
  { destruct Hnp. eapply Hcache. by apply cache_get_elem_of. }
  destruct (fetch_model_wrapped_absent w language metric s Hnp) as [msg ->].
  by exists msg.
Qed.

Lemma fetch_model_unsupported_witness :
  ∃ msg, fetch_model hub_up "zh" "fluency" s_loaded = (Raise (KeyError msg), s_loaded).
Proof.
  apply fetch_model_unsupported.
  - exact (reachable_step hub_up (OpFetch "zh" "toxicity") _
             (reachable_step hub_up (OpSet "zh" "toxicity" conf_seq2seq) _
                reachable_init)).
  - right. apply str_in_false. reflexivity.
Defined.

(** X10.  A call of [fetch_model] that raises memoises nothing: the memo
    is as before the call and has no entry for the key, so that the next
    call for the key runs the method again. *)
Theorem fetch_model_raise_not_memoised w language metric s e s' :
  fetch_model w language metric s = (Raise e, s') →
  cache s' = cache s ∧ cache_get (language, metric) (cache s') = None.
Proof.
  unfold fetch_model. destruct (cache_get _ _) as [i|] eqn:E; [done|].
  pose proof (fetch_model_wrapped_frame w language metric s) as (_ & Hc & _).
  destruct (fetch_model_wrapped w language metric s) as [[i|e'] s'']; [done|].
  intros [= -> ->]. cbn [snd] in Hc. by rewrite Hc.
Qed.

Lemma fetch_model_raise_not_memoised_witness :
  cache (fetch_model hub_up "zh" "sentiment" s_loaded).2 = cache s_loaded ∧
  cache_get ("zh", "sentiment") (cache (fetch_model hub_up "zh" "sentiment" s_loaded).2)
  = None.
Proof.
  apply (fetch_model_raise_not_memoised hub_up "zh" "sentiment" s_loaded
           (KeyError "Metric sentiment not supported yet.")).
  reflexivity.
Defined.





Lemma elem_of_selected language metric t l m st :
  (l, m, st) ∈ selected language metric t → ∃ ms, (l, ms) ∈ t ∧ (m, st) ∈ ms.
Proof.
  unfold selected. intros ([l' ms] & Hin & Hl)%list_elem_of_bind. cbn [fst snd] in Hin.
  destruct (wanted language l'); [|by apply elem_of_nil in Hin].
  unfold selected_metrics in Hin. apply list_elem_of_bind in Hin as ([m' st'] & Hin & Hm).
  cbn [fst snd] in Hin. destruct (wanted metric m'); [|by apply elem_of_nil in Hin].
  apply list_elem_of_singleton in Hin as [= -> -> ->]. by exists ms.
Qed.

(** X13.  On the configuration of a manager, validation can only fail at
    the hub: in every reachable state, when [validate_config] raises, some
    configured entry names a model for which the hub does not answer 200
    at the revision of the entry, and the error is the [ValueError] for
    that model or the failure of the request. *)
Theorem reachable_validate_hub_only w language metric s e :
  reachable s →
  (validate_config w (self_config s) language metric (heap_of s)).1 = Raise e →
  ∃ l ms m entry mn,
    (l, ms) ∈ config_of s ∧ (m, entry) ∈ ms ∧
    Dict.get "model_name" entry = Some mn ∧
    http_get w (model_url mn (Dict.get "revision" entry)) ≠ Response 200 ∧
    (e = RequestException ∨
     e = ValueError ("Cannot find " +:+ mn +:+ " with " +:+
                     opt_str (Dict.get "revision" entry) +:+ " and Huggingface Hub")).
Proof.
  intros (_ & Hok & _)%reachable_inv.
  destruct (validate_config_spec w (self_config s) language metric (heap_of s))
    as (-> & _). fold (config_of s).
  destruct (first_error w _) as [e'|] eqn:E; [|done]. intros [= ->].
  apply first_error_Some in E as (pre & [[l m] entry] & post & Hsel & _ & He).
  assert ((l, m, entry) ∈ selected language metric (config_of s)) as Hin.
  { rewrite Hsel. apply elem_of_app. right. left. }
  apply elem_of_selected in Hin as (ms & Hl & Hm).
  unfold entries_ok in Hok. rewrite Forall_forall in Hok. specialize (Hok _ Hl).
  cbn [snd] in Hok. rewrite Forall_forall in Hok.
  destruct (Hok _ Hm) as ([mn Hmn] & f & Hf & Hvalid). cbn [snd] in Hmn, Hf.
  exists l, ms, m, entry, mn. split_and!; [done..| |].
  - intros Hhub. unfold entry_error, check_model_availability in He.
    rewrite Hmn, Hf, (proj2 (str_in_true _ _) Hvalid), Hhub in He. done.
  - unfold entry_error, check_model_availability in He.
    rewrite Hmn, Hf, (proj2 (str_in_true _ _) Hvalid) in He. cbn [negb] in He.
    destruct (http_get w _) as [code|]; [|left; congruence].
    destruct (Z.eqb code 200); [done|right; congruence].
Qed.

Lemma reachable_validate_hub_only_witness :
  ∃ l ms m entry mn,
    (l, ms) ∈ config_of s_loaded ∧ (m, entry) ∈ ms ∧
    Dict.get "model_name" entry = Some mn ∧
    http_get hub_404 (model_url mn (Dict.get "revision" entry)) ≠ Response 200 ∧
    (ValueError "Cannot find Helsinki-NLP/opus-mt-zh-en with None and Huggingface Hub"
     = RequestException ∨
     ValueError "Cannot find Helsinki-NLP/opus-mt-zh-en with None and Huggingface Hub"
     = ValueError ("Cannot find " +:+ mn +:+ " with " +:+
                   opt_str (Dict.get "revision" entry) +:+ " and Huggingface Hub")).
Proof.
  apply (reachable_validate_hub_only hub_404 "all" "all" s_loaded).
  - exact (reachable_step hub_up (OpFetch "zh" "toxicity") _
             (reachable_step hub_up (OpSet "zh" "toxicity" conf_seq2seq) _
                reachable_init)).
  - reflexivity.
Defined.

(** ** Loading a configuration file *)

Lemma load_metrics_Ok w lang lang_conf : ∀ s s',
  inv s → load_metrics w lang lang_conf s = (Ok PyNone, s') →
  inv s' ∧
  (∀ l m, present (config_of s) l m → present (config_of s') l m) ∧
  ∀ metric metric_conf, (metric, metric_conf) ∈ lang_conf →
    lang ∈ VALID_LANGUAGE ∧ metric ∈ VALID_METRICS ∧
    present (config_of s') lang metric ∧
    is_Some (Dict.get "model_name" metric_conf) ∧
    ∃ lf, Dict.get "loader_func" metric_conf = Some lf ∧ lf ∈ VALID_LOADER_FUNCTION.
Proof.
  induction lang_conf as [|[metric_name metric_conf] rest IH]; intros s s' Hinv.
  { intros [= <-]. split_and!; [done..|]. by intros ?? ?%elem_of_nil. }
  cbn [load_metrics].
  pose proof (call_set_inv w lang metric_name metric_conf s Hinv) as Hinv1.
  destruct Hinv as (Hwf & _).
  destruct (call_set_outcome w lang metric_name metric_conf s _ Hwf eq_refl)
    as (_ & _ & _ & Hcase).
  destruct (call_set_model_for_metric w lang metric_name metric_conf s)
    as [[[]|e] s1]; [|done]. cbn [fst snd] in *.
  destruct Hcase as [[(e & [=] & _) _]
                    |(mn & lf & Hmn & Hlf & _ & Hl & Hm & _ & Hentry & Herr & _ & Hpres)].
  intros Hrest. destruct (IH s1 s' Hinv1 Hrest) as (Hinv' & Hpres' & Hall).
  split_and!; [done|by auto|].
  intros metric conf [[= -> ->]|Hin]%elem_of_cons; [|by apply Hall].
  split_and!; [done..| | |].
  - apply Hpres', present_entry_of. by rewrite Hentry.
  - by rewrite Hmn.
  - exists lf. split; [done|].
    destruct (entry_error_entry_ok _ _ Herr) as [_ (f & Hf & Hvalid)].
    cbn [snd] in Hf. rewrite updated_entry_loader_func in Hf. by injection Hf as <-.
Qed.

Lemma load_config_Ok w conf : ∀ s s',
  inv s → load_config w conf s = (Ok PyNone, s') →
  inv s' ∧
  (∀ l m, present (config_of s) l m → present (config_of s') l m) ∧
  ∀ lang lang_conf metric metric_conf,
    (lang, lang_conf) ∈ conf → (metric, metric_conf) ∈ lang_conf →
    lang ∈ VALID_LANGUAGE ∧ metric ∈ VALID_METRICS ∧
    present (config_of s') lang metric ∧
    is_Some (Dict.get "model_name" metric_conf) ∧
    ∃ lf, Dict.get "loader_func" metric_conf = Some lf ∧ lf ∈ VALID_LOADER_FUNCTION.
Proof.
  induction conf as [|[lang lang_conf] rest IH]; intros s s' Hinv.
  { intros [= <-]. split_and!; [done..|]. by intros ???? ?%elem_of_nil. }
  cbn [load_config].
  destruct (load_metrics w lang lang_conf s) as [[[]|e] s1] eqn:E1; [|done].
  destruct (load_metrics_Ok w lang lang_conf s s1 Hinv E1) as (Hinv1 & Hpres1 & Hall1).
  intros Hrest. destruct (IH s1 s' Hinv1 Hrest) as (Hinv' & Hpres' & Hall).
  split_and!; [done|by auto|].
  intros l lc m mc [[= -> ->]|Hin]%elem_of_cons Hm; [|by eapply Hall].
  destruct (Hall1 m mc Hm) as (? & ? & ? & ? & ?). split_and!; auto.
Qed.

(** X14.  When the constructor returns, every metric of every language of
    the configuration file is configured in the manager; the file names
    supported languages and metrics only, and each of its entries has a
    [model_name] and a registered [loader_func]. *)
Theorem init_ok_loads_every_key w conf lang lang_conf metric metric_conf :
  (init w conf).1 = Ok PyNone →
  (lang, lang_conf) ∈ conf → (metric, metric_conf) ∈ lang_conf →
  lang ∈ VALID_LANGUAGE ∧ metric ∈ VALID_METRICS ∧
  present (config_of (init w conf).2) lang metric ∧
  is_Some (Dict.get "model_name" metric_conf) ∧
  ∃ lf, Dict.get "loader_func" metric_conf = Some lf ∧ lf ∈ VALID_LOADER_FUNCTION.
Proof.
  unfold init. intros Hok Hl Hm.
  destruct (load_config w conf init_state) as [r s'] eqn:E. cbn [fst snd] in *.
  subst r. destruct (load_config_Ok w conf init_state s' inv_init E) as (_ & _ & Hall).
  by eapply Hall.
Qed.

Lemma init_ok_loads_every_key_witness :
  "zh" ∈ VALID_LANGUAGE ∧ "sentiment" ∈ VALID_METRICS ∧
  present (config_of (init hub_up [("zh", [("toxicity", conf_seq2seq);
                                           ("sentiment", conf_embed)])]).2)
    "zh" "sentiment" ∧
  is_Some (Dict.get "model_name" conf_embed) ∧
  ∃ lf, Dict.get "loader_func" conf_embed = Some lf ∧ lf ∈ VALID_LOADER_FUNCTION.
Proof.
  apply (init_ok_loads_every_key hub_up
           [("zh", [("toxicity", conf_seq2seq); ("sentiment", conf_embed)])]
           "zh" [("toxicity", conf_seq2seq); ("sentiment", conf_embed)]).
  - reflexivity.
  - left.
  - right. left.
Defined.

(** * More properties of to_full_width *)

Lemma perturb_chars_pieces h2z rnd p instance : ∀ acc k,
  ∃ pieces : list str,
    Forall2 (λ (c : N) (piece : str), piece = [c] ∨ piece = h2z [c]) instance pieces ∧
    (perturb_chars h2z rnd p instance acc k).1 = acc ++ concat pieces.
Proof.
  induction instance as [|c rest IH]; intros acc k.
  - exists []. split; [constructor|]. simpl. by rewrite app_nil_r.
  - cbn [perturb_chars]. destruct (negb _).
    + destruct (IH (acc ++ [c]) (S k)) as (pieces & HF & ->).
      exists ([c] :: pieces). split; [constructor; auto|].
      simpl. by rewrite <- app_assoc.
    + destruct (IH (acc ++ h2z [c]) (S k)) as (pieces & HF & ->).
      exists (h2z [c] :: pieces). split; [constructor; auto|].
      simpl. by rewrite <- app_assoc.
Qed.

Lemma perturb_chars_draws h2z rnd p instance : ∀ acc k,
  (perturb_chars h2z rnd p instance acc k).2 = k + length instance.
Proof.
  induction instance as [|c rest IH]; intros acc k; [simpl; lia|].
  cbn [perturb_chars]. destruct (negb _); rewrite IH; simpl; lia.
Qed.

Lemma perturb_range_pieces h2z rnd p n instance : ∀ acc k,
  ∃ news : list str,
    (perturb_range h2z rnd p n instance acc k).1 = acc ++ news ∧
    Forall2 (char_perturbation h2z) (replicate n instance) news.
Proof.
  induction n as [|n IH]; intros acc k.
  - exists []. split; [simpl; by rewrite app_nil_r|constructor].
  - cbn [perturb_range].
    destruct (perturb_chars_pieces h2z rnd p instance [] k) as (pieces & HF & Hp).
    destruct (perturb_chars h2z rnd p instance [] k) as [pi k1]. cbn [fst] in Hp.
    destruct (IH (acc ++ [pi]) k1) as (news & -> & Hnews).
    exists (pi :: news). split; [by rewrite <- app_assoc|].
    simpl. constructor; [|done]. by exists pieces.
Qed.

Lemma perturb_range_draws h2z rnd p n instance : ∀ acc k,
  (perturb_range h2z rnd p n instance acc k).2 = k + n * length instance.
Proof.
  induction n as [|n IH]; intros acc k; [simpl; lia|].
  cbn [perturb_range].
  pose proof (perturb_chars_draws h2z rnd p instance [] k) as Hd.
  destruct (perturb_chars h2z rnd p instance [] k) as [pi k1]. cbn [snd] in Hd.
  rewrite IH, Hd. lia.
Qed.

Lemma perturb_instances_pieces h2z rnd p num instances : ∀ acc k,
  ∃ news : list str,
    (perturb_instances h2z rnd p num instances acc k).1 = acc ++ news ∧
    Forall2 (char_perturbation h2z)
      (instances ≫= λ s, replicate (Z.to_nat num) s) news.
Proof.
  induction instances as [|s rest IH]; intros acc k.
  - exists []. split; [simpl; by rewrite app_nil_r|constructor].
  - cbn [perturb_instances]. rewrite bind_cons.
    destruct (perturb_range_pieces h2z rnd p (Z.to_nat num) s acc k)
      as (news1 & H1 & HF1).
    destruct (perturb_range h2z rnd p (Z.to_nat num) s acc k) as [out k1].
    cbn [fst] in H1. subst out.
    destruct (IH (acc ++ news1) k1) as (news2 & -> & HF2).
    exists (news1 ++ news2). split; [by rewrite <- app_assoc|].
    by apply Forall2_app.
Qed.

Lemma perturb_instances_draws h2z rnd p num instances : ∀ acc k,
  (perturb_instances h2z rnd p num instances acc k).2
  = k + Z.to_nat num * length (concat instances).
Proof.
  induction instances as [|s rest IH]; intros acc k; [simpl; lia|].
  cbn [perturb_instances].
  pose proof (perturb_range_draws h2z rnd p (Z.to_nat num) s acc k) as Hd.
  destruct (perturb_range h2z rnd p (Z.to_nat num) s acc k) as [out k1].
  cbn [snd] in Hd. rewrite IH, Hd. simpl. rewrite length_app. lia.
Qed.

(** X15.  Whatever [aug_char_p] and the random draws are, every returned
    string is its input string with each character either kept or replaced
    by its image under the table, in order. *)
Theorem to_full_width_charwise h2z rnd instances aug_char_p num_perturbations k :
  Forall2 (char_perturbation h2z)
    (instance_list instances ≫= λ s, replicate (Z.to_nat num_perturbations) s)
    (to_full_width h2z rnd instances aug_char_p num_perturbations k).1.
Proof.
  unfold to_full_width. fold (instance_list instances).
  destruct (perturb_instances_pieces h2z rnd aug_char_p num_perturbations
              (instance_list instances) [] k) as (news & -> & HF).
  done.
Qed.

(** X16.  [to_full_width] draws one random number for every character of
    every perturbation it makes, and none otherwise. *)
Theorem to_full_width_draws h2z rnd instances aug_char_p num_perturbations k :
  (to_full_width h2z rnd instances aug_char_p num_perturbations k).2
  = k + Z.to_nat num_perturbations * length (concat (instance_list instances)).
Proof.
  unfold to_full_width. fold (instance_list instances).
  apply perturb_instances_draws.
Qed.

Lemma perturb_chars_keep h2z rnd p instance :
  (∀ i, (0 <= rnd i)%Q) → (p < 0)%Q →
  ∀ acc k, (perturb_chars h2z rnd p instance acc k).1 = acc ++ instance.
Proof.
  intros Hrnd Hp. induction instance as [|c rest IH]; intros acc k.
  - simpl. by rewrite app_nil_r.
  - cbn [perturb_chars].
    assert (Qle_bool (rnd k) p = false) as ->.
    { apply not_true_is_false. intros H%Qle_bool_iff.
      specialize (Hrnd k). apply (Qlt_irrefl 0).
      eapply Qle_lt_trans; [exact Hrnd|]. eapply Qle_lt_trans; [exact H|exact Hp]. }
    cbn [negb]. rewrite IH, <- app_assoc. done.
Qed.

Lemma perturb_range_keep h2z rnd p n instance :
  (∀ i, (0 <= rnd i)%Q) → (p < 0)%Q →
  ∀ acc k, (perturb_range h2z rnd p n instance acc k).1 = acc ++ replicate n instance.
Proof.
  intros Hrnd Hp. induction n as [|n IH]; intros acc k.
  - simpl. by rewrite app_nil_r.
  - cbn [perturb_range].
    pose proof (perturb_chars_keep h2z rnd p instance Hrnd Hp [] k) as Hk.
    destruct (perturb_chars h2z rnd p instance [] k) as [pi k1]. cbn [fst] in Hk.
    subst pi. rewrite IH, <- app_assoc. done.
Qed.

(** X17.  A negative [aug_char_p] switches the augmentation off: every
    input string is returned unchanged, [num_perturbations] times. *)
Theorem to_full_width_off h2z rnd instances aug_char_p num_perturbations k :
  (∀ i, (0 <= rnd i)%Q) → (aug_char_p < 0)%Q →
  (to_full_width h2z rnd instances aug_char_p num_perturbations k).1
  = (instance_list instances ≫= λ s, replicate (Z.to_nat num_perturbations) s).
Proof.
  intros Hrnd Hp. unfold to_full_width. fold (instance_list instances).
  generalize (instance_list instances) as l. intros l.
  assert (∀ acc k0,
    (perturb_instances h2z rnd aug_char_p num_perturbations l acc k0).1
    = acc ++ (l ≫= λ s, replicate (Z.to_nat num_perturbations) s)) as H; [|apply H].
  induction l as [|s rest IH]; intros acc k0.
  - simpl. by rewrite app_nil_r.
  - cbn [perturb_instances]. rewrite bind_cons.
    pose proof (perturb_range_keep h2z rnd aug_char_p (Z.to_nat num_perturbations) s
                  Hrnd Hp acc k0) as Hk.
    destruct (perturb_range _ _ _ _ s acc k0) as [out k1]. cbn [fst] in Hk. subst out.
    by rewrite IH, <- app_assoc.
Qed.

Lemma to_full_width_off_witness :
  (to_full_width h2z_example (λ _, 0%Q) (Str [72; 105]%N) (-1)%Q 2 0).1
  = [[72; 105]; [72; 105]]%N.
Proof.
  rewrite to_full_width_off; [reflexivity|intros i; discriminate|reflexivity].
Defined.

(** X18.  With [num_perturbations] zero or negative nothing is returned and
    no random number is drawn. *)
Theorem to_full_width_none h2z rnd instances aug_char_p num_perturbations k :
  (num_perturbations <= 0)%Z →
  to_full_width h2z rnd instances aug_char_p num_perturbations k = ([], k).
Proof.
  intros Hn. unfold to_full_width. generalize (instance_list instances) as l.
  fold (instance_list instances).
  assert (Z.to_nat num_perturbations = 0) as Hz by lia.
  assert (∀ (l : list str) acc k0,
    perturb_instances h2z rnd aug_char_p num_perturbations l acc k0 = (acc, k0)) as H.
  { induction l as [|s rest IH]; intros acc k0; [done|].
    cbn [perturb_instances]. rewrite Hz. cbn [perturb_range]. apply IH. }
  intros _. apply H.
Qed.

Lemma to_full_width_none_witness :
  to_full_width h2z_example (λ _, 0%Q) (StrList [[72; 105]; [33]]%N) 1%Q (-3) 7
  = ([], 7).
Proof. apply to_full_width_none. lia. Defined.

(** * Properties of Detoxify *)

Lemma renamed_not_old cl :
  Dict.get (default cl (Dict.get cl change_names)) change_names = None.
Proof.
  unfold change_names. cbn [Dict.get].
  destruct (String.eqb_spec cl "toxic") as [->|H1]; [done|].
  destruct (String.eqb_spec cl "identity_hate") as [->|H2]; [done|].
  destruct (String.eqb_spec cl "severe_toxic") as [->|H3]; [done|].
  cbn [default from_option id].
  by rewrite (proj2 (String.eqb_neq _ _) H1), (proj2 (String.eqb_neq _ _) H2),
    (proj2 (String.eqb_neq _ _) H3).
Qed.

(** X19.  The class names [load_checkpoint] returns are as many as the
    checkpoint's, none of them is one of the three old names, and renaming
    them once more changes nothing. *)
Theorem rename_classes_new class_names :
  length (rename_classes class_names) = length class_names ∧
  (∀ cl, cl ∈ rename_classes class_names → cl ∉ change_names.*1) ∧
  rename_classes (rename_classes class_names) = rename_classes class_names.
Proof.
  unfold rename_classes. split_and!.
  - apply length_fmap.
  - intros cl (cl0 & -> & _)%list_elem_of_fmap Hin.
    apply list_elem_of_fmap in Hin as ([k v] & Hk & Hkv). cbn [fst] in Hk.
    pose proof (renamed_not_old cl0) as Hnone. rewrite Hk in Hnone.
    unfold change_names in Hkv, Hnone.
    repeat (apply elem_of_cons in Hkv as [[= -> ->]|Hkv]; [done|]).
    by apply elem_of_nil in Hkv.
  - rewrite <- list_fmap_compose. apply list_fmap_ext. intros _ cl _. unfold compose.
    by rewrite renamed_not_old.
Qed.

Section Predict.
Context {V : Type}.
Implicit Types (scores : list (list V)) (results : list (string * class_scores V)).

Lemma predict_loop_other b scores names : ∀ i results r cla,
  predict_loop b scores i names results = Some r →
  cla ∉ names → Dict.get cla r = Dict.get cla results.
Proof.
  induction names as [|n rest IH]; intros i results r cla; simpl.
  - by intros [= ->].
  - destruct (class_result b scores i) as [v|]; [|done].
    intros Hr Hnot. apply not_elem_of_cons in Hnot as [Hne Hnot].
    rewrite (IH _ _ _ _ Hr Hnot). by apply DictFacts.get_set_ne.
Qed.

Lemma predict_loop_lookup b scores names : ∀ i results r j cla,
  NoDup names →
  predict_loop b scores i names results = Some r →
  names !! j = Some cla →
  class_result b scores (i + j) = Dict.get cla r ∧ is_Some (Dict.get cla r).
Proof.
  induction names as [|n rest IH]; intros i results r j cla Hnd; simpl; [done|].
  apply NoDup_cons in Hnd as [Hn Hnd].
  destruct (class_result b scores i) as [v|] eqn:Ev; [|done].
  intros Hr. destruct j as [|j]; simpl.
  - intros [= ->]. rewrite (predict_loop_other _ _ _ _ _ _ _ Hr Hn).
    rewrite DictFacts.get_set_eq, Nat.add_0_r. by split; [|eexists].
  - intros Hj. replace (i + S j) with (S i + j) by lia. by eapply IH.
Qed.

Lemma predict_loop_keys b scores names : ∀ i results r cla,
  predict_loop b scores i names results = Some r →
  is_Some (Dict.get cla r) ↔ cla ∈ names ∨ is_Some (Dict.get cla results).
Proof.
  induction names as [|n rest IH]; intros i results r cla; simpl.
  - intros [= ->]. rewrite elem_of_nil. tauto.
  - destruct (class_result b scores i) as [v|]; [|done]. intros Hr.
    rewrite (IH _ _ _ cla Hr), elem_of_cons.
    destruct (decide (cla = n)) as [->|Hne].
    + rewrite DictFacts.get_set_eq. split; [by auto|]. intros _. right. by eexists.
    + rewrite DictFacts.get_set_ne by done. tauto.
Qed.

Lemma predict_loop_total b scores names : ∀ i results,
  (∀ j, j < length names → is_Some (class_result b scores (i + j))) →
  is_Some (predict_loop b scores i names results).
Proof.
  induction names as [|n rest IH]; intros i results H; simpl; [by eexists|].
  destruct (H 0 ltac:(simpl; lia)) as [v Hv]. rewrite Nat.add_0_r in Hv. rewrite Hv.
  apply IH. intros j Hj. replace (S i + j) with (i + S j) by lia.
  apply H. simpl. lia.
Qed.

End Predict.

(** X20.  For a list of texts, [predict] returns the scores transposed:
    under every class name a list with one score per example, the [j]-th
    being the score of example [j] in the column of that class. *)
Theorem predict_transposes {V} (class_names : list string) (scores : list (list V))
    r i cla :
  NoDup class_names →
  predict false class_names scores = Some r →
  class_names !! i = Some cla →
  ∃ col, Dict.get cla r = Some (Scores col) ∧ length col = length scores ∧
         ∀ j row, scores !! j = Some row → col !! j = row !! i ∧ is_Some (row !! i).
Proof.
  intros Hnd Hr Hi.
  destruct (predict_loop_lookup false scores class_names 0 [] r i cla Hnd Hr Hi)
    as [Heq [v Hv]].
  rewrite Hv in Heq. cbn [Nat.add] in Heq. unfold class_result, column in Heq.
  destruct (mapM (λ row : list V, row !! i) scores) as [col|] eqn:Ec; [|done].
  injection Heq as <-. apply mapM_Some in Ec. exists col. split; [done|].
  split; [symmetry; by eapply Forall2_length|].
  intros j row Hrow. destruct (Forall2_lookup_l _ _ _ _ _ Ec Hrow) as (y & Hy & Hry).
  rewrite Hy, Hry. by split; [|eexists].
Qed.

Lemma predict_transposes_witness :
  ∃ col, Dict.get "insult" [("toxicity", Scores [1; 3]); ("insult", Scores [2; 4])]
         = Some (Scores col) ∧ length col = 2 ∧
         ∀ j row, [[1; 2]; [3; 4]] !! j = Some row →
                  col !! j = row !! 1 ∧ is_Some (row !! 1).
Proof.
  apply (predict_transposes ["toxicity"; "insult"] [[1; 2]; [3; 4]]).
  - compute_done.
  - reflexivity.
  - reflexivity.
Defined.

(** X21.  For a single text [predict] returns under every class name the
    score of that class in the first row. *)
Theorem predict_single {V} (class_names : list string) (scores : list (list V))
    r i cla :
  NoDup class_names →
  predict true class_names scores = Some r →
  class_names !! i = Some cla →
  ∃ row v, scores !! 0 = Some row ∧ row !! i = Some v ∧ Dict.get cla r = Some (Score v).
Proof.
  intros Hnd Hr Hi.
  destruct (predict_loop_lookup true scores class_names 0 [] r i cla Hnd Hr Hi)
    as [Heq [v Hv]].
  rewrite Hv in Heq. cbn [Nat.add] in Heq. unfold class_result in Heq.
  destruct (scores !! 0) as [row|]; [|done]. simpl in Heq.
  destruct (row !! i) as [x|] eqn:Ex; [|done]. injection Heq as <-.
  by exists row, x.
Qed.

Lemma predict_single_witness :
  ∃ row v, [[1; 2]] !! 0 = Some row ∧ row !! 1 = Some v ∧
           Dict.get "insult" [("toxicity", Score 1); ("insult", Score 2)]
           = Some (Score v).
Proof.
  apply (predict_single ["toxicity"; "insult"] [[1; 2]]).
  - compute_done.
  - reflexivity.
  - reflexivity.
Defined.

(** X22.  For a list of texts, [predict] returns a result when every row
    of scores has a column for every class, and raises [IndexError] when
    a row is too short; the keys of a result are exactly the class names. *)
Theorem predict_keys {V} (class_names : list string) (scores : list (list V)) :
  (Forall (λ row, length class_names ≤ length row) scores →
   is_Some (predict false class_names scores)) ∧
  (Exists (λ row, length row < length class_names) scores →
   predict false class_names scores = None) ∧
  (∀ b r, predict b class_names scores = Some r →
     ∀ cla, is_Some (Dict.get cla r) ↔ cla ∈ class_names).
Proof.
  split_and!.
  - intros Hrows. apply predict_loop_total. intros j Hj. cbn [Nat.add].
    unfold class_result, column. apply fmap_is_Some, mapM_is_Some.
    eapply Forall_impl; [exact Hrows|]. intros row Hrow. simpl in *.
    apply lookup_lt_is_Some_2. lia.
  - intros Hex. destruct (predict false class_names scores) as [r|] eqn:Er; [|done].
    exfalso. apply Exists_exists in Hex as (row & Hrow & Hshort).
    apply list_elem_of_lookup in Hrow as [j Hj].
    destruct (lookup_lt_is_Some_2 class_names (length row) Hshort) as [cla Hcla].
    assert (∀ names i results r0,
      predict_loop false scores i names results = Some r0 →
      ∀ k, k < length names → is_Some (class_result false scores (i + k))) as Hall.
    { induction names as [|n rest IH]; intros i results r0;
        cbn [predict_loop length]; [intros _ k Hk; lia|].
      destruct (class_result false scores i) as [v|] eqn:Ev; [|by intros [=]].
      intros Hr0 [|k] Hk.
      - rewrite Nat.add_0_r, Ev. by eexists.
      - replace (i + S k) with (S i + k) by lia. eapply IH; [done|lia]. }
    destruct (Hall _ _ _ _ Er (length row) Hshort) as [v Hv]. cbn [Nat.add] in Hv.
    unfold class_result, column in Hv. apply fmap_Some in Hv as (col & Hcol & _).
    apply mapM_Some in Hcol.
    destruct (Forall2_lookup_l _ _ _ _ _ Hcol Hj) as (y & _ & Hy).
    apply lookup_lt_Some in Hy. lia.
  - intros b r Hr cla. rewrite (predict_loop_keys _ _ _ _ _ _ cla Hr).
    split; [intros [|[? [=]]]; done|by left].
Qed.

Lemma predict_keys_witness :
  is_Some (predict false ["toxicity"; "insult"] [[1; 2]; [3; 4]]) ∧
  predict false ["toxicity"; "insult"] [[1; 2]; [3]] = None.
Proof.
  destruct (predict_keys ["toxicity"; "insult"] [[1; 2]; [3]]) as (_ & H2 & _).
  destruct (predict_keys ["toxicity"; "insult"] [[1; 2]; [3; 4]]) as (H1 & _ & _).
  split.
  - apply H1. repeat constructor.
  - apply H2. right. left. simpl. lia.
Defined.
